(** * Bilingual ARD: the content script [content.js]

    A shallow embedding of the content script that overlays translated
    captions on the ARD player, and the properties of its coordination
    core: the translation cache, the translation client's output
    normalisation, the element waiter, the render gate and the session
    life cycle.

    Conventions of the embedding.
    - A JavaScript string is a [string] whose characters are read as the
      code units U+0000..U+00FF (Latin-1).  On that range [toLowerCase]
      is character-wise and stays in range, and the regular expression
      classes [\w] and [\s] are exactly the ones defined below.
    - The host document is a tree of elements and text nodes; elements
      carry an identity, so that a node obtained from one query can be
      found again after the tree has been patched.
    - The script runs on the host's event loop: the model is a state and
      one handler per callback of the source, and the host chooses the
      order of the events. *)

From Equations Require Import Equations.
From stdpp Require Import gmap strings list fin_maps.
From Stdlib Require Import Ascii String NArith.

Open Scope string_scope.
Open Scope list_scope.

(* ===================================================================== *)
(** * Part I.  Strings                                                    *)
(* ===================================================================== *)

Definition code (c : ascii) : N := N_of_ascii c.

(** [\w] of a regular expression without the [u] and [i] flags:
    [A-Za-z0-9_]. *)
Definition isWord (c : ascii) : bool :=
  let n := code c in
  (((48 <=? n) && (n <=? 57)) || ((65 <=? n) && (n <=? 90))
   || ((97 <=? n) && (n <=? 122)) || (n =? 95))%N.

(** [\s], and the characters [trim] strips: the white space and line
    terminators of ECMAScript that lie in U+0000..U+00FF, that is TAB,
    LF, VT, FF, CR, SP and NBSP. *)
Definition isWhiteSpace (c : ascii) : bool :=
  let n := code c in
  (((9 <=? n) && (n <=? 13)) || (n =? 32) || (n =? 160))%N.

(** [String.prototype.toLowerCase] on one code unit: [A-Z] and the
    Latin-1 capitals U+00C0..U+00DE (U+00D7, the multiplication sign,
    apart) move up by 32. *)
Definition toLowerChar (c : ascii) : ascii :=
  let n := code c in
  if (((65 <=? n) && (n <=? 90))
      || ((192 <=? n) && (n <=? 222) && negb (n =? 215)))%N
  then ascii_of_N (n + 32) else c.

(** [String.prototype.toUpperCase] on one code unit.  The script applies
    it to the text of a regular expression match only, which is made of
    a period, white space and [\w] characters: there it changes [a-z]
    and nothing else. *)
Definition toUpperChar (c : ascii) : ascii :=
  let n := code c in
  if ((97 <=? n) && (n <=? 122))%N then ascii_of_N (n - 32) else c.

Fixpoint toLowerCase (s : string) : string :=
  match s with
  | EmptyString => EmptyString
  | String c r => String (toLowerChar c) (toLowerCase r)
  end.

Fixpoint toUpperCase (s : string) : string :=
  match s with
  | EmptyString => EmptyString
  | String c r => String (toUpperChar c) (toUpperCase r)
  end.

Definition isEmpty (s : string) : bool :=
  match s with EmptyString => true | _ => false end.

Fixpoint trimStart (s : string) : string :=
  match s with
  | EmptyString => EmptyString
  | String c r => if isWhiteSpace c then trimStart r else s
  end.

Fixpoint trimEnd (s : string) : string :=
  match s with
  | EmptyString => EmptyString
  | String c r =>
      let r' := trimEnd r in
      if isWhiteSpace c && isEmpty r' then EmptyString else String c r'
  end.

(** [s.trim()] *)
Definition trim (s : string) : string := trimEnd (trimStart s).

Definition LF : ascii := ascii_of_N 10.
Definition SP : ascii := ascii_of_N 32.
Definition PERIOD : ascii := ascii_of_N 46.

(** [s.replace(/\n/g, ' ')] *)
Fixpoint replaceNewlines (s : string) : string :=
  match s with
  | EmptyString => EmptyString
  | String c r =>
      String (if Ascii.eqb c LF then SP else c) (replaceNewlines r)
  end.

(** [xs.join(sep)] on strings. *)
Fixpoint join (sep : string) (xs : list string) : string :=
  match xs with
  | [] => EmptyString
  | [x] => x
  | x :: rest => x +:+ sep +:+ join sep rest
  end.

(** ** The replacement [.replace(/(^\w|\.\s*\w)/g, m => m.toUpperCase())]

    A matcher takes the text at the current index and returns the text
    matched and the text after the match. *)

(** First alternative, [^\w]: without the [m] flag [^] holds at index 0
    only, so this matcher is tried on the whole string only. *)
Definition match_start (s : string) : option (string * string) :=
  match s with
  | String c r => if isWord c then Some (String c EmptyString, r) else None
  | EmptyString => None
  end.

(** [\s*\w]: the star is greedy; giving white space back never helps,
    since the character after a shorter run is white space and [\s] and
    [\w] are disjoint. *)
Fixpoint match_ws_word (s : string) : option (string * string) :=
  match s with
  | EmptyString => None
  | String c r =>
      if isWhiteSpace c then
        match match_ws_word r with
        | Some (m, k) => Some (String c m, k)
        | None => None
        end
      else if isWord c then Some (String c EmptyString, r)
      else None
  end.

(** Second alternative, [\.\s*\w]. *)
Definition match_period (s : string) : option (string * string) :=
  match s with
  | String c r =>
      if Ascii.eqb c PERIOD then
        match match_ws_word r with
        | Some (m, k) => Some (String c m, k)
        | None => None
        end
      else None
  | EmptyString => None
  end.

Definition inspect {A} (a : A) : {b | a = b} := exist _ a eq_refl.

(** The scan of a global replace from an index after 0: where the
    pattern matches, the match is replaced and the scan resumes after
    it; where it does not, the character is kept and the scan moves on
    by one. *)
Equations? replace_from (s : string) : string by wf (String.length s) lt :=
  replace_from EmptyString := EmptyString;
  replace_from (String c r) with inspect (match_period (String c r)) := {
    | exist _ (Some (m, k)) E => toUpperCase m +:+ replace_from k
    | exist _ None _ => String c (replace_from r) }.
Proof.
  - simpl in E. destruct (Ascii.eqb c PERIOD); [|discriminate].
    assert (Hlen : forall t m' k', match_ws_word t = Some (m', k') ->
                     String.length k' < S (String.length t)).
    { induction t as [|d t IH]; intros m' k'; simpl; [discriminate|].
      destruct (isWhiteSpace d).
      - destruct (match_ws_word t) as [[m1 k1]|]; [|discriminate].
        intros [= <- <-]. specialize (IH _ _ eq_refl). lia.
      - destruct (isWord d); [|discriminate]. intros [= <- <-]. lia. }
    destruct (match_ws_word r) as [[m1 k1]|] eqn:E1; [|discriminate].
    injection E as <- <-. simpl. eapply Hlen; eauto.
  - simpl. lia.
Qed.

(** The whole replacement: at index 0 the first alternative is tried
    before the second. *)
Definition replaceSentenceStarts (s : string) : string :=
  match match_start s with
  | Some (m, k) => toUpperCase m +:+ replace_from k
  | None => replace_from s
  end.

(** Lines 158-160: [translatedText.toLowerCase().replace(...)]. *)
Definition sentenceCase (s : string) : string :=
  replaceSentenceStarts (toLowerCase s).

(* ===================================================================== *)
(** * Part II.  The translation service's answer                          *)
(* ===================================================================== *)

#[local] Set Warnings "-register-all".

(** A parsed JSON text.  A number is kept as the text that [ToString]
    gives for it, which is all the script can observe of it. *)
Inductive json : Type :=
| JNull
| JBool (b : bool)
| JNum (repr : string)
| JStr (s : string)
| JArr (items : list json)
| JObj (fields : list (string * json)).

(** A JavaScript value met while the answer is taken apart: a JSON
    value, or [undefined] (a missing index or property). *)
Inductive jsval : Type :=
| Undefined
| Val (j : json).

(** The last binding of a key wins in [JSON.parse]. *)
Fixpoint field (k : string) (fields : list (string * json)) : option json :=
  match fields with
  | [] => None
  | (k', v) :: rest =>
      match field k rest with
      | Some v' => Some v'
      | None => if String.eqb k k' then Some v else None
      end
  end.

(** [v[0]]: [None] is the [TypeError] of reading a property of [null]
    or [undefined]. *)
Definition index0 (v : jsval) : option jsval :=
  match v with
  | Undefined => None
  | Val JNull => None
  | Val (JArr items) =>
      Some (match items with [] => Undefined | x :: _ => Val x end)
  | Val (JStr s) =>
      Some (match s with
            | EmptyString => Undefined
            | String c _ => Val (JStr (String c EmptyString))
            end)
  | Val (JObj fields) =>
      Some (match field "0" fields with Some x => Val x | None => Undefined end)
  | Val (JBool _) | Val (JNum _) => Some Undefined
  end.

(** [ToString] of an array element inside [join]: [null] and
    [undefined] give the empty string, a nested array is joined with
    commas. *)
Fixpoint toStringInJoin (j : json) : string :=
  match j with
  | JNull => EmptyString
  | JBool true => "true"
  | JBool false => "false"
  | JNum repr => repr
  | JStr s => s
  | JArr items => join "," (map toStringInJoin items)
  | JObj _ => "[object Object]"
  end.

Definition elementText (v : jsval) : string :=
  match v with
  | Undefined => EmptyString
  | Val j => toStringInJoin j
  end.

(** [items.map((item) => item[0])]: the first [TypeError] aborts. *)
Fixpoint mapIndex0 (items : list json) : option (list jsval) :=
  match items with
  | [] => Some []
  | item :: rest =>
      match index0 (Val item) with
      | None => None
      | Some v =>
          match mapIndex0 rest with
          | None => None
          | Some vs => Some (v :: vs)
          end
      end
  end.

(** Line 155: [result[0].map((item) => item[0]).join(" ")].  Only an
    array has a callable [map]; on anything else the call throws. *)
Definition extractText (result : json) : option string :=
  match index0 (Val result) with
  | Some (Val (JArr items)) =>
      match mapIndex0 items with
      | Some vs => Some (join " " (map elementText vs))
      | None => None
      end
  | _ => None
  end.

(** What the host hands back for the request of line 150. *)
Inductive response : Type :=
| NetworkError                (* [fetch] rejects *)
| NotJson                     (* [response.json()] rejects *)
| Json (result : json).

(** An exception raised inside the [try] block of [fetchTranslation]. *)
Definition fetchThrows (r : response) : bool :=
  match r with
  | NetworkError | NotJson => true
  | Json result => match extractText result with None => true | Some _ => false end
  end.

(** Lines 148-167: the value the promise of [fetchTranslation] resolves
    to, given the host's answer.  The promise never rejects. *)
Definition fetchTranslation (r : response) : string :=
  match r with
  | Json result =>
      match extractText result with
      | Some translatedText => sentenceCase translatedText
      | None => EmptyString                      (* catch *)
      end
  | NetworkError | NotJson => EmptyString        (* catch *)
  end.

(** The answer of the service: an array whose first element is the
    array of the segments, each segment an array that starts with the
    translated fragment; what follows the fragment in a segment, and
    the segments in the answer, is not read. *)
Definition segment (s : string * list json) : json :=
  JArr (JStr (fst s) :: snd s).

Definition serviceAnswer (segments : list (string * list json)) (more : list json) : json :=
  JArr (JArr (map segment segments) :: more).

(* ===================================================================== *)
(** * Part III.  The host document                                        *)
(* ===================================================================== *)

(** What the script reads and writes of an element. *)
Record element : Type := {
  eid : nat;                         (* identity of the node *)
  tagName : string;                  (* local name, lower case *)
  classList : list string;
  lang : option string;              (* the [lang] attribute *)
  styleDisplay : option string       (* [style.display] *)
}.

Inductive node : Type :=
| Text (data : string)
| Elem (e : element) (children : list node).

(** [node.innerText].  The host computes it from the rendered text; the
    model takes the text nodes below the node in document order, a [br]
    standing for a line break. *)
Fixpoint innerText (n : node) : string :=
  match n with
  | Text data => data
  | Elem e children =>
      if String.eqb (tagName e) "br" then String LF EmptyString
      else fold_right append EmptyString (map innerText children)
  end.

(** The element nodes of a tree in document order, each with the chain
    of its ancestors, nearest first. *)
Fixpoint subtrees (ancestors : list element) (n : node) : list (node * list element) :=
  match n with
  | Text _ => []
  | Elem e children =>
      (n, ancestors) :: flat_map (subtrees (e :: ancestors)) children
  end.

Definition elementOf (n : node) : option element :=
  match n with Elem e _ => Some e | Text _ => None end.

Definition nodeId (n : node) : option nat := eid <$> elementOf n.

Definition hasId (id : nat) (n : node) : bool :=
  match n with Elem e _ => Nat.eqb (eid e) id | Text _ => false end.

(** The selectors of the script. *)
Inductive compound : Type :=
| ByClass (c : string)     (* [.c] *)
| ByTag (t : string)       (* [t] *)
| ByLang (v : string).     (* [[lang='v']] *)

Inductive selector : Type :=
| Simple (c : compound)
| Descendant (a c : compound).   (* [a c] *)

Definition compoundText (c : compound) : string :=
  match c with
  | ByClass c => "." +:+ c
  | ByTag t => t
  | ByLang v => "[lang='" +:+ v +:+ "']"
  end.

Definition selectorText (s : selector) : string :=
  match s with
  | Simple c => compoundText c
  | Descendant a c => compoundText a +:+ " " +:+ compoundText c
  end.

Definition contains (c : string) (classes : list string) : bool :=
  existsb (String.eqb c) classes.

Definition matchesCompound (c : compound) (e : element) : bool :=
  match c with
  | ByClass c => contains c (classList e)
  | ByTag t => String.eqb (tagName e) t
  | ByLang v => match lang e with Some v' => String.eqb v' v | None => false end
  end.

(** [element.matches(selector)], the element given with its ancestors. *)
Definition matches (s : selector) (e : element) (ancestors : list element) : bool :=
  match s with
  | Simple c => matchesCompound c e
  | Descendant a c => matchesCompound c e && existsb (matchesCompound a) ancestors
  end.

Definition matchesAt (s : selector) (p : node * list element) : bool :=
  match elementOf (fst p) with
  | Some e => matches s e (snd p)
  | None => false
  end.

(** [document.querySelectorAll(selector)]: a static list. *)
Definition querySelectorAll (s : selector) (doc : node) : list element :=
  omap (fun p => elementOf (fst p)) (List.filter (matchesAt s) (subtrees [] doc)).

(** [document.querySelector(selector)]: the first match in document
    order, or [null]. *)
Definition querySelector (s : selector) (doc : node) : option element :=
  head (querySelectorAll s doc).

(** The node of a given identity in the document, with its ancestors. *)
Definition locate (id : nat) (doc : node) : option (node * list element) :=
  head (List.filter (fun p => hasId id (fst p)) (subtrees [] doc)).

(** [element.closest(selector)]: the element itself or its nearest
    ancestor that matches. *)
Fixpoint closestIn (s : selector) (chain : list element) : option element :=
  match chain with
  | [] => None
  | e :: ancestors =>
      if matches s e ancestors then Some e else closestIn s ancestors
  end.

Definition closest (s : selector) (e : element) (ancestors : list element) : option element :=
  closestIn s (e :: ancestors).

(** [parent.querySelector(selector)]: the first match among the proper
    descendants of [parent], the selector read against the whole
    document. *)
Definition querySelectorUnder (s : selector) (parent : node) (ancestors : list element) : option element :=
  match parent with
  | Text _ => None
  | Elem e children =>
      head (omap (fun p => elementOf (fst p))
              (List.filter (matchesAt s)
                 (flat_map (subtrees (e :: ancestors)) children)))
  end.

(** ** Patches of the document *)

(** The script's writes to the document, as a trace. *)
Inductive domWrite : Type :=
| CreateElement (id : nat) (tag : string)
| SetClassName (id : nat) (className : string)
| InsertBefore (newId refId : nat)
| SetInnerText (id : nat) (text : string)
| SetStyleDisplay (id : nat) (value : string)
| SetDataTranslated (id : nat) (value : string).

(** Apply [f] to the element node of identity [id]. *)
Fixpoint patch (id : nat) (f : element -> list node -> node) (n : node) : node :=
  match n with
  | Text data => Text data
  | Elem e children =>
      if Nat.eqb (eid e) id then f e children
      else Elem e (map (patch id f) children)
  end.

Fixpoint insertInto (new : node) (refId : nat) (children : list node) : list node :=
  match children with
  | [] => []
  | c :: rest =>
      if hasId refId c then new :: c :: rest
      else c :: insertInto new refId rest
  end.

(** [ref.parentNode.insertBefore(new, ref)]. *)
Fixpoint insertBefore (new : node) (refId : nat) (n : node) : node :=
  match n with
  | Text data => Text data
  | Elem e children =>
      Elem e (insertInto new refId (map (insertBefore new refId) children))
  end.

(** [el.innerText = text]: the children give way to one text node. *)
Definition setInnerText (id : nat) (text : string) : node -> node :=
  patch id (fun e _ => Elem e [Text text]).

Definition withDisplay (v : string) (e : element) : element :=
  {| eid := eid e; tagName := tagName e; classList := classList e;
     lang := lang e; styleDisplay := Some v |}.

(** [el.style.display = v] *)
Definition setStyleDisplay (id : nat) (v : string) : node -> node :=
  patch id (fun e children => Elem (withDisplay v e) children).

(** [document.createElement(tag)] followed by [el.className = c]. *)
Definition createElement (id : nat) (tag className : string) : node :=
  Elem {| eid := id; tagName := tag; classList := [className];
          lang := None; styleDisplay := None |} [].

(** An identity no element of the document has. *)
Definition freshId (doc : node) : nat :=
  S (fold_right Nat.max 0 (omap (fun p => nodeId (fst p)) (subtrees [] doc))).

(* ===================================================================== *)
(** * Part IV.  The state of the script                                   *)
(* ===================================================================== *)

(** What a [MutationObserver] is registered for. *)
Inductive observation : Type :=
| ChildListSubtree (target : option nat)   (* [None]: the document *)
| ClassAttribute (target : nat).

Inductive callback : Type :=
| WaiterCallback (p : nat)     (* lines 15-21, for the promise [p] *)
| CaptionCallback              (* lines 51-67 *)
| PlayPauseCallback            (* [checkAndShowSubtitles], line 75 *)
| UrlCallback.                 (* lines 180-185 *)

Record mutationObserver : Type := {
  callbackOf : callback;
  observing : option observation   (* [None]: disconnected *)
}.

Inductive promiseState : Type :=
| Pending
| Fulfilled (e : element)
| Rejected (message : string).

(** The two [await]s of [initializeExtension]. *)
Inductive continuation : Type :=
| AwaitContainer     (* line 48 *)
| AwaitPlayPause.    (* line 74 *)

(** A promise made by [waitForElement]. *)
Record waiter : Type := {
  selectorOf : selector;
  status : promiseState;
  awaitedBy : continuation
}.

Inductive timerAction : Type :=
| WaiterTimeout (p o : nat)   (* lines 28-31, promise [p], observer [o] *)
| Reinitialize                (* [setTimeout(initializeExtension, 500)] *)
| Retry.                      (* lines 86-89 *)

Inductive consoleEntry : Type :=
| Initialized                        (* line 82 *)
| InitializationFailed (message : string)   (* line 84 *)
| NoPlayPauseButton (message : string)      (* line 79 *)
| Retrying.                          (* line 87 *)

Record state : Type := {
  (* the host: the tree, the address, and [dataset.translated] of the
     nodes, which stays with a node whatever happens to the tree *)
  document : node;
  location : string;
  dataTranslated : gmap nat string;
  (* the globals of lines 2-4 *)
  translationCache : gmap string (option string);
  observers : list nat;
  currentUrl : string;
  (* the objects the script has created; an observer and a promise are
     known by their index *)
  mutationObservers : list mutationObserver;
  promises : list waiter;
  timers : list (N * timerAction);
  jobs : list (continuation * promiseState);
  pendingRequests : list string;
  domContentLoadedListener : bool;
  popstateListener : bool;
  (* traces: the requests sent, the writes to the document, the console *)
  requests : list string;
  domWrites : list domWrite;
  console : list consoleEntry
}.

(** Field updates: [on_x f st] is [st] with [f] applied to the field [x]. *)

Definition on_document (f : node -> node) (st : state) : state :=
  {| document := f (document st); location := location st;
     dataTranslated := dataTranslated st;
     translationCache := translationCache st; observers := observers st;
     currentUrl := currentUrl st; mutationObservers := mutationObservers st;
     promises := promises st; timers := timers st; jobs := jobs st;
     pendingRequests := pendingRequests st;
     domContentLoadedListener := domContentLoadedListener st;
     popstateListener := popstateListener st; requests := requests st;
     domWrites := domWrites st; console := console st |}.

Definition on_location (f : string -> string) (st : state) : state :=
  {| document := document st; location := f (location st);
     dataTranslated := dataTranslated st;
     translationCache := translationCache st; observers := observers st;
     currentUrl := currentUrl st; mutationObservers := mutationObservers st;
     promises := promises st; timers := timers st; jobs := jobs st;
     pendingRequests := pendingRequests st;
     domContentLoadedListener := domContentLoadedListener st;
     popstateListener := popstateListener st; requests := requests st;
     domWrites := domWrites st; console := console st |}.

Definition on_dataTranslated (f : (gmap nat string) -> (gmap nat string)) (st : state) : state :=
  {| document := document st; location := location st;
     dataTranslated := f (dataTranslated st);
     translationCache := translationCache st; observers := observers st;
     currentUrl := currentUrl st; mutationObservers := mutationObservers st;
     promises := promises st; timers := timers st; jobs := jobs st;
     pendingRequests := pendingRequests st;
     domContentLoadedListener := domContentLoadedListener st;
     popstateListener := popstateListener st; requests := requests st;
     domWrites := domWrites st; console := console st |}.

Definition on_translationCache (f : (gmap string (option string)) -> (gmap string (option string))) (st : state) : state :=
  {| document := document st; location := location st;
     dataTranslated := dataTranslated st;
     translationCache := f (translationCache st); observers := observers st;
     currentUrl := currentUrl st; mutationObservers := mutationObservers st;
     promises := promises st; timers := timers st; jobs := jobs st;
     pendingRequests := pendingRequests st;
     domContentLoadedListener := domContentLoadedListener st;
     popstateListener := popstateListener st; requests := requests st;
     domWrites := domWrites st; console := console st |}.

Definition on_observers (f : (list nat) -> (list nat)) (st : state) : state :=
  {| document := document st; location := location st;
     dataTranslated := dataTranslated st;
     translationCache := translationCache st; observers := f (observers st);
     currentUrl := currentUrl st; mutationObservers := mutationObservers st;
     promises := promises st; timers := timers st; jobs := jobs st;
     pendingRequests := pendingRequests st;
     domContentLoadedListener := domContentLoadedListener st;
     popstateListener := popstateListener st; requests := requests st;
     domWrites := domWrites st; console := console st |}.

Definition on_currentUrl (f : string -> string) (st : state) : state :=
  {| document := document st; location := location st;
     dataTranslated := dataTranslated st;
     translationCache := translationCache st; observers := observers st;
     currentUrl := f (currentUrl st);
     mutationObservers := mutationObservers st; promises := promises st;
     timers := timers st; jobs := jobs st;
     pendingRequests := pendingRequests st;
     domContentLoadedListener := domContentLoadedListener st;
     popstateListener := popstateListener st; requests := requests st;
     domWrites := domWrites st; console := console st |}.

Definition on_mutationObservers (f : (list mutationObserver) -> (list mutationObserver)) (st : state) : state :=
  {| document := document st; location := location st;
     dataTranslated := dataTranslated st;
     translationCache := translationCache st; observers := observers st;
     currentUrl := currentUrl st;
     mutationObservers := f (mutationObservers st); promises := promises st;
     timers := timers st; jobs := jobs st;
     pendingRequests := pendingRequests st;
     domContentLoadedListener := domContentLoadedListener st;
     popstateListener := popstateListener st; requests := requests st;
     domWrites := domWrites st; console := console st |}.

Definition on_promises (f : (list waiter) -> (list waiter)) (st : state) : state :=
  {| document := document st; location := location st;
     dataTranslated := dataTranslated st;
     translationCache := translationCache st; observers := observers st;
     currentUrl := currentUrl st; mutationObservers := mutationObservers st;
     promises := f (promises st); timers := timers st; jobs := jobs st;
     pendingRequests := pendingRequests st;
     domContentLoadedListener := domContentLoadedListener st;
     popstateListener := popstateListener st; requests := requests st;
     domWrites := domWrites st; console := console st |}.

Definition on_timers (f : (list (N * timerAction)) -> (list (N * timerAction))) (st : state) : state :=
  {| document := document st; location := location st;
     dataTranslated := dataTranslated st;
     translationCache := translationCache st; observers := observers st;
     currentUrl := currentUrl st; mutationObservers := mutationObservers st;
     promises := promises st; timers := f (timers st); jobs := jobs st;
     pendingRequests := pendingRequests st;
     domContentLoadedListener := domContentLoadedListener st;
     popstateListener := popstateListener st; requests := requests st;
     domWrites := domWrites st; console := console st |}.

Definition on_jobs (f : (list (continuation * promiseState)) -> (list (continuation * promiseState))) (st : state) : state :=
  {| document := document st; location := location st;
     dataTranslated := dataTranslated st;
     translationCache := translationCache st; observers := observers st;
     currentUrl := currentUrl st; mutationObservers := mutationObservers st;
     promises := promises st; timers := timers st; jobs := f (jobs st);
     pendingRequests := pendingRequests st;
     domContentLoadedListener := domContentLoadedListener st;
     popstateListener := popstateListener st; requests := requests st;
     domWrites := domWrites st; console := console st |}.

Definition on_pendingRequests (f : (list string) -> (list string)) (st : state) : state :=
  {| document := document st; location := location st;
     dataTranslated := dataTranslated st;
     translationCache := translationCache st; observers := observers st;
     currentUrl := currentUrl st; mutationObservers := mutationObservers st;
     promises := promises st; timers := timers st; jobs := jobs st;
     pendingRequests := f (pendingRequests st);
     domContentLoadedListener := domContentLoadedListener st;
     popstateListener := popstateListener st; requests := requests st;
     domWrites := domWrites st; console := console st |}.

Definition on_domContentLoadedListener (f : bool -> bool) (st : state) : state :=
  {| document := document st; location := location st;
     dataTranslated := dataTranslated st;
     translationCache := translationCache st; observers := observers st;
     currentUrl := currentUrl st; mutationObservers := mutationObservers st;
     promises := promises st; timers := timers st; jobs := jobs st;
     pendingRequests := pendingRequests st;
     domContentLoadedListener := f (domContentLoadedListener st);
     popstateListener := popstateListener st; requests := requests st;
     domWrites := domWrites st; console := console st |}.

Definition on_popstateListener (f : bool -> bool) (st : state) : state :=
  {| document := document st; location := location st;
     dataTranslated := dataTranslated st;
     translationCache := translationCache st; observers := observers st;
     currentUrl := currentUrl st; mutationObservers := mutationObservers st;
     promises := promises st; timers := timers st; jobs := jobs st;
     pendingRequests := pendingRequests st;
     domContentLoadedListener := domContentLoadedListener st;
     popstateListener := f (popstateListener st); requests := requests st;
     domWrites := domWrites st; console := console st |}.

Definition on_requests (f : (list string) -> (list string)) (st : state) : state :=
  {| document := document st; location := location st;
     dataTranslated := dataTranslated st;
     translationCache := translationCache st; observers := observers st;
     currentUrl := currentUrl st; mutationObservers := mutationObservers st;
     promises := promises st; timers := timers st; jobs := jobs st;
     pendingRequests := pendingRequests st;
     domContentLoadedListener := domContentLoadedListener st;
     popstateListener := popstateListener st; requests := f (requests st);
     domWrites := domWrites st; console := console st |}.

Definition on_domWrites (f : (list domWrite) -> (list domWrite)) (st : state) : state :=
  {| document := document st; location := location st;
     dataTranslated := dataTranslated st;
     translationCache := translationCache st; observers := observers st;
     currentUrl := currentUrl st; mutationObservers := mutationObservers st;
     promises := promises st; timers := timers st; jobs := jobs st;
     pendingRequests := pendingRequests st;
     domContentLoadedListener := domContentLoadedListener st;
     popstateListener := popstateListener st; requests := requests st;
     domWrites := f (domWrites st); console := console st |}.

Definition on_console (f : (list consoleEntry) -> (list consoleEntry)) (st : state) : state :=
  {| document := document st; location := location st;
     dataTranslated := dataTranslated st;
     translationCache := translationCache st; observers := observers st;
     currentUrl := currentUrl st; mutationObservers := mutationObservers st;
     promises := promises st; timers := timers st; jobs := jobs st;
     pendingRequests := pendingRequests st;
     domContentLoadedListener := domContentLoadedListener st;
     popstateListener := popstateListener st; requests := requests st;
     domWrites := domWrites st; console := f (console st) |}.

(* ===================================================================== *)
(** * Part V.  The functions of the script                                *)
(* ===================================================================== *)

Definition SEL_CONTAINER : selector := Simple (ByClass "ardplayer-untertitel").
Definition SEL_PLAYPAUSE : selector := Simple (ByClass "ardplayer-button-playpause").
Definition SEL_CAPTION : selector := Descendant (ByClass "ardplayer-untertitel") (ByTag "p").
Definition SEL_GERMAN : selector := Simple (ByLang "de-DE").
Definition SEL_TRANSLATED : selector := Simple (ByClass "translated-subtitle").
Definition PAUSED_MARKER : string := "ardplayer-icon-play".

(** JavaScript truthiness of a string that may be [null] or [undefined]. *)
Definition truthy (v : option string) : bool :=
  match v with
  | Some s => negb (isEmpty s)
  | None => false
  end.

(** [new MutationObserver(cb)] followed by [observe]: the new observer's
    index and the state that holds it. *)
Definition observe (cb : callback) (what : observation) (st : state) : nat * state :=
  (List.length (mutationObservers st),
   on_mutationObservers
     (fun l => l ++ [{| callbackOf := cb; observing := Some what |}]) st).

(** [obs.disconnect()] *)
Definition disconnect (o : nat) (st : state) : state :=
  on_mutationObservers
    (alter (fun m => {| callbackOf := callbackOf m; observing := None |}) o) st.

Definition push (o : nat) : state -> state := on_observers (fun l => l ++ [o]).

Definition setTimeout (action : timerAction) (delay : N) : state -> state :=
  on_timers (fun l => l ++ [(delay, action)]).

Definition log (entry : consoleEntry) : state -> state :=
  on_console (fun l => l ++ [entry]).

Definition write (w : domWrite) : state -> state :=
  on_domWrites (fun l => l ++ [w]).

(** [resolve(v)] and [reject(e)] on the promise [p]: a settled promise
    stays as it is; settling a pending one schedules the code that
    awaits it. *)
Definition settle (p : nat) (result : promiseState) (st : state) : state :=
  match promises st !! p with
  | Some w =>
      match status w with
      | Pending =>
          on_jobs (fun l => l ++ [(awaitedBy w, result)])
            (on_promises
               (fun l => <[p := {| selectorOf := selectorOf w; status := result;
                                   awaitedBy := awaitedBy w |}]> l) st)
      | _ => st
      end
  | None => st
  end.

(** Lines 7-33, [await waitForElement(selector, timeout)] with the code
    after the [await] given as [k]. *)
Definition waitForElement (sel : selector) (timeout : N) (k : continuation) (st : state) : state :=
  let p := List.length (promises st) in
  let st := on_promises
              (fun l => l ++ [{| selectorOf := sel; status := Pending; awaitedBy := k |}]) st in
  match querySelector sel (document st) with
  | Some e => settle p (Fulfilled e) st
  | None =>
      let (o, st) := observe (WaiterCallback p) (ChildListSubtree None) st in
      setTimeout (WaiterTimeout p o) timeout st
  end.

(** Lines 15-21: the observer [o] of the promise [p] is told of a batch
    of mutations. *)
Definition waiterCallback (p o : nat) (st : state) : state :=
  match promises st !! p with
  | Some w =>
      match querySelector (selectorOf w) (document st) with
      | Some e => settle p (Fulfilled e) (disconnect o st)
      | None => st
      end
  | None => st
  end.

Definition timeoutMessage (sel : selector) : string :=
  "Timeout waiting for element: " +:+ selectorText sel.

(** Lines 28-31: the timer of the promise [p] fires. *)
Definition waiterTimeout (p o : nat) (st : state) : state :=
  match promises st !! p with
  | Some w => settle p (Rejected (timeoutMessage (selectorOf w))) (disconnect o st)
  | None => st
  end.

(** Lines 36-39. *)
Definition cleanup (st : state) : state :=
  on_observers (fun _ => []) (fold_left (fun s o => disconnect o s) (observers st) st).

(** Lines 42-48: [initializeExtension] up to its first [await]. *)
Definition initializeExtension (st : state) : state :=
  waitForElement SEL_CONTAINER 10000%N AwaitContainer (cleanup st).

(** Lines 50-90: [initializeExtension] after an [await], the awaited
    promise settled with [result]. *)
Definition resume (k : continuation) (result : promiseState) (st : state) : state :=
  match k, result with
  | AwaitContainer, Fulfilled subtitleContainer =>
      let (o, st) := observe CaptionCallback
                       (ChildListSubtree (Some (eid subtitleContainer))) st in
      waitForElement SEL_PLAYPAUSE 5000%N AwaitPlayPause (push o st)
  | AwaitContainer, Rejected message =>
      setTimeout Retry 2000%N (log (InitializationFailed message) st)
  | AwaitPlayPause, Fulfilled playPauseButton =>
      let (o, st) := observe PlayPauseCallback
                       (ClassAttribute (eid playPauseButton)) st in
      log Initialized (push o st)
  | AwaitPlayPause, Rejected message =>
      log Initialized (log (NoPlayPauseButton message) st)
  | _, Pending => st
  end.

(** The caption text of a node: [node.innerText.trim().replace(/\n/g, ' ')]. *)
Definition captionText (n : node) : string :=
  replaceNewlines (trim (innerText n)).

(** Lines 94-107, up to the dispatch of the request; the request is
    pending until the host answers it. *)
Definition storeSubtitle (originalP : node) (st : state) : state :=
  let text := captionText originalP in
  if isEmpty text then st
  else
    match translationCache st !! text with
    | None =>
        let st := on_translationCache (<[text := None]>) st in
        on_pendingRequests (fun l => l ++ [text])
          (on_requests (fun l => l ++ [text]) st)
    | Some _ => st
    end.

(** One iteration of the loop of lines 126-142, for the paragraph of
    identity [id] taken from the static list of line 123.  A paragraph
    that is no longer in the document is skipped. *)
Definition showOne (id : nat) (st : state) : state :=
  match locate id (document st) with
  | Some (originalP, parentNode :: ancestors) =>
      let text := captionText originalP in
      match translationCache st !! text with
      | Some (Some translatedText) =>
          if isEmpty translatedText then st
          else
            match locate (eid parentNode) (document st) with
            | Some (parent, _) =>
                let (translatedP, st) :=
                  match querySelectorUnder SEL_TRANSLATED parent ancestors with
                  | Some t => (eid t, st)
                  | None =>
                      let t := freshId (document st) in
                      (t,
                       write (InsertBefore t id)
                         (write (SetClassName t "translated-subtitle")
                            (write (CreateElement t "p")
                               (on_document
                                  (insertBefore
                                     (createElement t "p" "translated-subtitle") id)
                                  st))))
                  end in
                write (SetStyleDisplay translatedP "block")
                  (on_document (setStyleDisplay translatedP "block")
                     (write (SetInnerText translatedP translatedText)
                        (on_document (setInnerText translatedP translatedText) st)))
            | None => st
            end
      | _ => st
      end
  | _ => st
  end.

(** Lines 121-146. *)
Definition showStoredSubtitle (st : state) : state :=
  let subtitleElements := querySelectorAll SEL_CAPTION (document st) in
  fold_left (fun s originalP => showOne (eid originalP) s) subtitleElements st.

(** Lines 109-119. *)
Definition checkAndShowSubtitles (st : state) : state :=
  match querySelector SEL_PLAYPAUSE (document st) with
  | Some playPauseButton =>
      if contains PAUSED_MARKER (classList playPauseButton)
      then showStoredSubtitle st
      else st
  | None => st
  end.

(** Lines 100-105: the promise of [fetchTranslation(text)] has resolved
    to [translatedText]. *)
Definition onTranslation (text translatedText : string) (st : state) : state :=
  if isEmpty translatedText then st
  else checkAndShowSubtitles
         (on_translationCache (<[text := Some translatedText]>) st).

(** Lines 55-63, for one added node.  A node that has left the document
    before the callback runs has no caption container above it and is
    passed over. *)
Definition onAddedNode (id : nat) (st : state) : state :=
  match locate id (document st) with
  | Some (Elem e children, ancestors) =>
      if matches SEL_CAPTION e ancestors then
        match closest SEL_GERMAN e ancestors with
        | None => st
        | Some _ =>
            if truthy (dataTranslated st !! id) then st
            else
              storeSubtitle (Elem e children)
                (write (SetDataTranslated id "true")
                   (on_dataTranslated (<[id := "true"]>) st))
        end
      else st
  | _ => st
  end.

(** Lines 51-67: the caption observer is told of the added nodes. *)
Definition captionCallback (added : list nat) (st : state) : state :=
  fold_left (fun s id => onAddedNode id s) added st.

(** Lines 172-177 and 180-185: both navigation handlers have this body. *)
Definition onNavigation (st : state) : state :=
  if String.eqb (location st) (currentUrl st) then st
  else setTimeout Reinitialize 500%N (on_currentUrl (fun _ => location st) st).

(** Lines 170-189. *)
Definition setupNavigationDetection (st : state) : state :=
  let st := on_popstateListener (fun _ => true) st in
  let (urlObserver, st) := observe UrlCallback (ChildListSubtree None) st in
  push urlObserver st.

(* ===================================================================== *)
(** * Part VI.  The event loop                                            *)
(* ===================================================================== *)

Inductive mutationKind : Type :=
| ChildList        (* the children of [site] changed *)
| ClassAttr.       (* the [class] attribute of [site] changed *)

(** What the host does.  A record of the script's own patches reaches
    the observers as a [Mutation] that leaves the document as it is. *)
Inductive event : Type :=
| Mutation (doc : node) (kind : mutationKind) (site : nat) (added : list nat)
      (* the document has become [doc]; the observers concerned are told *)
| LocationChange (url : string)     (* [history.pushState]: no event *)
| Popstate (url : string)           (* back or forward in the history *)
| DOMContentLoaded
| TimerFires (k : nat)              (* the [k]-th pending timer *)
| RunJob                            (* the first pending promise job *)
| Response (k : nat) (r : response).  (* the [k]-th pending request is answered *)

(** Whether a mutation is reported to an observer registered for [what]. *)
Definition concerns (what : observation) (kind : mutationKind) (site : nat) (doc : node) : bool :=
  match what, kind with
  | ChildListSubtree None, ChildList => true
  | ChildListSubtree (Some target), ChildList =>
      match locate site doc with
      | Some (_, ancestors) =>
          Nat.eqb site target || existsb (fun a => Nat.eqb (eid a) target) ancestors
      | None => false
      end
  | ClassAttribute target, ClassAttr => Nat.eqb site target
  | _, _ => false
  end.

Definition runCallback (cb : callback) (o : nat) (added : list nat) (st : state) : state :=
  match cb with
  | WaiterCallback p => waiterCallback p o st
  | CaptionCallback => captionCallback added st
  | PlayPauseCallback => checkAndShowSubtitles st
  | UrlCallback => onNavigation st
  end.

(** The observer [o] is told of a mutation, if it is connected and the
    mutation concerns it. *)
Definition deliver (kind : mutationKind) (site : nat) (added : list nat) (o : nat) (st : state) : state :=
  match mutationObservers st !! o with
  | Some m =>
      match observing m with
      | Some what =>
          if concerns what kind site (document st)
          then runCallback (callbackOf m) o added st
          else st
      | None => st
      end
  | None => st
  end.

(** The observers are told in the order of their creation. *)
Definition notify (kind : mutationKind) (site : nat) (added : list nat) (st : state) : state :=
  fold_left (fun s o => deliver kind site added o s)
    (seq 0 (List.length (mutationObservers st))) st.

Definition fire (action : timerAction) (st : state) : state :=
  match action with
  | WaiterTimeout p o => waiterTimeout p o st
  | Reinitialize => initializeExtension st
  | Retry => initializeExtension (log Retrying st)
  end.

(** One turn of the event loop; [None] when the host cannot do [ev] in
    [st].  Promise jobs run before anything else. *)
Definition step (ev : event) (st : state) : option state :=
  match ev, jobs st with
  | RunJob, (k, result) :: rest => Some (resume k result (on_jobs (fun _ => rest) st))
  | RunJob, [] => None
  | _, _ :: _ => None
  | Mutation doc kind site added, [] =>
      Some (notify kind site added (on_document (fun _ => doc) st))
  | LocationChange url, [] => Some (on_location (fun _ => url) st)
  | Popstate url, [] =>
      let st := on_location (fun _ => url) st in
      Some (if popstateListener st then onNavigation st else st)
  | DOMContentLoaded, [] =>
      Some (if domContentLoadedListener st then initializeExtension st else st)
  | TimerFires k, [] =>
      match timers st !! k with
      | Some (_, action) => Some (fire action (on_timers (delete k) st))
      | None => None
      end
  | Response k r, [] =>
      match pendingRequests st !! k with
      | Some text =>
          Some (onTranslation text (fetchTranslation r)
                  (on_pendingRequests (delete k) st))
      | None => None
      end
  end.

Fixpoint run (evs : list event) (st : state) : option state :=
  match evs with
  | [] => Some st
  | ev :: rest =>
      match step ev st with
      | Some st' => run rest st'
      | None => None
      end
  end.

(** The page before the script runs. *)
Definition page (doc : node) (url : string) : state :=
  {| document := doc; location := url; dataTranslated := ∅;
     translationCache := ∅; observers := []; currentUrl := url;
     mutationObservers := []; promises := []; timers := []; jobs := [];
     pendingRequests := []; domContentLoadedListener := false;
     popstateListener := false;
     requests := []; domWrites := []; console := [] |}.

(** Lines 191-199: the script is evaluated, the document still loading
    or not. *)
Definition main (loading : bool) (st : state) : state :=
  let st := if loading
            then on_domContentLoadedListener (fun _ => true) st
            else initializeExtension st in
  setupNavigationDetection st.

Definition start (loading : bool) (doc : node) (url : string) : state :=
  main loading (page doc url).

(** The states the script can be in. *)
Definition reachable (st : state) : Prop :=
  exists loading doc url evs, run evs (start loading doc url) = Some st.

(* ===================================================================== *)
(** * Part VII.  Notions the properties are stated with                   *)
(* ===================================================================== *)

(** The cache entry under the caption text of the paragraph [id]:
    [None] is Absent, [Some None] is Pending (the placeholder [null]),
    [Some (Some t)] is Ready. *)
Definition lookupCaption (id : nat) (st : state) : option (option string) :=
  match locate id (document st) with
  | Some (originalP, _) => translationCache st !! captionText originalP
  | None => None
  end.

(** The element that line 133 finds for the paragraph [id], as a node. *)
Definition translatedSibling (id : nat) (doc : node) : option node :=
  match locate id doc with
  | Some (_, parentNode :: ancestors) =>
      match locate (eid parentNode) doc with
      | Some (parent, _) =>
          match querySelectorUnder SEL_TRANSLATED parent ancestors with
          | Some t => fst <$> locate (eid t) doc
          | None => None
          end
      | None => None
      end
  | _ => None
  end.

(** What the script knows of the translations: the cache, the requests
    it has sent and the ones not answered yet. *)
Definition translations (st : state) : gmap string (option string) * list string * list string :=
  (translationCache st, requests st, pendingRequests st).

(** The cache has an entry exactly for the texts a request was sent
    for, no text was sent twice, and the entry of a text whose request
    is not answered yet is the placeholder. *)
Definition cacheInvariant (st : state) : Prop :=
  NoDup (requests st)
  /\ (forall text, text ∈ requests st <-> is_Some (translationCache st !! text))
  /\ sublist (pendingRequests st) (requests st)
  /\ (forall text, text ∈ pendingRequests st -> translationCache st !! text = Some None).

(** From [st] to [st'] no entry is lost and no Ready entry changes. *)
Definition cacheGrows (st st' : state) : Prop :=
  (forall text, is_Some (translationCache st !! text) ->
                is_Some (translationCache st' !! text))
  /\ (forall text t, translationCache st !! text = Some (Some t) ->
                     translationCache st' !! text = Some (Some t)).

(** [h] keeps the invariant of the cache, loses no entry and changes no
    Ready entry. *)
Definition keeps (h : state -> state) : Prop :=
  forall st, cacheInvariant st -> cacheInvariant (h st) /\ cacheGrows st (h st).

(** The state of the promise [p], and what the observer [o] is
    registered for ([None]: nothing, it is released). *)
Definition statusOf (p : nat) (st : state) : option promiseState :=
  status <$> promises st !! p.

Definition observingOf (o : nat) (st : state) : option observation :=
  (mutationObservers st !! o) ≫= observing.

(** Following the specification of the element waiter: what a wait for
    [sel] that found nothing when it was called has come to after the
    events [evs], its timer being the [timer]-th pending one.  The first batch of mutations of the
    tree that leaves a match in the document resolves it with the first
    match; its timer, if it fires before, rejects it with the timeout
    error. *)
Fixpoint waitOutcome (sel : selector) (timer : nat) (evs : list event) : promiseState :=
  match evs with
  | [] => Pending
  | Mutation doc ChildList _ _ :: rest =>
      match querySelector sel doc with
      | Some e => Fulfilled e
      | None => waitOutcome sel timer rest
      end
  | TimerFires k :: rest =>
      if Nat.eqb k timer then Rejected (timeoutMessage sel)
      else waitOutcome sel (if Nat.ltb k timer then pred timer else timer) rest
  | _ :: rest => waitOutcome sel timer rest
  end.

(** The references between the objects of the script are in range, and
    the observer of the play/pause button watches an attribute. *)
Definition wellFormed (st : state) : Prop :=
  (forall o m p, mutationObservers st !! o = Some m ->
                 callbackOf m = WaiterCallback p ->
                 p < List.length (promises st))
  /\ (forall k t p o, timers st !! k = Some (t, WaiterTimeout p o) ->
                      p < List.length (promises st)
                      /\ o < List.length (mutationObservers st))
  /\ (forall o, o ∈ observers st -> o < List.length (mutationObservers st))
  /\ (forall o m t, mutationObservers st !! o = Some m ->
                    callbackOf m = PlayPauseCallback ->
                    observing m <> Some (ChildListSubtree t)).

(** The wait of the promise [p] for [sel], made with the observer [o],
    has come to [r]: while it is pending, the observer is connected and
    the timer is the [i]-th pending one, and nothing else refers to the
    promise or to the observer; once it is settled, the observer is
    released. *)
Definition tracks (sel : selector) (timeout : N) (k : continuation) (p o : nat)
    (r : promiseState) (i : nat) (st : state) : Prop :=
  promises st !! p = Some {| selectorOf := sel; status := r; awaitedBy := k |}
  /\ match r with
     | Pending =>
         mutationObservers st !! o
         = Some {| callbackOf := WaiterCallback p;
                   observing := Some (ChildListSubtree None) |}
         /\ timers st !! i = Some (timeout, WaiterTimeout p o)
         /\ (o ∉ observers st)
         /\ (forall o' m, mutationObservers st !! o' = Some m ->
                          callbackOf m = WaiterCallback p -> o' = o)
         /\ (forall k' t p' o', timers st !! k' = Some (t, WaiterTimeout p' o') ->
                                p' = p \/ o' = o -> k' = i)
     | _ =>
         mutationObservers st !! o
         = Some {| callbackOf := WaiterCallback p; observing := None |}
     end.

(** The part of the state the waits live in. *)
Definition control (st : state)
  : list waiter * list mutationObserver * list (N * timerAction) * list nat :=
  (promises st, mutationObservers st, timers st, observers st).

(** The index of the wait's timer after an event. *)
Definition timerAfter (ev : event) (i : nat) : nat :=
  match ev with
  | TimerFires k' => if Nat.ltb k' i then pred i else i
  | _ => i
  end.

(** A settled promise. *)
Definition settledAs (p : nat) (w : waiter) (st : state) : Prop :=
  promises st !! p = Some w /\ status w <> Pending.

(** One round of the retry loop, [i] being the number of the timers
    that were pending when the initialization began: the wait for the
    caption container times out, the code after the [await] runs (the
    [catch] block), and the timer it has set fires. *)
Definition attemptFails (i : nat) : list event := [TimerFires i; RunJob].

Definition retryRound (i : nat) : list event := attemptFails i ++ [TimerFires i].

Module Sample.

Definition el (id : nat) (tag : string) (classes : list string) (lg : option string) : element :=
  {| eid := id; tagName := tag; classList := classes; lang := lg;
     styleDisplay := None |}.

Definition paragraph (id : nat) (text : string) : node :=
  Elem (el id "p" [] None) [Text text].

(** A player page: the play/pause button with the classes [button], and
    the caption container with the nodes [captions]. *)
Definition player (button : list string) (captions : list node) : node :=
  Elem (el 0 "html" [] None)
    [Elem (el 1 "body" [] None)
       [Elem (el 2 "button" ("ardplayer-button-playpause" :: button) None) [];
        Elem (el 3 "div" ["ardplayer-untertitel"] (Some "de-DE")) captions]].

Definition twoLines : list node :=
  [paragraph 5 "Guten Abend"; paragraph 6 "Das Wetter"].

Definition translated (id : nat) (text : string) : node :=
  Elem (el id "p" ["translated-subtitle"] None) [Text text].

Definition url : string := "https://www.ardmediathek.de/video/1".

(** The first line is translated, the request for the second is still
    pending. *)
Definition oneReady : gmap string (option string) :=
  <["Guten Abend" := Some "Good evening"]> (<["Das Wetter" := None]> ∅).

Definition withCache (cache : gmap string (option string)) (doc : node) : state :=
  on_translationCache (fun _ => cache) (page doc url).

(** A session on a paused player: the script starts on the loaded page,
    both waits end at once, and the host reports the two caption lines,
    the first of them twice. *)
Definition captionsReported : list event :=
  [RunJob; RunJob;
   Mutation (player [PAUSED_MARKER] twoLines) ChildList 3 [5; 6; 5]].

(** The state after the events [evs], when the host can do them. *)
Definition after (evs : list event) (st : state) : state :=
  match run evs st with
  | Some st' => st'
  | None => st
  end.

(** A page without a player. *)
Definition noPlayer : node :=
  Elem (el 0 "html" [] None) [Elem (el 1 "body" [] None) [paragraph 2 "ARD Mediathek"]].

(** A player that has captions and no play/pause button. *)
Definition noButton : node :=
  Elem (el 0 "html" [] None)
    [Elem (el 1 "body" [] None)
       [Elem (el 3 "div" ["ardplayer-untertitel"] (Some "de-DE")) twoLines]].

Definition url2 : string := "https://www.ardmediathek.de/video/2".
Definition url3 : string := "https://www.ardmediathek.de/video/3".

(** The application goes to a second video and the document changes;
    the script starts a new session. *)
Definition firstNavigation : list event :=
  [RunJob; RunJob;
   LocationChange url2;
   Mutation (player [] twoLines) ChildList 1 [];
   TimerFires 0; RunJob; RunJob].

(** Then it goes to a third video in the same way. *)
Definition secondNavigation : list event :=
  [LocationChange url3;
   Mutation (player [] twoLines) ChildList 1 []].

(** The page without a player, the script started, and one more wait,
    for the play/pause button. *)
Definition waiting : state :=
  waitForElement SEL_PLAYPAUSE 5000%N AwaitPlayPause (start false noPlayer url).

(** The player is inserted. *)
Definition playerInserted : list event :=
  [Mutation (player [] twoLines) ChildList 1 [2; 3]].

(** The timer of the wait fires first. *)
Definition timerFirst : list event :=
  [TimerFires 1; RunJob; Mutation (player [] twoLines) ChildList 1 [2; 3]].

Definition reported : state :=
  after captionsReported (start false (player [PAUSED_MARKER] twoLines) url).

End Sample.


(* ===================================================================== *)
(** * Part VII, continued.  Notions of the further properties             *)
(* ===================================================================== *)

(** ** Text *)

(** The first character, if it is a word character, in upper case. *)
Definition capitalizeFirst (s : string) : string :=
  match s with
  | String c r => if isWord c then String (toUpperChar c) r else s
  | EmptyString => EmptyString
  end.

(** [c] occurs in [s]. *)
Fixpoint occurs (c : ascii) (s : string) : bool :=
  match s with
  | EmptyString => false
  | String d r => Ascii.eqb d c || occurs c r
  end.

(** ** The cache *)

(** Every key of the cache is a caption text, and every translation in
    it is a cased text that is not empty. *)
Definition cacheClean (st : state) : Prop :=
  (forall text, is_Some (translationCache st !! text) ->
                text <> "" /\ captionText (Text text) = text)
  /\ (forall text t, translationCache st !! text = Some (Some t) ->
                     t <> "" /\ sentenceCase t = t).

(** The entry of [text] is [v], no request for [text] is under way, and
    none was sent since [sent] was the list of the requests. *)
Definition entryFinal (text : string) (v : option string) (sent : list string)
    (st : state) : Prop :=
  translationCache st !! text = Some v
  /\ (text ∉ pendingRequests st)
  /\ exists more, requests st = sent ++ more /\ (text ∉ more).

(** ** The caption nodes *)

(** The caption nodes passed to [storeSubtitle] (line 61), in order:
    each is marked on line 60 just before. *)
Definition submitted (st : state) : list nat :=
  omap (fun w => match w with SetDataTranslated id _ => Some id | _ => None end)
       (domWrites st).

Definition marks (st : state) : gmap nat string * list nat :=
  (dataTranslated st, submitted st).

Definition marksInvariant (st : state) : Prop :=
  NoDup (submitted st)
  /\ forall id, id ∈ submitted st -> dataTranslated st !! id = Some "true".

(** ** Rendering *)

(** The player shows the marker of the paused state (lines 111-112). *)
Definition paused (doc : node) : bool :=
  match querySelector SEL_PLAYPAUSE doc with
  | Some playPauseButton => contains PAUSED_MARKER (classList playPauseButton)
  | None => false
  end.

Definition isMark (w : domWrite) : bool :=
  match w with SetDataTranslated _ _ => true | _ => false end.

(** The writes that show a translation: all but the marks of line 60. *)
Definition rendered (st : state) : list domWrite :=
  List.filter (fun w => negb (isMark w)) (domWrites st).

Definition rendering (st : state) : node * list domWrite := (document st, rendered st).

(** The document the host leaves with an event. *)
Definition documentAfter (ev : event) (st : state) : node :=
  match ev with
  | Mutation doc _ _ _ => doc
  | _ => document st
  end.

(** Every document the host leaves in [evs] shows a player that is not
    paused. *)
Definition playing (evs : list event) : bool :=
  forallb (fun ev => match ev with
                     | Mutation doc _ _ _ => negb (paused doc)
                     | _ => true
                     end) evs.

(** [st] with the document [doc] and the writes [more] added. *)
Definition patched (doc : node) (more : list domWrite) (st : state) : state :=
  on_domWrites (fun l => l ++ more) (on_document (fun _ => doc) st).

(** ** The document *)

(** The identities of the elements of a tree, in document order. *)
Fixpoint ids (n : node) : list nat :=
  match n with
  | Text _ => []
  | Elem e children => eid e :: flat_map ids children
  end.

(** [new] put before the first entry of identity [id]. *)
Fixpoint insertEntry (new : node) (id : nat) (l : list (node * list element))
  : list (node * list element) :=
  match l with
  | [] => []
  | p :: rest =>
      if hasId id (fst p) then (new, snd p) :: p :: rest
      else p :: insertEntry new id rest
  end.

(** The entry of a node after [insertBefore new id]. *)
Definition inserted (new : node) (id : nat) (p : node * list element) : node * list element :=
  (insertBefore new id (fst p), snd p).

(** ** Sessions *)

Definition listeners (st : state) : bool * bool :=
  (popstateListener st, domContentLoadedListener st).

Definition isWaiter (cb : callback) : bool :=
  match cb with WaiterCallback _ => true | _ => false end.

(** A disconnected observer. *)
Definition released (m : mutationObserver) : mutationObserver :=
  {| callbackOf := callbackOf m; observing := None |}.

(** Every connected observer that is not one of a wait is on the list
    that [cleanup] goes through. *)
Definition sessionListed (st : state) : Prop :=
  forall o m, mutationObservers st !! o = Some m -> isWaiter (callbackOf m) = false ->
              observing m <> None -> o ∈ observers st.

(** Every observer on that list is one of the session, not one of a wait. *)
Definition sessionOnly (st : state) : Prop :=
  forall o, o ∈ observers st ->
            exists m, mutationObservers st !! o = Some m /\ isWaiter (callbackOf m) = false.

(** No observer of the session is connected. *)
Definition sessionReleased (st : state) : Prop :=
  forall o m, mutationObservers st !! o = Some m -> isWaiter (callbackOf m) = false ->
              observing m = None.

(** No observer of the address is connected. *)
Definition urlDead (st : state) : Prop :=
  forall o m, mutationObservers st !! o = Some m -> callbackOf m = UrlCallback ->
              observing m = None.

(** The observer [u] watches the address and is connected. *)
Definition urlAlive (u : nat) (st : state) : Prop :=
  mutationObservers st !! u
  = Some {| callbackOf := UrlCallback; observing := Some (ChildListSubtree None) |}.

(** No navigation handler has run since the recorded address was [cur]
    and the timers were [ts]. *)
Definition unnoticed (cur : string) (ts : list (N * timerAction)) (st : state) : Prop :=
  currentUrl st = cur /\ timers st = ts.

(** A navigation handler has recorded the address [loc] and set the
    restart timer. *)
Definition noticed (loc : string) (ts : list (N * timerAction)) (st : state) : Prop :=
  currentUrl st = loc /\ timers st = ts ++ [(500%N, Reinitialize)].

(** What a navigation handler writes to. *)
Definition navigationState (st : state) : string * list (N * timerAction) :=
  (currentUrl st, timers st).

(** ** Sessions the properties are shown on *)

Module Scenario.

(** The script started on a loaded page whose player is playing. *)
Definition loaded : state :=
  start false (Sample.player [] Sample.twoLines) Sample.url.

(** The script started while the same page was loading. *)
Definition loading : state :=
  start true (Sample.player [] Sample.twoLines) Sample.url.

(** The service's answer for the first caption line. *)
Definition answer : response :=
  Json (serviceAnswer [("GOOD evening", [JStr "Guten Abend"; JNull])] [JNull; JStr "de"]).

(** The initialization runs once more, the continuations run, and the
    application goes to a second video. *)
Definition moved : list event :=
  [RunJob; RunJob; RunJob; RunJob; LocationChange Sample.url2].

Definition restarted : state := Sample.after moved (initializeExtension loaded).

(** The document is ready, the continuations run, and the application
    goes to a second video. *)
Definition movedAfterLoading : list event :=
  [RunJob; RunJob; LocationChange Sample.url2].

Definition loadedLate : state :=
  Sample.after (DOMContentLoaded :: movedAfterLoading) loading.

(** The application changes the document. *)
Definition mutation : event :=
  Mutation (Sample.player [] Sample.twoLines) ChildList 1 [].

(** The first request is answered. *)
Definition answered : state := Sample.after [Response 0 answer] Sample.reported.

(** The player replaces the caption lines, the new first line with the
    text of the old one. *)
Definition sameTextAgain : list event :=
  [Mutation (Sample.player [PAUSED_MARKER]
               [Sample.paragraph 9 "Guten Abend"; Sample.paragraph 10 "Bis morgen"])
     ChildList 3 [9; 10]].

Definition final : state :=
  Sample.after (Response 0 answer :: sameTextAgain) Sample.reported.

(** A session on a player that keeps playing: the captions are reported
    and the first request is answered. *)
Definition playingSession : list event :=
  [RunJob; RunJob;
   Mutation (Sample.player [] Sample.twoLines) ChildList 3 [5; 6];
   Response 0 answer].

Definition played : state := Sample.after playingSession loaded.

(** A paused player that shows one caption line; the script starts and
    the line is reported. *)
Definition single : node :=
  Sample.player [PAUSED_MARKER] [Sample.paragraph 5 "Guten Abend"].

Definition singleReported : state :=
  Sample.after [RunJob; RunJob; Mutation single ChildList 3 [5]]
    (start false single Sample.url).

(** The user goes back to the second video. *)
Definition wentBack : state := Sample.after [Popstate Sample.url2] Sample.reported.

End Scenario.
(** Two tactics of the proofs below: [frame] runs through the cases of a
    function that leaves the fields in question alone, and
    [snoc_lookup] splits a lookup in a list that has grown by one. *)
Ltac frame := repeat first [progress simpl | case_match]; simplify_eq; try reflexivity.

Ltac snoc_lookup H :=
  apply lookup_snoc_Some in H as [[? H]|[? H]].

(* ===================================================================== *)
(** * Part VIII.  Sentence casing and the translation client              *)
(* ===================================================================== *)

Section Strings.

Lemma toLowerChar_toUpperChar c : toLowerChar (toUpperChar c) = toLowerChar c.
Proof. destruct c as [[] [] [] [] [] [] [] []]; reflexivity. Qed.

Lemma toLowerChar_idempotent c : toLowerChar (toLowerChar c) = toLowerChar c.
Proof. destruct c as [[] [] [] [] [] [] [] []]; reflexivity. Qed.

Lemma toLowerCase_app s t : toLowerCase (s +:+ t) = toLowerCase s +:+ toLowerCase t.
Proof. induction s as [|c s IH]; simpl; [reflexivity | now rewrite IH]. Qed.

Lemma toLowerCase_toUpperCase s : toLowerCase (toUpperCase s) = toLowerCase s.
Proof.
  induction s as [|c s IH]; simpl; [reflexivity|].
  now rewrite toLowerChar_toUpperChar, IH.
Qed.

Lemma toLowerCase_idempotent s : toLowerCase (toLowerCase s) = toLowerCase s.
Proof.
  induction s as [|c s IH]; simpl; [reflexivity|].
  now rewrite toLowerChar_idempotent, IH.
Qed.

(** A matcher splits the text it is given. *)
Lemma match_ws_word_split s m k : match_ws_word s = Some (m, k) -> s = m +:+ k.
Proof.
  revert m k. induction s as [|c s IH]; intros m k; simpl; [discriminate|].
  destruct (isWhiteSpace c).
  - destruct (match_ws_word s) as [[m1 k1]|]; [|discriminate].
    intros [= <- <-]. simpl. now rewrite (IH _ _ eq_refl).
  - destruct (isWord c); [|discriminate]. now intros [= <- <-].
Qed.

Lemma match_period_split s m k : match_period s = Some (m, k) -> s = m +:+ k.
Proof.
  destruct s as [|c s]; simpl; [discriminate|].
  destruct (Ascii.eqb c PERIOD); [|discriminate].
  destruct (match_ws_word s) as [[m1 k1]|] eqn:E; [|discriminate].
  intros [= <- <-]. simpl. now rewrite (match_ws_word_split _ _ _ E).
Qed.

Lemma match_start_split s m k : match_start s = Some (m, k) -> s = m +:+ k.
Proof.
  destruct s as [|c s]; simpl; [discriminate|].
  destruct (isWord c); [|discriminate]. now intros [= <- <-].
Qed.

(** The replacement changes the case of letters and nothing else. *)
Lemma toLowerCase_replace_from s : toLowerCase (replace_from s) = toLowerCase s.
Proof.
  funelim (replace_from s).
  - reflexivity.
  - match goal with
    | IH : toLowerCase (replace_from _) = toLowerCase _,
      E : match_period _ = Some _ |- _ =>
        rewrite toLowerCase_app, toLowerCase_toUpperCase, IH;
        rewrite <- toLowerCase_app;
        now rewrite <- (match_period_split _ _ _ E)
    end.
  - match goal with
    | IH : toLowerCase (replace_from _) = toLowerCase _ |- _ =>
        simpl; now rewrite IH
    end.
Qed.

Lemma toLowerCase_replaceSentenceStarts s :
  toLowerCase (replaceSentenceStarts s) = toLowerCase s.
Proof.
  unfold replaceSentenceStarts.
  destruct (match_start s) as [[m k]|] eqn:E.
  - rewrite toLowerCase_app, toLowerCase_toUpperCase, toLowerCase_replace_from.
    rewrite <- toLowerCase_app. now rewrite <- (match_start_split _ _ _ E).
  - apply toLowerCase_replace_from.
Qed.

(** C8.  Sentence casing (lower-case the whole string, then upper-case
    the first letter and each letter that follows a period and optional
    white space) is idempotent: casing a cased string gives it back.
    This holds for every string, and so for the correctly cased single
    sentences the property is stated for. *)
Theorem sentenceCase_idempotent (s : string) :
  sentenceCase (sentenceCase s) = sentenceCase s.
Proof.
  unfold sentenceCase at 1.
  unfold sentenceCase at 1.
  rewrite toLowerCase_replaceSentenceStarts, toLowerCase_idempotent.
  reflexivity.
Qed.

Example sentenceCase_two_sentences :
  sentenceCase "this is a test. second sentence" = "This is a test. Second sentence".
Proof. reflexivity. Qed.

Example sentenceCase_capitals :
  sentenceCase "HALLO.  WELT.x .Y" = "Hallo.  Welt.X .Y".
Proof. reflexivity. Qed.

End Strings.

Section TranslationClient.

Lemma mapIndex0_segments segments :
  mapIndex0 (map segment segments)
  = Some (map (fun s => Val (JStr (fst s))) segments).
Proof.
  induction segments as [|[f more] rest IH]; simpl; [reflexivity|].
  now rewrite IH.
Qed.

Lemma extractText_serviceAnswer segments more :
  extractText (serviceAnswer segments more) = Some (join " " (map fst segments)).
Proof.
  unfold extractText, serviceAnswer. simpl.
  rewrite mapIndex0_segments, map_map. simpl.
  reflexivity.
Qed.

(** C3, as stated, fails: the fragments "Hallo" and " Welt" do not give
    "Hallo welt".  The second fragment brings its own leading space,
    and [join] adds one more. *)
Lemma hallo_welt_is_not_single_spaced :
  fetchTranslation (Json (serviceAnswer [("Hallo", []); (" Welt", [])] []))
  <> "Hallo welt".
Proof. vm_compute. discriminate. Qed.

(** C3, amended.  The translation client joins the text fragments of
    the answer with one space between two fragments and sentence-cases
    the result; the fragments are taken as they are, so for "Hallo" and
    " Welt" it produces "Hallo  welt", with two spaces, and for "Hallo"
    and "Welt" it produces "Hallo welt". *)
Theorem fetchTranslation_joins_and_cases :
  (forall segments more,
     fetchTranslation (Json (serviceAnswer segments more))
     = sentenceCase (join " " (map fst segments)))
  /\ fetchTranslation (Json (serviceAnswer [("Hallo", []); (" Welt", [])] []))
     = "Hallo  welt"
  /\ fetchTranslation (Json (serviceAnswer [("Hallo", []); ("Welt", [])] []))
     = "Hallo welt".
Proof.
  split; [|split; reflexivity].
  intros segments more. unfold fetchTranslation.
  now rewrite extractText_serviceAnswer.
Qed.

End TranslationClient.

(* ===================================================================== *)
(** * Part IX.  Captions and rendering                                    *)
(* ===================================================================== *)

Section Rendering.

(** C10.  A caption node whose text is empty once trimmed and its line
    breaks replaced is ignored by [storeSubtitle]: the state is left as
    it is, so the cache gets no entry for the empty string and no
    request is sent. *)
Theorem storeSubtitle_ignores_empty_text (originalP : node) (st : state) :
  captionText originalP = "" ->
  storeSubtitle originalP st = st
  /\ translationCache (storeSubtitle originalP st) = translationCache st
  /\ requests (storeSubtitle originalP st) = requests st.
Proof.
  intros H. unfold storeSubtitle. rewrite H. simpl. auto.
Qed.

Lemma storeSubtitle_ignores_empty_text_witness :
  let originalP := Elem (Sample.el 5 "p" [] None)
                     [Text "  "; Elem (Sample.el 6 "br" [] None) []; Text " "] in
  let st := Sample.withCache Sample.oneReady (Sample.player [] [originalP]) in
  captionText originalP = ""
  /\ storeSubtitle originalP st = st
  /\ translationCache (storeSubtitle originalP st) = translationCache st
  /\ requests (storeSubtitle originalP st) = requests st.
Proof.
  split; [reflexivity|].
  apply storeSubtitle_ignores_empty_text. reflexivity.
Defined.

(** C2.  When the play/pause button does not carry the marker of the
    paused state (or there is no such button), [checkAndShowSubtitles]
    writes nothing to the document, whatever the cache holds: the state
    after it is the state before it. *)
Theorem checkAndShowSubtitles_not_paused (st : state) :
  (forall playPauseButton,
      querySelector SEL_PLAYPAUSE (document st) = Some playPauseButton ->
      contains PAUSED_MARKER (classList playPauseButton) = false) ->
  domWrites (checkAndShowSubtitles st) = domWrites st
  /\ document (checkAndShowSubtitles st) = document st
  /\ checkAndShowSubtitles st = st.
Proof.
  intros H. unfold checkAndShowSubtitles.
  destruct (querySelector SEL_PLAYPAUSE (document st)) as [b|]; [|auto].
  rewrite (H b eq_refl). auto.
Qed.

Lemma checkAndShowSubtitles_not_paused_witness :
  let st := Sample.withCache Sample.oneReady
              (Sample.player ["ardplayer-icon-pause"] Sample.twoLines) in
  lookupCaption 5 st = Some (Some "Good evening")
  /\ domWrites (checkAndShowSubtitles st) = domWrites st
  /\ document (checkAndShowSubtitles st) = document st
  /\ checkAndShowSubtitles st = st.
Proof.
  split; [reflexivity|].
  apply checkAndShowSubtitles_not_paused.
  intros b. vm_compute. intros [= <-]. reflexivity.
Defined.

(** The same state with the button paused: the translation is written. *)
Example checkAndShowSubtitles_paused :
  let st := Sample.withCache Sample.oneReady
              (Sample.player [PAUSED_MARKER] Sample.twoLines) in
  domWrites (checkAndShowSubtitles st)
  = [CreateElement 7 "p"; SetClassName 7 "translated-subtitle"; InsertBefore 7 5;
     SetInnerText 7 "Good evening"; SetStyleDisplay 7 "block"].
Proof. reflexivity. Qed.

(** C5, as stated, fails where two paragraphs have the same parent.  The
    second line is Pending and the first is Ready: the pass writes the
    translation of the first line into the element that line 133 also
    finds for the second, creating it when it is not there, and
    replacing its text when it is. *)
Lemma pending_paragraph_shares_the_translated_element :
  (let st := Sample.withCache Sample.oneReady
               (Sample.player [PAUSED_MARKER] Sample.twoLines) in
   lookupCaption 6 st = Some None
   /\ translatedSibling 6 (document st) = None
   /\ translatedSibling 6 (document (showStoredSubtitle st))
      = Some (Elem (withDisplay "block" (Sample.el 7 "p" ["translated-subtitle"] None))
                [Text "Good evening"]))
  /\
  (let st := Sample.withCache Sample.oneReady
               (Sample.player [PAUSED_MARKER]
                  (Sample.translated 4 "Good morning" :: Sample.twoLines)) in
   lookupCaption 6 st = Some None
   /\ translatedSibling 6 (document st) = Some (Sample.translated 4 "Good morning")
   /\ translatedSibling 6 (document (showStoredSubtitle st))
      <> translatedSibling 6 (document st)).
Proof.
  split; cbv zeta; (split; [reflexivity|]); (split; [reflexivity|]).
  - reflexivity.
  - vm_compute. discriminate.
Qed.

Lemma showOne_untranslated (id : nat) (st : state) :
  lookupCaption id st = None \/ lookupCaption id st = Some None ->
  showOne id st = st.
Proof.
  unfold lookupCaption, showOne.
  destruct (locate id (document st)) as [[originalP [|parentNode ancestors]]|];
    try reflexivity.
  intros [-> | ->]; reflexivity.
Qed.

(** C5, amended.  In a refresh pass, the turn of a caption paragraph
    whose cache entry is then Absent or Pending changes nothing: it
    creates no element and writes to none, and the pass goes on with the
    paragraphs after it from the very state the paragraphs before it
    left.  (The translated element is looked up under the parent of a
    paragraph, so it is shared by the paragraphs of that parent, and the
    turn of one of them that is Ready creates or overwrites it.) *)
Theorem showStoredSubtitle_skips_untranslated
    (st st1 : state) (before after : list element) (originalP : element) :
  querySelectorAll SEL_CAPTION (document st) = before ++ originalP :: after ->
  st1 = fold_left (fun s p => showOne (eid p) s) before st ->
  lookupCaption (eid originalP) st1 = None
  \/ lookupCaption (eid originalP) st1 = Some None ->
  showOne (eid originalP) st1 = st1
  /\ domWrites (showOne (eid originalP) st1) = domWrites st1
  /\ document (showOne (eid originalP) st1) = document st1
  /\ showStoredSubtitle st = fold_left (fun s p => showOne (eid p) s) after st1.
Proof.
  intros Hlist -> Hentry.
  pose proof (showOne_untranslated _ _ Hentry) as Hskip.
  rewrite Hskip. repeat split.
  unfold showStoredSubtitle. rewrite Hlist, fold_left_app. simpl.
  now rewrite Hskip.
Qed.

Lemma showStoredSubtitle_skips_untranslated_witness :
  let st := Sample.withCache Sample.oneReady
              (Sample.player [PAUSED_MARKER] Sample.twoLines) in
  let st1 := showOne 5 st in
  lookupCaption 6 st1 = Some None
  /\ (showOne 6 st1 = st1
      /\ domWrites (showOne 6 st1) = domWrites st1
      /\ document (showOne 6 st1) = document st1
      /\ showStoredSubtitle st = st1).
Proof.
  split; [reflexivity|].
  apply (showStoredSubtitle_skips_untranslated
           (Sample.withCache Sample.oneReady
              (Sample.player [PAUSED_MARKER] Sample.twoLines))
           _ [Sample.el 5 "p" [] None] [] (Sample.el 6 "p" [] None)).
  - reflexivity.
  - reflexivity.
  - right. reflexivity.
Defined.

(** When no paragraph has a Ready entry, the whole pass changes nothing. *)
Lemma showStoredSubtitle_nothing_ready (st : state) :
  (forall p, In p (querySelectorAll SEL_CAPTION (document st)) ->
             lookupCaption (eid p) st = None \/ lookupCaption (eid p) st = Some None) ->
  showStoredSubtitle st = st.
Proof.
  unfold showStoredSubtitle.
  generalize (querySelectorAll SEL_CAPTION (document st)) as ps.
  induction ps as [|p ps IH]; intros H; simpl; [reflexivity|].
  rewrite showOne_untranslated by (apply H; now left).
  apply IH. intros q Hq. apply H. now right.
Qed.

End Rendering.

(* ===================================================================== *)
(** * Part X.  The translation cache                                      *)
(* ===================================================================== *)

Section Reachability.

Lemma run_app evs1 evs2 st :
  run (evs1 ++ evs2) st = run evs1 st ≫= run evs2.
Proof.
  revert st. induction evs1 as [|ev evs1 IH]; intros st; simpl; [reflexivity|].
  destruct (step ev st); simpl; auto.
Qed.

Lemma run_single ev st : run [ev] st = step ev st.
Proof. simpl. now destruct (step ev st). Qed.

Lemma run_preserves (I : state -> Prop) :
  (forall ev st st', I st -> step ev st = Some st' -> I st') ->
  forall evs st st', I st -> run evs st = Some st' -> I st'.
Proof.
  intros Hstep. induction evs as [|ev evs IH]; intros st st' HI; simpl.
  - now intros [= <-].
  - destruct (step ev st) as [st1|] eqn:E; [|discriminate].
    intros H. eapply IH; [|exact H]. eauto.
Qed.

Lemma reachable_invariant (I : state -> Prop) :
  (forall loading doc url, I (start loading doc url)) ->
  (forall ev st st', I st -> step ev st = Some st' -> I st') ->
  forall st, reachable st -> I st.
Proof.
  intros H0 Hstep st (loading & doc & url & evs & Hrun).
  eapply run_preserves; eauto.
Qed.

Lemma fold_left_preserves {A} (I : state -> Prop) (f : state -> A -> state) (l : list A) :
  (forall st x, I st -> I (f st x)) ->
  forall st, I st -> I (fold_left f l st).
Proof.
  intros Hf. induction l as [|x l IH]; intros st HI; simpl; auto.
Qed.

End Reachability.

Section Cache.

(** ** What leaves the translations alone *)

Lemma translations_settle p r st : translations (settle p r st) = translations st.
Proof. unfold settle. frame. Qed.

Lemma translations_disconnect o st : translations (disconnect o st) = translations st.
Proof. reflexivity. Qed.

Lemma translations_waitForElement sel t k st :
  translations (waitForElement sel t k st) = translations st.
Proof. unfold waitForElement. frame; now rewrite translations_settle. Qed.

Lemma translations_waiterCallback p o st :
  translations (waiterCallback p o st) = translations st.
Proof. unfold waiterCallback. frame; now rewrite translations_settle. Qed.

Lemma translations_waiterTimeout p o st :
  translations (waiterTimeout p o st) = translations st.
Proof. unfold waiterTimeout. frame; now rewrite translations_settle. Qed.

Lemma translations_cleanup st : translations (cleanup st) = translations st.
Proof.
  unfold cleanup.
  change (translations (fold_left (fun s o => disconnect o s) (observers st) st)
          = translations st).
  apply (fold_left_preserves (fun s => translations s = translations st)); auto.
Qed.

Lemma translations_initializeExtension st :
  translations (initializeExtension st) = translations st.
Proof.
  unfold initializeExtension.
  now rewrite translations_waitForElement, translations_cleanup.
Qed.

Lemma translations_resume k r st : translations (resume k r st) = translations st.
Proof. unfold resume. frame; now rewrite translations_waitForElement. Qed.

Lemma translations_showOne id st : translations (showOne id st) = translations st.
Proof. unfold showOne. frame. Qed.

Lemma translations_showStoredSubtitle st :
  translations (showStoredSubtitle st) = translations st.
Proof.
  unfold showStoredSubtitle.
  apply (fold_left_preserves (fun s => translations s = translations st)); auto.
  intros s p <-. apply translations_showOne.
Qed.

Lemma translations_checkAndShowSubtitles st :
  translations (checkAndShowSubtitles st) = translations st.
Proof. unfold checkAndShowSubtitles. frame. apply translations_showStoredSubtitle. Qed.

Lemma translations_onNavigation st : translations (onNavigation st) = translations st.
Proof. unfold onNavigation. frame. Qed.

Lemma translations_start loading doc url :
  translations (start loading doc url) = (∅, [], []).
Proof.
  unfold start, main, setupNavigationDetection. destruct loading; simpl; [reflexivity|].
  change (translations (initializeExtension (page doc url)) = translations (page doc url)).
  apply translations_initializeExtension.
Qed.

(** ** What keeps the invariant of the cache *)

Lemma cacheGrows_refl st : cacheGrows st st.
Proof. split; auto. Qed.

Lemma cacheGrows_trans st1 st2 st3 :
  cacheGrows st1 st2 -> cacheGrows st2 st3 -> cacheGrows st1 st3.
Proof. intros [H1 H2] [H3 H4]. split; auto. Qed.

Lemma keeps_frame h : (forall st, translations (h st) = translations st) -> keeps h.
Proof.
  intros H st HI. specialize (H st). unfold translations in H.
  injection H as Hc Hr Hp.
  unfold cacheInvariant, cacheGrows. rewrite Hc, Hr, Hp. auto.
Qed.

Lemma keeps_compose g h : keeps g -> keeps h -> keeps (fun st => h (g st)).
Proof.
  intros Hg Hh st HI. destruct (Hg st HI) as [HI1 HG1].
  destruct (Hh _ HI1) as [HI2 HG2]. split; [exact HI2|].
  eapply cacheGrows_trans; eauto.
Qed.

Lemma keeps_fold {A} (f : state -> A -> state) (l : list A) :
  (forall x, keeps (fun st => f st x)) -> keeps (fun st => fold_left f l st).
Proof.
  intros Hf. induction l as [|x l IH]; simpl.
  - intros st HI. split; [exact HI | apply cacheGrows_refl].
  - apply (keeps_compose (fun st => f st x) (fun st => fold_left f l st)); auto.
Qed.

Lemma keeps_storeSubtitle originalP : keeps (storeSubtitle originalP).
Proof.
  intros st HI. unfold storeSubtitle.
  destruct (isEmpty (captionText originalP));
    [split; [exact HI | apply cacheGrows_refl]|].
  destruct (translationCache st !! captionText originalP) as [v|] eqn:E;
    [split; [exact HI | apply cacheGrows_refl]|].
  destruct HI as (Hnd & Hdom & Hsub & Hpend).
  set (text := captionText originalP) in *.
  assert (Hfresh : text ∉ requests st).
  { intros Hin. apply Hdom in Hin. rewrite E in Hin. now destruct Hin. }
  split; [split; [|split; [|split]]|split]; simpl.
  - apply NoDup_app. split; [exact Hnd|]. split; [|apply NoDup_singleton].
    intros x Hx Hx'. apply list_elem_of_singleton in Hx'. now subst.
  - intros x. rewrite elem_of_app, list_elem_of_singleton.
    destruct (decide (x = text)) as [->|Hne].
    + rewrite lookup_insert_eq. split; [eauto | auto].
    + rewrite lookup_insert_ne by auto. rewrite Hdom. tauto.
  - apply sublist_app; [exact Hsub | reflexivity].
  - intros x. rewrite elem_of_app, list_elem_of_singleton. intros [Hx | ->].
    + rewrite lookup_insert_ne; [auto|].
      intros <-. apply Hpend in Hx. congruence.
    + apply lookup_insert_eq.
  - intros x Hx. destruct (decide (x = text)) as [->|Hne].
    + rewrite lookup_insert_eq. eauto.
    + now rewrite lookup_insert_ne by auto.
  - intros x t Hx. rewrite lookup_insert_ne; [exact Hx|]. congruence.
Qed.

Lemma keeps_onAddedNode id : keeps (onAddedNode id).
Proof.
  intros st HI. unfold onAddedNode.
  repeat case_match; try (split; [exact HI | apply cacheGrows_refl]).
  apply (keeps_compose
           (fun st => write (SetDataTranslated id "true")
                        (on_dataTranslated (<[id := "true"]>) st))
           (storeSubtitle _)); [|apply keeps_storeSubtitle|exact HI].
  now apply keeps_frame.
Qed.

Lemma keeps_captionCallback added : keeps (captionCallback added).
Proof. apply keeps_fold. intros id. apply keeps_onAddedNode. Qed.

Lemma keeps_runCallback cb o added : keeps (runCallback cb o added).
Proof.
  destruct cb; simpl.
  - apply keeps_frame. intros st. apply translations_waiterCallback.
  - apply keeps_captionCallback.
  - apply keeps_frame. apply translations_checkAndShowSubtitles.
  - apply keeps_frame. apply translations_onNavigation.
Qed.

Lemma keeps_deliver kind site added o : keeps (deliver kind site added o).
Proof.
  intros st HI. unfold deliver.
  repeat case_match; try (split; [exact HI | apply cacheGrows_refl]).
  now apply keeps_runCallback.
Qed.

Lemma keeps_notify kind site added : keeps (notify kind site added).
Proof.
  intros st HI. unfold notify.
  apply (keeps_fold (fun s o => deliver kind site added o s)); [|exact HI].
  intros o. apply keeps_deliver.
Qed.

Lemma translations_fire action st : translations (fire action st) = translations st.
Proof.
  destruct action; simpl.
  - apply translations_waiterTimeout.
  - apply translations_initializeExtension.
  - now rewrite translations_initializeExtension.
Qed.

Lemma not_elem_of_delete_NoDup {A} (l : list A) k x :
  NoDup l -> l !! k = Some x -> x ∉ delete k l.
Proof.
  revert k. induction l as [|y l IH]; intros k Hnd; [done|].
  apply NoDup_cons in Hnd as [Hy Hnd].
  destruct k as [|k]; simpl.
  - now intros [= ->].
  - intros Hk. apply not_elem_of_cons. split; [|now apply IH].
    intros ->. apply Hy. eapply list_elem_of_lookup_2; eauto.
Qed.

(** The answer to the [k]-th pending request, lines 100-105. *)
Lemma keeps_response k text translatedText st :
  cacheInvariant st ->
  pendingRequests st !! k = Some text ->
  let st' := onTranslation text translatedText (on_pendingRequests (delete k) st) in
  cacheInvariant st' /\ cacheGrows st st'.
Proof.
  intros (Hnd & Hdom & Hsub & Hpend) Hk.
  assert (Hin : text ∈ pendingRequests st) by (eapply list_elem_of_lookup_2; eauto).
  assert (Hnd' : NoDup (pendingRequests st)) by (eapply sublist_NoDup; eauto).
  assert (Hout : text ∉ delete k (pendingRequests st))
    by (eapply not_elem_of_delete_NoDup; eauto).
  assert (Hsub' : sublist (delete k (pendingRequests st)) (pendingRequests st))
    by apply sublist_delete.
  assert (HI1 : cacheInvariant (on_pendingRequests (delete k) st)).
  { repeat split; simpl; try apply Hdom; auto.
    - etransitivity; eauto.
    - intros x Hx. apply Hpend. eapply elem_of_sublist; eauto. }
  simpl. unfold onTranslation.
  destruct (isEmpty translatedText); [split; [exact HI1 | split; auto]|].
  set (st1 := on_translationCache _ _).
  assert (HI2 : cacheInvariant st1 /\ cacheGrows st st1).
  { split; [split; [|split; [|split]]|split]; simpl.
    - exact Hnd.
    - intros x. destruct (decide (x = text)) as [->|Hne].
      + rewrite lookup_insert_eq. split; [eauto|].
        intros _. eapply elem_of_sublist; eauto.
      + rewrite lookup_insert_ne by auto. apply Hdom.
    - etransitivity; eauto.
    - intros x Hx. rewrite lookup_insert_ne by (intros <-; auto).
      apply Hpend. eapply elem_of_sublist; eauto.
    - intros x Hx. destruct (decide (x = text)) as [->|Hne].
      + rewrite lookup_insert_eq. eauto.
      + now rewrite lookup_insert_ne by auto.
    - intros x t Hx. rewrite lookup_insert_ne; [exact Hx|].
      intros <-. rewrite (Hpend _ Hin) in Hx. discriminate. }
  destruct HI2 as [HI2 HG2].
  destruct (keeps_frame _ translations_checkAndShowSubtitles st1 HI2) as [HI3 HG3].
  split; [exact HI3 | eapply cacheGrows_trans; eauto].
Qed.

Lemma step_keeps ev st st' :
  cacheInvariant st -> step ev st = Some st' ->
  cacheInvariant st' /\ cacheGrows st st'.
Proof.
  intros HI. unfold step.
  destruct ev, (jobs st) as [|[k0 result] rest] eqn:Ejobs; try discriminate.
  - intros [= <-].
    apply (keeps_compose (on_document (fun _ => doc)) (notify kind site added));
      [now apply keeps_frame | apply keeps_notify | exact HI].
  - intros [= <-]. now apply (keeps_frame (on_location (fun _ => url))).
  - intros [= <-]. simpl. destruct (popstateListener st).
    + apply (keeps_frame (fun st => onNavigation (on_location (fun _ => url) st)));
        [|exact HI].
      intros s. now rewrite translations_onNavigation.
    + now apply (keeps_frame (on_location (fun _ => url))).
  - intros [= <-]. destruct (domContentLoadedListener st).
    + now apply (keeps_frame _ translations_initializeExtension).
    + split; [exact HI | apply cacheGrows_refl].
  - destruct (timers st !! k) as [[delay action]|]; [|discriminate].
    intros [= <-].
    apply (keeps_frame (fun st => fire action (on_timers (delete k) st))); [|exact HI].
    intros s. now rewrite translations_fire.
  - intros [= <-].
    apply (keeps_frame (fun st => resume k0 result (on_jobs (fun _ => rest) st)));
      [|exact HI].
    intros s. now rewrite translations_resume.
  - destruct (pendingRequests st !! k) as [text|] eqn:Ek; [|discriminate].
    intros [= <-]. now apply keeps_response.
Qed.

Lemma cacheInvariant_start loading doc url : cacheInvariant (start loading doc url).
Proof.
  assert (H : cacheInvariant (page doc url)).
  { split; [|split; [|split]]; simpl.
    - apply NoDup_nil_2.
    - intros text. rewrite lookup_empty. split.
      + intros Hin. now apply elem_of_nil in Hin.
      + intros [x Hx]. discriminate.
    - reflexivity.
    - intros text Hin. now apply elem_of_nil in Hin. }
  unfold start, main. destruct loading.
  - now apply (keeps_frame
                 (fun st => setupNavigationDetection
                              (on_domContentLoadedListener (fun _ => true) st))).
  - apply (keeps_frame
             (fun st => setupNavigationDetection (initializeExtension st)));
      [|exact H].
    intros st.
    change (translations (initializeExtension st) = translations st).
    apply translations_initializeExtension.
Qed.

Lemma cacheInvariant_reachable st : reachable st -> cacheInvariant st.
Proof.
  apply reachable_invariant.
  - apply cacheInvariant_start.
  - intros ev s s' HI Hstep. now apply (step_keeps ev s s').
Qed.

(** C1.  In a session a translation is requested at most once for a
    caption text, however often the text is submitted: the list of the
    requests sent has no text twice.  [storeSubtitle] on a text that has
    no entry installs the placeholder (Pending) and sends the one
    request; on a text that has an entry, Pending or Ready, it does
    nothing.  No event removes an entry, and no event changes a Ready
    entry, so an entry never goes from Ready back to Pending. *)
Theorem translation_requested_at_most_once (st : state) :
  reachable st ->
  NoDup (requests st)
  /\ (forall text, count_occ String.string_dec (requests st) text <= 1)
  /\ (forall originalP : node,
        let text := captionText originalP in
        text <> "" ->
        match translationCache st !! text with
        | None =>
            translationCache (storeSubtitle originalP st) !! text = Some None
            /\ requests (storeSubtitle originalP st) = requests st ++ [text]
        | Some _ => storeSubtitle originalP st = st
        end)
  /\ (forall ev st',
        step ev st = Some st' ->
        (forall text, is_Some (translationCache st !! text) ->
                      is_Some (translationCache st' !! text))
        /\ (forall text t, translationCache st !! text = Some (Some t) ->
                           translationCache st' !! text = Some (Some t))).
Proof.
  intros Hreach. pose proof (cacheInvariant_reachable st Hreach) as HI.
  assert (Hnd : NoDup (requests st)) by (now destruct HI).
  split; [exact Hnd|]. split; [|split].
  - apply NoDup_count_occ. now apply NoDup_ListNoDup.
  - intros originalP text Hne. unfold storeSubtitle. fold text.
    destruct text as [|c text'] eqn:E; [contradiction|]. simpl.
    destruct (translationCache st !! String c text'); [reflexivity|].
    simpl. split; [apply lookup_insert_eq | reflexivity].
  - intros ev st' Hstep. now apply (step_keeps ev st st').
Qed.

Lemma reachable_reported : reachable Sample.reported.
Proof.
  exists false, (Sample.player [PAUSED_MARKER] Sample.twoLines), Sample.url,
    Sample.captionsReported.
  vm_compute. reflexivity.
Qed.

Lemma translation_requested_at_most_once_witness :
  requests Sample.reported = ["Guten Abend"; "Das Wetter"]
  /\ NoDup (requests Sample.reported)
  /\ storeSubtitle (Sample.paragraph 8 "Guten Abend") Sample.reported
     = Sample.reported.
Proof.
  split; [vm_compute; reflexivity|].
  destruct (translation_requested_at_most_once Sample.reported)
    as (Hnd & _ & Hstore & _).
  - apply reachable_reported.
  - split; [exact Hnd|].
    specialize (Hstore (Sample.paragraph 8 "Guten Abend")).
    cbv zeta in Hstore.
    replace (translationCache Sample.reported
               !! captionText (Sample.paragraph 8 "Guten Abend"))
      with (Some (@None string)) in Hstore by (vm_compute; reflexivity).
    apply Hstore. discriminate.
Defined.



End Cache.

(* ===================================================================== *)
(** * Part XI.  The session life cycle                                    *)
(* ===================================================================== *)

Section Lifecycle.

Lemma cleanup_frame st :
  document (cleanup st) = document st /\ timers (cleanup st) = timers st
  /\ promises (cleanup st) = promises st /\ jobs (cleanup st) = jobs st
  /\ console (cleanup st) = console st /\ observers (cleanup st) = []
  /\ List.length (mutationObservers (cleanup st))
     = List.length (mutationObservers st).
Proof.
  unfold cleanup. simpl.
  generalize (observers st) as os. intros os. revert st.
  induction os as [|o os IH]; intros st; simpl; [repeat split; reflexivity|].
  destruct (IH (disconnect o st)) as (H1 & H2 & H3 & H4 & H5 & H6 & H7).
  rewrite H1, H2, H3, H4, H5, H7. simpl. repeat split; auto.
  apply length_alter.
Qed.

(** The wait for the caption container times out: the [catch] block of
    line 83 logs the failure and sets the retry timer; no observer of
    the session has been registered. *)
Lemma container_timeout st :
  jobs st = [] ->
  querySelector SEL_CONTAINER (document st) = None ->
  exists st2,
    run (attemptFails (List.length (timers st))) (initializeExtension st) = Some st2
    /\ timers st2 = timers st ++ [(2000%N, Retry)]
    /\ jobs st2 = []
    /\ document st2 = document st
    /\ observers st2 = []
    /\ console st2
       = console st ++ [InitializationFailed (timeoutMessage SEL_CONTAINER)].
Proof.
  intros Hj Hq.
  destruct (cleanup_frame st) as (Hd & Ht & Hp & Hjc & Hc & Ho & Hl).
  unfold initializeExtension, attemptFails.
  generalize dependent (cleanup st). intros c Hd Ht Hp Hjc Hc Ho Hl.
  unfold waitForElement.
  simpl. rewrite Hd, Hq. simpl.
  rewrite Hjc, Hj, Ht.
  rewrite list_lookup_middle by reflexivity.
  simpl. unfold waiterTimeout. simpl.
  rewrite list_lookup_middle by reflexivity. simpl.
  unfold settle. simpl. rewrite list_lookup_middle by reflexivity. simpl.
  rewrite Hjc, Hj. simpl.
  eexists. split; [reflexivity|]. simpl.
  rewrite Ht, delete_middle, app_nil_r, Hd, Ho, Hc. auto.
Qed.

(** The retry timer fires: the whole initialization starts again. *)
Lemma retry_fires st2 ts :
  jobs st2 = [] ->
  timers st2 = ts ++ [(2000%N, Retry)] ->
  step (TimerFires (List.length ts)) st2
  = Some (initializeExtension (log Retrying (on_timers (delete (List.length ts)) st2))).
Proof.
  intros Hj Ht. unfold step. rewrite Hj, Ht.
  rewrite list_lookup_middle by reflexivity. reflexivity.
Qed.

Lemma retry_round st :
  jobs st = [] ->
  querySelector SEL_CONTAINER (document st) = None ->
  exists st1,
    run (retryRound (List.length (timers st))) (initializeExtension st)
    = Some (initializeExtension st1)
    /\ jobs st1 = []
    /\ document st1 = document st
    /\ timers st1 = timers st
    /\ console st1
       = console st ++ [InitializationFailed (timeoutMessage SEL_CONTAINER); Retrying].
Proof.
  intros Hj Hq.
  destruct (container_timeout st Hj Hq) as (st2 & Hrun & Ht & Hj2 & Hd & _ & Hc).
  exists (log Retrying (on_timers (delete (List.length (timers st))) st2)).
  split; [|repeat split; simpl; auto].
  - unfold retryRound. rewrite run_app, Hrun.
    change (run [TimerFires (List.length (timers st))] st2 = Some
              (initializeExtension
                 (log Retrying (on_timers (delete (List.length (timers st))) st2)))).
    rewrite run_single. apply (retry_fires st2 (timers st) Hj2 Ht).
  - rewrite Ht. now rewrite delete_middle, app_nil_r.
  - rewrite Hc. now rewrite <- app_assoc.
Qed.

Lemma retry_rounds n : forall st,
  jobs st = [] ->
  querySelector SEL_CONTAINER (document st) = None ->
  exists st1,
    run (List.concat (replicate n (retryRound (List.length (timers st)))))
      (initializeExtension st)
    = Some (initializeExtension st1)
    /\ jobs st1 = []
    /\ document st1 = document st
    /\ timers st1 = timers st
    /\ console st1
       = console st
         ++ List.concat (replicate n [InitializationFailed (timeoutMessage SEL_CONTAINER);
                                 Retrying]).
Proof.
  induction n as [|n IH]; intros st Hj Hq.
  - exists st. simpl. rewrite app_nil_r. auto.
  - destruct (retry_round st Hj Hq) as (st' & Hrun & Hj' & Hd' & Ht' & Hc').
    destruct (IH st') as (st1 & Hrun1 & Hj1 & Hd1 & Ht1 & Hc1);
      [exact Hj' | now rewrite Hd' |].
    exists st1. split; [|repeat split; try congruence].
    + change (List.concat (replicate (S n) (retryRound (List.length (timers st)))))
        with (retryRound (List.length (timers st))
              ++ List.concat (replicate n (retryRound (List.length (timers st))))).
      rewrite run_app, Hrun. rewrite <- Ht'. exact Hrun1.
    + rewrite Hc1, Hc'. simpl. now rewrite <- app_assoc.
Qed.

(** The wait for the play/pause button times out: the inner [catch] of
    line 78 logs a warning and the initialization completes. *)
Lemma playpause_timeout st c :
  jobs st = [] ->
  querySelector SEL_CONTAINER (document st) = Some c ->
  querySelector SEL_PLAYPAUSE (document st) = None ->
  let i := List.length (timers st) in
  let o := List.length (mutationObservers st) in
  exists st',
    run [RunJob; TimerFires i; RunJob] (initializeExtension st) = Some st'
    /\ timers st' = timers st
    /\ jobs st' = []
    /\ console st'
       = console st ++ [NoPlayPauseButton (timeoutMessage SEL_PLAYPAUSE); Initialized]
    /\ observers st' = [o]
    /\ mutationObservers st' !! o
       = Some {| callbackOf := CaptionCallback;
                 observing := Some (ChildListSubtree (Some (eid c))) |}.
Proof.
  intros Hj Hq Hq2 i o.
  destruct (cleanup_frame st) as (Hd & Ht & Hp & Hjc & Hc & Ho & Hl).
  unfold initializeExtension.
  generalize dependent (cleanup st). intros cst Hd Ht Hp Hjc Hc Ho Hl.
  unfold waitForElement.
  simpl. rewrite Hd, Hq. simpl.
  unfold settle. simpl. rewrite list_lookup_middle by reflexivity. simpl.
  rewrite Hjc, Hj. simpl.
  unfold waitForElement. simpl. rewrite Hd, Hq2. simpl.
  rewrite Ht. rewrite list_lookup_middle by reflexivity. simpl.
  unfold waiterTimeout. simpl. rewrite list_lookup_middle by reflexivity. simpl.
  unfold settle. simpl. rewrite list_lookup_middle by reflexivity. simpl.
  eexists. split; [reflexivity|]. simpl.
  rewrite Ht, Hc, Ho. unfold i, o. rewrite delete_middle, app_nil_r.
  rewrite <- Hl.
  repeat split; auto.
  - now rewrite <- app_assoc.
  - rewrite length_app. simpl.
    rewrite list_lookup_alter_ne by lia.
    rewrite lookup_app_l by (rewrite length_app; simpl; lia).
    now apply list_lookup_middle.
Qed.

(** C9.  A timeout of the wait for the caption container ends the
    attempt: no observer of the session is registered, the failure is
    logged and a timer is set that runs the whole initialization again.
    The delay of that timer is 2000 ms at every attempt, and the loop
    has no end: after any number [n] of failed rounds the next attempt
    fails and sets the same timer.  A timeout of the wait for the
    play/pause button is not fatal: a warning is logged, the
    initialization completes with the caption observer registered and
    connected, and no timer is left, so no retry is scheduled. *)
Theorem container_timeout_retries_forever_playpause_timeout_is_soft :
  (forall (n : nat) (st : state),
      jobs st = [] ->
      querySelector SEL_CONTAINER (document st) = None ->
      let i := List.length (timers st) in
      exists st1 st2,
        run (List.concat (replicate n (retryRound i))) (initializeExtension st)
        = Some (initializeExtension st1)
        /\ run (attemptFails i) (initializeExtension st1) = Some st2
        /\ timers st2 = timers st ++ [(2000%N, Retry)]
        /\ observers st2 = []
        /\ console st2
           = console st
             ++ List.concat (replicate n [InitializationFailed (timeoutMessage SEL_CONTAINER);
                                     Retrying])
             ++ [InitializationFailed (timeoutMessage SEL_CONTAINER)]
        /\ step (TimerFires i) st2
           = Some (initializeExtension (log Retrying (on_timers (delete i) st2))))
  /\ (forall (st : state) (subtitleContainer : element),
        jobs st = [] ->
        querySelector SEL_CONTAINER (document st) = Some subtitleContainer ->
        querySelector SEL_PLAYPAUSE (document st) = None ->
        let i := List.length (timers st) in
        let o := List.length (mutationObservers st) in
        exists st',
          run [RunJob; TimerFires i; RunJob] (initializeExtension st) = Some st'
          /\ timers st' = timers st
          /\ jobs st' = []
          /\ console st'
             = console st
               ++ [NoPlayPauseButton (timeoutMessage SEL_PLAYPAUSE); Initialized]
          /\ observers st' = [o]
          /\ mutationObservers st' !! o
             = Some {| callbackOf := CaptionCallback;
                       observing :=
                         Some (ChildListSubtree (Some (eid subtitleContainer))) |}).
Proof.
  split.
  - intros n st Hj Hq i.
    destruct (retry_rounds n st Hj Hq) as (st1 & Hrun & Hj1 & Hd1 & Ht1 & Hc1).
    destruct (container_timeout st1) as (st2 & Hrun2 & Ht2 & Hj2 & Hd2 & Ho2 & Hc2);
      [exact Hj1 | now rewrite Hd1 |].
    rewrite Ht1 in Hrun2, Ht2.
    exists st1, st2. repeat split; auto.
    + rewrite Hc2, Hc1. now rewrite <- app_assoc.
    + apply (retry_fires st2 (timers st) Hj2 Ht2).
  - apply playpause_timeout.
Qed.

Lemma container_timeout_retries_forever_playpause_timeout_is_soft_witness :
  (exists st1 st2,
      run (List.concat (replicate 2 (retryRound 0)))
        (initializeExtension (page Sample.noPlayer Sample.url))
      = Some (initializeExtension st1)
      /\ run (attemptFails 0) (initializeExtension st1) = Some st2
      /\ timers st2 = [(2000%N, Retry)]
      /\ observers st2 = [])
  /\ (exists st',
        run [RunJob; TimerFires 0; RunJob]
          (initializeExtension (page Sample.noButton Sample.url))
        = Some st'
        /\ timers st' = []
        /\ console st'
           = [NoPlayPauseButton "Timeout waiting for element: .ardplayer-button-playpause";
              Initialized]
        /\ observers st' = [0]).
Proof.
  destruct container_timeout_retries_forever_playpause_timeout_is_soft as [A B].
  split.
  - destruct (A 2 (page Sample.noPlayer Sample.url)) as (st1 & st2 & H1 & H2 & H3 & H4 & _);
      [reflexivity | reflexivity |].
    exists st1, st2. auto.
  - destruct (B (page Sample.noButton Sample.url)
                (Sample.el 3 "div" ["ardplayer-untertitel"] (Some "de-DE")))
      as (st' & H1 & H2 & _ & H3 & H4 & _);
      [reflexivity | reflexivity | reflexivity |].
    exists st'. auto.
Defined.

(** After the play/pause timeout the captions are captured: the host
    reports the two lines and their translations are requested. *)
Example captions_captured_without_button :
  requests
    (Sample.after
       [RunJob; TimerFires 0; RunJob; Mutation Sample.noButton ChildList 3 [5; 6]]
       (initializeExtension (page Sample.noButton Sample.url)))
  = ["Guten Abend"; "Das Wetter"].
Proof. vm_compute. reflexivity. Qed.

(** ** Navigation *)

(** [cleanup] disconnects every observer of the list [observers]. *)
Lemma fold_disconnect_lookup os : forall st o m,
  mutationObservers (fold_left (fun s o => disconnect o s) os st) !! o = Some m ->
  (o ∈ os -> observing m = None)
  /\ exists m0, mutationObservers st !! o = Some m0 /\ callbackOf m = callbackOf m0
                /\ (observing m0 = None -> observing m = None).
Proof.
  induction os as [|o' os IH]; intros st o m; simpl.
  - intros H. split; [intros Hin; now apply elem_of_nil in Hin|]. eauto.
  - intros H. destruct (IH _ _ _ H) as (Hin & m1 & Hm1 & Hcb & Hnone).
    simpl in Hm1.
    destruct (decide (o' = o)) as [->|Hne].
    + rewrite list_lookup_alter_eq in Hm1.
      destruct (mutationObservers st !! o) as [m0|] eqn:Hm0; [|discriminate].
      injection Hm1 as <-. simpl in *.
      split; [auto|]. exists m0. auto.
    + rewrite list_lookup_alter_ne in Hm1 by auto.
      split; [|eauto].
      intros Hin'. apply elem_of_cons in Hin' as [->|Hin']; [congruence | auto].
Qed.

Lemma cleanup_disconnects st o m :
  o ∈ observers st ->
  mutationObservers (cleanup st) !! o = Some m ->
  observing m = None.
Proof.
  intros Hin H. unfold cleanup in H. simpl in H.
  now apply (fold_disconnect_lookup _ _ _ _ H).
Qed.

(** [setupNavigationDetection] puts the observer that watches the
    address on that list. *)
Lemma setupNavigationDetection_pushes st :
  let o := List.length (mutationObservers st) in
  o ∈ observers (setupNavigationDetection st)
  /\ mutationObservers (setupNavigationDetection st) !! o
     = Some {| callbackOf := UrlCallback; observing := Some (ChildListSubtree None) |}.
Proof.
  simpl. split.
  - apply elem_of_app. right. apply list_elem_of_singleton. reflexivity.
  - now apply list_lookup_middle.
Qed.

(** C4 does not hold of the script.  In the first session a change of
    the address followed by a mutation of the document sets the restart
    timer (500 ms).  The restart runs [cleanup], which disconnects the
    observer of the address with the others; in the second session the
    same two events set no timer, and the recorded address stays
    behind.  The back/forward event still restarts the session. *)
Theorem second_navigation_goes_unnoticed :
  let st0 := start false (Sample.player [] Sample.twoLines) Sample.url in
  let st1 := Sample.after [RunJob; RunJob; LocationChange Sample.url2;
                           Mutation (Sample.player [] Sample.twoLines) ChildList 1 []] st0 in
  let st2 := Sample.after Sample.firstNavigation st0 in
  let st3 := Sample.after Sample.secondNavigation st2 in
  timers st1 = [(500%N, Reinitialize)]
  /\ run Sample.firstNavigation st0 = Some st2
  /\ console st2 = [Initialized; Initialized]
  /\ mutationObservers st2 !! 0 = Some {| callbackOf := UrlCallback; observing := None |}
  /\ run Sample.secondNavigation st2 = Some st3
  /\ location st3 = Sample.url3
  /\ currentUrl st3 = Sample.url2
  /\ timers st3 = []
  /\ timers (Sample.after [Popstate Sample.url] st3) = [(500%N, Reinitialize)].
Proof. vm_compute. repeat split; reflexivity. Qed.

(** When the script is evaluated while the document is loading, the
    first initialization already disconnects the observer of the
    address: no change of the address is noticed through a mutation. *)
Example navigation_unnoticed_when_loading :
  let st := Sample.after [DOMContentLoaded; RunJob; RunJob; LocationChange Sample.url2;
                          Mutation (Sample.player [] Sample.twoLines) ChildList 1 []]
              (start true (Sample.player [] Sample.twoLines) Sample.url) in
  location st = Sample.url2 /\ currentUrl st = Sample.url /\ timers st = [].
Proof. vm_compute. repeat split; reflexivity. Qed.

End Lifecycle.

(* ===================================================================== *)
(** * Part XII.  The element waiter                                       *)
(* ===================================================================== *)

(** ** The references between the objects stay in range *)

Section WellFormed.

Lemma lookup_alter_disconnect (l : list mutationObserver) o x m :
  alter (fun m => {| callbackOf := callbackOf m; observing := None |}) o l !! x = Some m ->
  exists m0, l !! x = Some m0 /\ callbackOf m = callbackOf m0
             /\ (observing m = None \/ m = m0).
Proof.
  destruct (decide (o = x)) as [->|Hx].
  - rewrite list_lookup_alter_eq.
    destruct (l !! x) as [m0|]; [|discriminate].
    intros [= <-]. exists m0. simpl. auto.
  - rewrite list_lookup_alter_ne by auto. eauto.
Qed.

Lemma lookup_delete_Some {A} (l : list A) k j x :
  delete k l !! j = Some x -> l !! (if Nat.ltb j k then j else S j) = Some x.
Proof.
  destruct (Nat.ltb_spec j k).
  - now rewrite list_lookup_delete_lt by lia.
  - now rewrite list_lookup_delete_ge by lia.
Qed.

Lemma wellFormed_control st st' :
  control st' = control st -> wellFormed st -> wellFormed st'.
Proof.
  unfold control. intros [= Hp Hm Ht Ho]. unfold wellFormed.
  rewrite Hp, Hm, Ht, Ho. auto.
Qed.

Lemma wellFormed_new_promise st w :
  wellFormed st -> wellFormed (on_promises (fun l => l ++ [w]) st).
Proof.
  intros (G1 & G2 & G3 & G4).
  split; [|split; [|split]]; simpl; auto.
  - intros o' m p' Hm Hcb. rewrite length_app. specialize (G1 _ _ _ Hm Hcb). simpl. lia.
  - intros k' t p' o' Hk. rewrite length_app. destruct (G2 _ _ _ _ Hk). simpl. lia.
Qed.

Lemma wellFormed_observe st cb what :
  wellFormed st ->
  (forall p', cb = WaiterCallback p' -> p' < List.length (promises st)) ->
  (cb = PlayPauseCallback -> forall t, what <> ChildListSubtree t) ->
  wellFormed (snd (observe cb what st)).
Proof.
  intros (G1 & G2 & G3 & G4) Hcb Hpp.
  split; [|split; [|split]]; simpl; auto.
  - intros o' m p' Hm Hc. snoc_lookup Hm; subst; simpl in *; eauto.
  - intros k' t p' o' Hk. rewrite length_app. destruct (G2 _ _ _ _ Hk). simpl. lia.
  - intros o' Hin. rewrite length_app. specialize (G3 _ Hin). simpl. lia.
  - intros o' m t Hm Hc. snoc_lookup Hm; subst; simpl in *; eauto.
    intros [= ->]. now apply (Hpp Hc t).
Qed.

Lemma wellFormed_disconnect st o' : wellFormed st -> wellFormed (disconnect o' st).
Proof.
  intros (G1 & G2 & G3 & G4).
  split; [|split; [|split]]; simpl; auto.
  - intros x m p' Hm Hc. apply lookup_alter_disconnect in Hm as (m0 & Hm0 & E & _).
    rewrite E in Hc. eauto.
  - intros k' t p' x Hk. rewrite length_alter. eauto.
  - intros x Hin. rewrite length_alter. eauto.
  - intros x m t Hm Hc. apply lookup_alter_disconnect in Hm as (m0 & Hm0 & E & [Hn| ->]).
    + rewrite Hn. discriminate.
    + eauto.
Qed.

Lemma wellFormed_settle st p' r' : wellFormed st -> wellFormed (settle p' r' st).
Proof.
  intros HI. unfold settle.
  destruct (promises st !! p') as [w|] eqn:Hw; [|exact HI].
  destruct (status w) eqn:Hs; try exact HI.
  destruct HI as (G1 & G2 & G3 & G4).
  split; [|split; [|split]]; simpl; auto.
  - intros o' m p0 Hm Hc. rewrite length_insert. eauto.
  - intros k' t p0 o' Hk. rewrite length_insert. eauto.
Qed.

Lemma wellFormed_push st o' :
  wellFormed st -> o' < List.length (mutationObservers st) -> wellFormed (push o' st).
Proof.
  intros (G1 & G2 & G3 & G4) Hlt.
  split; [|split; [|split]]; simpl; auto.
  intros x Hin. apply elem_of_app in Hin as [Hin|Hin]; [auto|].
  apply list_elem_of_singleton in Hin. now subst.
Qed.

Lemma wellFormed_clear st : wellFormed st -> wellFormed (on_observers (fun _ => []) st).
Proof.
  intros (G1 & G2 & G3 & G4).
  split; [|split; [|split]]; simpl; auto.
  intros x Hin. now apply elem_of_nil in Hin.
Qed.

Lemma wellFormed_setTimeout st a t :
  wellFormed st ->
  (forall p' o', a = WaiterTimeout p' o' ->
     p' < List.length (promises st) /\ o' < List.length (mutationObservers st)) ->
  wellFormed (setTimeout a t st).
Proof.
  intros (G1 & G2 & G3 & G4) Ha.
  split; [|split; [|split]]; simpl; auto.
  intros k' t' p' o' Hk. snoc_lookup Hk; [eauto|].
  injection Hk as _ Ha'. now apply Ha.
Qed.

Lemma wellFormed_delete_timer st k' :
  wellFormed st -> wellFormed (on_timers (delete k') st).
Proof.
  intros (G1 & G2 & G3 & G4).
  split; [|split; [|split]]; simpl; auto.
  intros j t p' o' Hk. apply lookup_delete_Some in Hk. eauto.
Qed.

Lemma wellFormed_waitForElement st sel' t' k' :
  wellFormed st -> wellFormed (waitForElement sel' t' k' st).
Proof.
  intros HI. unfold waitForElement.
  set (w := {| selectorOf := sel'; status := Pending; awaitedBy := k' |}).
  pose proof (wellFormed_new_promise st w HI) as HI1.
  set (st1 := on_promises _ st) in *.
  destruct (querySelector sel' (document st1)) as [e|].
  - now apply wellFormed_settle.
  - assert (HI2 : wellFormed (snd (observe (WaiterCallback (List.length (promises st)))
                                     (ChildListSubtree None) st1))).
    { apply wellFormed_observe; [exact HI1| |discriminate].
      intros p' [= <-]. subst st1. simpl. rewrite length_app. simpl. lia. }
    simpl in *. apply wellFormed_setTimeout; [exact HI2|].
    intros p' o' [= <- <-]. simpl. rewrite !length_app. simpl. lia.
Qed.

Lemma wellFormed_cleanup st : wellFormed st -> wellFormed (cleanup st).
Proof.
  intros HI. unfold cleanup. apply wellFormed_clear.
  apply (fold_left_preserves wellFormed); [|exact HI].
  intros s x Hs. now apply wellFormed_disconnect.
Qed.

Lemma wellFormed_initializeExtension st :
  wellFormed st -> wellFormed (initializeExtension st).
Proof. intros HI. apply wellFormed_waitForElement. now apply wellFormed_cleanup. Qed.

Lemma wellFormed_resume st k' result :
  wellFormed st -> wellFormed (resume k' result st).
Proof.
  intros HI. unfold resume. destruct k', result; try exact HI.
  - pose proof (wellFormed_observe st CaptionCallback
                  (ChildListSubtree (Some (eid e))) HI) as HI1.
    simpl in *. apply wellFormed_waitForElement. apply wellFormed_push.
    + apply HI1; discriminate.
    + simpl. rewrite length_app. simpl. lia.
  - apply wellFormed_setTimeout; [exact HI | discriminate].
  - pose proof (wellFormed_observe st PlayPauseCallback
                  (ClassAttribute (eid e)) HI) as HI1.
    simpl in *.
    apply (wellFormed_push (snd (observe PlayPauseCallback (ClassAttribute (eid e)) st))).
    + apply HI1; discriminate.
    + simpl. rewrite length_app. simpl. lia.
Qed.

Lemma wellFormed_onNavigation st : wellFormed st -> wellFormed (onNavigation st).
Proof.
  intros HI. unfold onNavigation. destruct (String.eqb _ _); [exact HI|].
  apply wellFormed_setTimeout; [exact HI | discriminate].
Qed.

Lemma wellFormed_waiterCallback st p' o' :
  wellFormed st -> wellFormed (waiterCallback p' o' st).
Proof.
  intros HI. unfold waiterCallback. repeat case_match; try exact HI.
  apply wellFormed_settle. now apply wellFormed_disconnect.
Qed.

Lemma wellFormed_waiterTimeout st p' o' :
  wellFormed st -> wellFormed (waiterTimeout p' o' st).
Proof.
  intros HI. unfold waiterTimeout. repeat case_match; try exact HI.
  apply wellFormed_settle. now apply wellFormed_disconnect.
Qed.

Lemma control_storeSubtitle n st : control (storeSubtitle n st) = control st.
Proof. unfold storeSubtitle. frame. Qed.

Lemma control_captionCallback added st : control (captionCallback added st) = control st.
Proof.
  unfold captionCallback.
  apply (fold_left_preserves (fun s => control s = control st)); [|reflexivity].
  intros s id <-. unfold onAddedNode. frame. now rewrite control_storeSubtitle.
Qed.

Lemma control_showOne id st : control (showOne id st) = control st.
Proof. unfold showOne. frame. Qed.

Lemma control_checkAndShowSubtitles st : control (checkAndShowSubtitles st) = control st.
Proof.
  unfold checkAndShowSubtitles. frame. unfold showStoredSubtitle.
  apply (fold_left_preserves (fun s => control s = control st)); [|reflexivity].
  intros s q <-. apply control_showOne.
Qed.

Lemma control_onTranslation text t st : control (onTranslation text t st) = control st.
Proof. unfold onTranslation. frame. now rewrite control_checkAndShowSubtitles. Qed.

Lemma wellFormed_runCallback st cb o' added :
  wellFormed st -> wellFormed (runCallback cb o' added st).
Proof.
  intros HI. destruct cb; simpl.
  - now apply wellFormed_waiterCallback.
  - eapply wellFormed_control; [apply control_captionCallback | exact HI].
  - eapply wellFormed_control; [apply control_checkAndShowSubtitles | exact HI].
  - now apply wellFormed_onNavigation.
Qed.

Lemma wellFormed_deliver st kind site added o' :
  wellFormed st -> wellFormed (deliver kind site added o' st).
Proof.
  intros HI. unfold deliver. repeat case_match; try exact HI.
  now apply wellFormed_runCallback.
Qed.

Lemma wellFormed_notify st kind site added :
  wellFormed st -> wellFormed (notify kind site added st).
Proof.
  intros HI. unfold notify.
  apply (fold_left_preserves wellFormed); [|exact HI].
  intros s x Hs. now apply wellFormed_deliver.
Qed.

Lemma wellFormed_fire st action : wellFormed st -> wellFormed (fire action st).
Proof.
  intros HI. destruct action; simpl.
  - now apply wellFormed_waiterTimeout.
  - now apply wellFormed_initializeExtension.
  - now apply (wellFormed_initializeExtension (log Retrying st)).
Qed.

Lemma wellFormed_step ev st st' :
  wellFormed st -> step ev st = Some st' -> wellFormed st'.
Proof.
  intros HI. unfold step.
  destruct ev, (jobs st) as [|[k0 result] rest] eqn:Ejobs; try discriminate.
  - intros [= <-]. now apply (wellFormed_notify (on_document (fun _ => doc) st)).
  - now intros [= <-].
  - intros [= <-]. simpl. destruct (popstateListener st); [|exact HI].
    now apply (wellFormed_onNavigation (on_location (fun _ => url) st)).
  - intros [= <-]. destruct (domContentLoadedListener st); [|exact HI].
    now apply wellFormed_initializeExtension.
  - destruct (timers st !! k) as [[delay action]|]; [|discriminate].
    intros [= <-]. apply wellFormed_fire. now apply wellFormed_delete_timer.
  - intros [= <-]. now apply (wellFormed_resume (on_jobs (fun _ => rest) st)).
  - destruct (pendingRequests st !! k) as [text|] eqn:Ek; [|discriminate].
    intros [= <-].
    eapply wellFormed_control; [apply control_onTranslation | exact HI].
Qed.

Lemma wellFormed_page doc url : wellFormed (page doc url).
Proof. repeat split; simpl; intros; try discriminate. now apply elem_of_nil in H. Qed.

Lemma wellFormed_start loading doc url : wellFormed (start loading doc url).
Proof.
  unfold start, main.
  assert (H : wellFormed (if loading
                          then on_domContentLoadedListener (fun _ => true) (page doc url)
                          else initializeExtension (page doc url))).
  { destruct loading; [apply wellFormed_page|].
    apply wellFormed_initializeExtension, wellFormed_page. }
  revert H. generalize (if loading
                        then on_domContentLoadedListener (fun _ => true) (page doc url)
                        else initializeExtension (page doc url)).
  intros st HI. unfold setupNavigationDetection.
  pose proof (wellFormed_observe (on_popstateListener (fun _ => true) st)
                UrlCallback (ChildListSubtree None) HI) as HI1.
  simpl in *. apply wellFormed_push.
  - apply HI1; discriminate.
  - simpl. rewrite length_app. simpl. lia.
Qed.

Lemma wellFormed_reachable st : reachable st -> wellFormed st.
Proof.
  apply reachable_invariant.
  - apply wellFormed_start.
  - intros ev s s'. apply wellFormed_step.
Qed.

End WellFormed.

(** ** One wait, followed through the functions of the script

    [sel], [timeout] and [k] are the arguments of the call, [p] is the
    promise it made and [o] the observer. *)

Section Tracks.

Variables (sel : selector) (timeout : N) (k : continuation) (p o : nat).

Abbreviation tracking := (tracks sel timeout k p o).

Lemma tracking_control r i st st' :
  control st' = control st -> tracking r i st -> tracking r i st'.
Proof.
  unfold control. intros [= Hp Hm Ht Ho]. unfold tracks.
  rewrite Hp, Hm, Ht, Ho. auto.
Qed.

Lemma tracking_bounds r i st :
  tracking r i st ->
  p < List.length (promises st) /\ o < List.length (mutationObservers st).
Proof.
  intros [Hp Hr]. split; [eapply lookup_lt_Some; eauto|].
  destruct r; [destruct Hr as (Hm & _)| |]; eapply lookup_lt_Some; eauto.
Qed.

Lemma tracking_new_promise r i st w :
  tracking r i st -> tracking r i (on_promises (fun l => l ++ [w]) st).
Proof.
  intros HI. destruct (tracking_bounds _ _ _ HI) as [Hp Ho].
  destruct HI as [Hpr Hr]. split; simpl; auto.
  rewrite lookup_app_l by exact Hp. exact Hpr.
Qed.

Lemma tracking_observe r i st cb what :
  tracking r i st -> cb <> WaiterCallback p ->
  tracking r i (snd (observe cb what st)).
Proof.
  intros HI Hcb. destruct (tracking_bounds _ _ _ HI) as [Hp Ho].
  destruct HI as [Hpr Hr]. split; simpl; auto.
  destruct r; [|now rewrite lookup_app_l by exact Ho..].
  destruct Hr as (Hm & Ht & Hno & Hu & Hut).
  split; [now rewrite lookup_app_l by exact Ho|].
  split; [exact Ht|]. split; [exact Hno|]. split; [|exact Hut].
  intros o' m Hm' Hc. snoc_lookup Hm'; subst; simpl in *; eauto.
  contradiction.
Qed.

Lemma tracking_disconnect r i st o' :
  tracking r i st -> (r = Pending -> o' <> o) -> tracking r i (disconnect o' st).
Proof.
  intros [Hpr Hr] Hne. split; simpl; auto.
  destruct r.
  - destruct Hr as (Hm & Ht & Hno & Hu & Hut).
    split; [rewrite list_lookup_alter_ne by auto; exact Hm|].
    split; [exact Ht|]. split; [exact Hno|]. split; [|exact Hut].
    intros x m Hm' Hc. apply lookup_alter_disconnect in Hm' as (m0 & Hm0 & E & _).
    rewrite E in Hc. eauto.
  - destruct (decide (o' = o)) as [->|Hx].
    + rewrite list_lookup_alter_eq, Hr. reflexivity.
    + now rewrite list_lookup_alter_ne by auto.
  - destruct (decide (o' = o)) as [->|Hx].
    + rewrite list_lookup_alter_eq, Hr. reflexivity.
    + now rewrite list_lookup_alter_ne by auto.
Qed.

Lemma tracking_settle r i st p' r' :
  tracking r i st -> (r = Pending -> p' <> p) -> tracking r i (settle p' r' st).
Proof.
  intros HI Hne. unfold settle.
  destruct (promises st !! p') as [w|] eqn:Hw; [|exact HI].
  destruct (status w) eqn:Hs; try exact HI.
  destruct HI as [Hpr Hr]. split; simpl; auto.
  destruct (decide (p' = p)) as [->|Hx].
  - rewrite Hpr in Hw. injection Hw as <-. simpl in Hs. subst r.
    now specialize (Hne eq_refl).
  - now rewrite list_lookup_insert_ne by auto.
Qed.

Lemma tracking_push r i st o' :
  tracking r i st -> (r = Pending -> o' <> o) -> tracking r i (push o' st).
Proof.
  intros [Hpr Hr] Hne. split; simpl; auto.
  destruct r; auto.
  destruct Hr as (Hm & Ht & Hno & Hu & Hut).
  repeat split; auto.
  intros Hin. apply elem_of_app in Hin as [Hin|Hin]; [auto|].
  apply list_elem_of_singleton in Hin. now apply Hne.
Qed.

Lemma tracking_clear r i st : tracking r i st -> tracking r i (on_observers (fun _ => []) st).
Proof.
  intros [Hpr Hr]. split; simpl; auto.
  destruct r; auto.
  destruct Hr as (Hm & Ht & Hno & Hu & Hut).
  repeat split; auto. intros Hin. now apply elem_of_nil in Hin.
Qed.

Lemma tracking_setTimeout r i st a t :
  tracking r i st ->
  (forall p' o', a = WaiterTimeout p' o' -> p' <> p /\ o' <> o) ->
  tracking r i (setTimeout a t st).
Proof.
  intros [Hpr Hr] Ha. split; simpl; auto.
  destruct r; auto.
  destruct Hr as (Hm & Ht & Hno & Hu & Hut).
  split; [exact Hm|]. split.
  { rewrite lookup_app_l; [exact Ht|]. eapply lookup_lt_Some; eauto. }
  split; [exact Hno|]. split; [exact Hu|].
  intros k' t' p' o' Hk Hor. snoc_lookup Hk; [eauto|].
  injection Hk as _ Ha'. destruct (Ha _ _ Ha') as (? & ?).
  destruct Hor; congruence.
Qed.

(** another timer is taken off the list *)
Lemma tracking_delete_timer r i st k' :
  tracking r i st -> k' <> i ->
  tracking r (if Nat.ltb k' i then pred i else i) (on_timers (delete k') st).
Proof.
  intros [Hpr Hr] Hne. split; simpl; auto.
  destruct r; auto.
  destruct Hr as (Hm & Ht & Hno & Hu & Hut).
  split; [exact Hm|]. split; [|split; [exact Hno|split; [exact Hu|]]].
  - destruct (Nat.ltb_spec k' i).
    + rewrite list_lookup_delete_ge by lia.
      replace (S (pred i)) with i by lia. exact Ht.
    + rewrite list_lookup_delete_lt by lia. exact Ht.
  - intros j t p' o' Hk Hor. apply lookup_delete_Some in Hk.
    specialize (Hut _ _ _ _ Hk Hor).
    destruct (Nat.ltb_spec j k'), (Nat.ltb_spec k' i); lia.
Qed.

Lemma tracking_settled_index r i j st :
  r <> Pending -> tracking r i st -> tracking r j st.
Proof. intros Hr [Hp H]. split; [exact Hp|]. destruct r; [contradiction|exact H..]. Qed.

Lemma tracking_waitForElement r i st sel' t' k' :
  tracking r i st -> tracking r i (waitForElement sel' t' k' st).
Proof.
  intros HI. destruct (tracking_bounds _ _ _ HI) as [Hp Ho].
  unfold waitForElement.
  set (w := {| selectorOf := sel'; status := Pending; awaitedBy := k' |}).
  pose proof (tracking_new_promise r i st w HI) as HI1.
  set (st1 := on_promises _ st) in *.
  destruct (querySelector sel' (document st1)) as [e|].
  - apply tracking_settle; [exact HI1|]. intros _. lia.
  - assert (HI2 : tracking r i (snd (observe (WaiterCallback (List.length (promises st)))
                                       (ChildListSubtree None) st1))).
    { apply tracking_observe; [exact HI1|]. intros [= E]. lia. }
    simpl in *. apply tracking_setTimeout; [exact HI2|].
    intros p' o' [= <- <-]. lia.
Qed.

Lemma tracking_cleanup r i st : tracking r i st -> tracking r i (cleanup st).
Proof.
  intros HI. unfold cleanup. apply tracking_clear.
  assert (Hno : r = Pending -> o ∉ observers st).
  { intros ->. now destruct HI as (_ & _ & _ & Hno & _). }
  revert HI Hno. generalize (observers st) as os. intros os. revert st.
  induction os as [|o' os IH]; intros st HI Hno; simpl; [exact HI|].
  apply IH.
  - apply tracking_disconnect; [exact HI|].
    intros E ->. apply (Hno E). apply elem_of_cons. now left.
  - intros E Hin. apply (Hno E). apply elem_of_cons. now right.
Qed.

Lemma tracking_initializeExtension r i st :
  tracking r i st -> tracking r i (initializeExtension st).
Proof. intros HI. apply tracking_waitForElement. now apply tracking_cleanup. Qed.

Lemma tracking_resume r i st k' result :
  tracking r i st -> tracking r i (resume k' result st).
Proof.
  intros HI. destruct (tracking_bounds _ _ _ HI) as [Hp Ho].
  unfold resume. destruct k', result; try exact HI.
  - pose proof (tracking_observe r i st CaptionCallback
                  (ChildListSubtree (Some (eid e))) HI) as HI1.
    simpl in *. apply tracking_waitForElement. apply tracking_push.
    + apply HI1; discriminate.
    + intros _. lia.
  - apply tracking_setTimeout; [exact HI | discriminate].
  - pose proof (tracking_observe r i st PlayPauseCallback
                  (ClassAttribute (eid e)) HI) as HI1.
    simpl in *.
    apply (tracking_push r i (snd (observe PlayPauseCallback (ClassAttribute (eid e)) st))).
    + apply HI1; discriminate.
    + intros _. lia.
Qed.

Lemma tracking_onNavigation r i st : tracking r i st -> tracking r i (onNavigation st).
Proof.
  intros HI. unfold onNavigation. destruct (String.eqb _ _); [exact HI|].
  apply tracking_setTimeout; [exact HI | discriminate].
Qed.

(** the callback or the timer of another wait *)
Lemma tracking_waiterCallback r i st p' o' :
  tracking r i st -> (r = Pending -> p' <> p /\ o' <> o) ->
  tracking r i (waiterCallback p' o' st).
Proof.
  intros HI Hne. unfold waiterCallback. repeat case_match; try exact HI.
  apply tracking_settle; [|intros E; now apply Hne].
  apply tracking_disconnect; [exact HI | intros E; now apply Hne].
Qed.

Lemma tracking_waiterTimeout r i st p' o' :
  tracking r i st -> (r = Pending -> p' <> p /\ o' <> o) ->
  tracking r i (waiterTimeout p' o' st).
Proof.
  intros HI Hne. unfold waiterTimeout. repeat case_match; try exact HI.
  apply tracking_settle; [|intros E; now apply Hne].
  apply tracking_disconnect; [exact HI | intros E; now apply Hne].
Qed.

(** ** The wait's own callback and timer *)

Lemma own_callback_match i st e :
  tracking Pending i st ->
  querySelector sel (document st) = Some e ->
  tracking (Fulfilled e) i (waiterCallback p o st).
Proof.
  intros (Hp & Hm & Ht & Hno & Hu & Hut) Hq.
  unfold waiterCallback. rewrite Hp. simpl. rewrite Hq.
  unfold settle. simpl. rewrite Hp. simpl.
  split; simpl.
  - apply list_lookup_insert_eq. eapply lookup_lt_Some; eauto.
  - rewrite list_lookup_alter_eq, Hm. reflexivity.
Qed.

Lemma own_callback_no_match i st :
  tracking Pending i st ->
  querySelector sel (document st) = None ->
  waiterCallback p o st = st.
Proof.
  intros (Hp & _) Hq. unfold waiterCallback. rewrite Hp. simpl. now rewrite Hq.
Qed.

Lemma own_timeout i st :
  tracking Pending i st ->
  tracking (Rejected (timeoutMessage sel)) i (waiterTimeout p o (on_timers (delete i) st)).
Proof.
  intros (Hp & Hm & Ht & Hno & Hu & Hut).
  unfold waiterTimeout. simpl. rewrite Hp. simpl.
  unfold settle. simpl. rewrite Hp. simpl.
  split; simpl.
  - apply list_lookup_insert_eq. eapply lookup_lt_Some; eauto.
  - rewrite list_lookup_alter_eq, Hm. reflexivity.
Qed.

(** ** Deliveries *)

Lemma tracking_deliver_other r i st kind site added o' :
  tracking r i st -> (r = Pending -> o' <> o) ->
  tracking r i (deliver kind site added o' st).
Proof.
  intros HI Hne. unfold deliver.
  destruct (mutationObservers st !! o') as [m|] eqn:Hm; [|exact HI].
  destruct (observing m) as [what|]; [|exact HI].
  destruct (concerns what kind site (document st)); [|exact HI].
  destruct (callbackOf m) as [p'| | |] eqn:Hcb; simpl.
  - apply tracking_waiterCallback; [exact HI|].
    intros ->. split; [|now apply Hne].
    intros ->. destruct HI as (_ & _ & _ & _ & Hu & _).
    apply (Hne eq_refl). eapply Hu; eauto.
  - eapply tracking_control; [apply control_captionCallback | exact HI].
  - eapply tracking_control; [apply control_checkAndShowSubtitles | exact HI].
  - now apply tracking_onNavigation.
Qed.

Lemma deliver_own_classAttr i st site added :
  tracking Pending i st -> deliver ClassAttr site added o st = st.
Proof. intros (_ & Hm & _). unfold deliver. rewrite Hm. reflexivity. Qed.

Lemma deliver_own_childList i st site added :
  tracking Pending i st -> deliver ChildList site added o st = waiterCallback p o st.
Proof. intros (_ & Hm & _). unfold deliver. rewrite Hm. reflexivity. Qed.

Lemma tracking_deliver_classAttr r i st site added o' :
  tracking r i st -> tracking r i (deliver ClassAttr site added o' st).
Proof.
  intros HI. destruct (decide (o' = o)) as [->|Hne].
  - destruct r; [now rewrite (deliver_own_classAttr i) | |];
      apply tracking_deliver_other; auto; discriminate.
  - apply tracking_deliver_other; auto.
Qed.

Lemma tracking_fold_deliver r i kind site added os : forall st,
  tracking r i st -> (r = Pending -> o ∉ os) ->
  tracking r i (fold_left (fun s o' => deliver kind site added o' s) os st).
Proof.
  induction os as [|o' os IH]; intros st HI Hno; simpl; [exact HI|].
  apply IH.
  - apply tracking_deliver_other; [exact HI|].
    intros E ->. apply (Hno E). apply elem_of_cons. now left.
  - intros E Hin. apply (Hno E). apply elem_of_cons. now right.
Qed.

End Tracks.

(** ** What leaves the document alone *)

Section Documents.

Lemma document_settle p r st : document (settle p r st) = document st.
Proof. unfold settle. frame. Qed.

Lemma document_waiterCallback p o st : document (waiterCallback p o st) = document st.
Proof. unfold waiterCallback. frame. now rewrite document_settle. Qed.

Lemma document_storeSubtitle n st : document (storeSubtitle n st) = document st.
Proof. unfold storeSubtitle. frame. Qed.

Lemma document_captionCallback added st : document (captionCallback added st) = document st.
Proof.
  unfold captionCallback.
  apply (fold_left_preserves (fun s => document s = document st)); [|reflexivity].
  intros s id <-. unfold onAddedNode. frame. now rewrite document_storeSubtitle.
Qed.

Lemma document_onNavigation st : document (onNavigation st) = document st.
Proof. unfold onNavigation. frame. Qed.

(** While the observers are told of a change of the tree, the document
    stays as the host left it. *)
Lemma document_deliver_childList st site added o :
  wellFormed st -> document (deliver ChildList site added o st) = document st.
Proof.
  intros (_ & _ & _ & G4). unfold deliver.
  destruct (mutationObservers st !! o) as [m|] eqn:Hm; [|reflexivity].
  destruct (observing m) as [what|] eqn:Hobs; [|reflexivity].
  destruct (concerns what ChildList site (document st)) eqn:Hc; [|reflexivity].
  destruct (callbackOf m) as [p'| | |] eqn:Hcb; simpl.
  - apply document_waiterCallback.
  - apply document_captionCallback.
  - destruct what as [t|b]; [|discriminate].
    now destruct (G4 _ _ t Hm Hcb).
  - apply document_onNavigation.
Qed.

Lemma document_fold_deliver_childList site added os : forall st,
  wellFormed st ->
  wellFormed (fold_left (fun s o => deliver ChildList site added o s) os st)
  /\ document (fold_left (fun s o => deliver ChildList site added o s) os st)
     = document st.
Proof.
  induction os as [|o os IH]; intros st HI; simpl; [auto|].
  destruct (IH (deliver ChildList site added o st)) as [H1 H2].
  - now apply wellFormed_deliver.
  - split; [exact H1|]. rewrite H2. now apply document_deliver_childList.
Qed.

End Documents.

(** ** One wait, followed through the events *)

Section Outcome.

Variables (sel : selector) (timeout : N) (k : continuation) (p o : nat).

Abbreviation tracking := (tracks sel timeout k p o).

Lemma waitOutcome_cons ev rest i :
  waitOutcome sel i (ev :: rest)
  = match waitOutcome sel i [ev] with
    | Pending => waitOutcome sel (timerAfter ev i) rest
    | r => r
    end.
Proof.
  destruct ev as [doc [] site added| | | |k'| |]; simpl; try reflexivity.
  - destruct (querySelector sel doc); reflexivity.
  - destruct (Nat.eqb k' i); reflexivity.
Qed.

Lemma notify_childList i st site added :
  wellFormed st -> tracking Pending i st ->
  tracking (match querySelector sel (document st) with
            | Some e => Fulfilled e
            | None => Pending
            end) i (notify ChildList site added st).
Proof.
  intros Hwf HI. destruct (tracking_bounds _ _ _ _ _ _ _ _ HI) as [_ Ho].
  unfold notify.
  replace (List.length (mutationObservers st))
    with (o + S (List.length (mutationObservers st) - S o)) by lia.
  rewrite seq_app, fold_left_app. simpl.
  set (before := fold_left _ (seq 0 o) st).
  destruct (document_fold_deliver_childList site added (seq 0 o) st Hwf) as [Hwf1 Hd1].
  fold before in Hwf1, Hd1.
  assert (HI1 : tracking Pending i before).
  { apply tracking_fold_deliver; [exact HI|].
    intros _ Hin. apply elem_of_seq in Hin. lia. }
  rewrite (deliver_own_childList _ _ _ _ _ i) by exact HI1.
  rewrite <- Hd1.
  destruct (querySelector sel (document before)) as [e|] eqn:Hq.
  - apply tracking_fold_deliver; [|discriminate].
    now apply own_callback_match.
  - rewrite (own_callback_no_match _ _ _ _ _ i before HI1 Hq).
    apply tracking_fold_deliver; [exact HI1|].
    intros _ Hin. apply elem_of_seq in Hin. lia.
Qed.

Lemma tracking_notify_classAttr r i st site added :
  tracking r i st -> tracking r i (notify ClassAttr site added st).
Proof.
  intros HI. unfold notify.
  generalize (seq 0 (List.length (mutationObservers st))) as os.
  intros os. revert st HI.
  induction os as [|o' os IH]; intros st HI; simpl; [exact HI|].
  apply IH. now apply tracking_deliver_classAttr.
Qed.

Lemma tracking_notify_settled r i st kind site added :
  r <> Pending -> tracking r i st -> tracking r i (notify kind site added st).
Proof.
  intros Hr HI. unfold notify. apply tracking_fold_deliver; [exact HI|].
  intros ->. contradiction.
Qed.

Lemma tracking_fire r i st action :
  tracking r i st ->
  (r = Pending -> forall p' o', action = WaiterTimeout p' o' -> p' <> p /\ o' <> o) ->
  tracking r i (fire action st).
Proof.
  intros HI Hne. destruct action as [p' o'| |]; simpl.
  - apply tracking_waiterTimeout; [exact HI|]. intros E. now apply (Hne E).
  - now apply tracking_initializeExtension.
  - now apply (tracking_initializeExtension _ _ _ _ _ r i (log Retrying st)).
Qed.

(** One event, the wait pending. *)
Lemma step_tracking ev i st st' :
  wellFormed st -> tracking Pending i st -> step ev st = Some st' ->
  tracking (waitOutcome sel i [ev]) (timerAfter ev i) st'.
Proof.
  intros Hwf HI. unfold step.
  destruct ev as [doc kind site added|url|url| |k'| |k' r],
           (jobs st) as [|[k0 result] rest] eqn:Ejobs;
    try discriminate; intros [= E]; simpl.
  - subst st'. destruct kind.
    + apply (notify_childList i (on_document (fun _ => doc) st)); auto.
    + now apply (tracking_notify_classAttr Pending i (on_document (fun _ => doc) st)).
  - now subst st'.
  - subst st'. destruct (popstateListener st); [|exact HI].
    now apply (tracking_onNavigation _ _ _ _ _ Pending i (on_location (fun _ => url) st)).
  - subst st'. destruct (domContentLoadedListener st); [|exact HI].
    now apply tracking_initializeExtension.
  - destruct (timers st !! k') as [[delay action]|] eqn:Hk; [|discriminate].
    injection E as <-.
    destruct (Nat.eqb_spec k' i) as [->|Hne].
    + destruct HI as (Hp & Hm & Ht & Hrest).
      rewrite Ht in Hk. injection Hk as <- <-. simpl.
      apply tracking_settled_index with (i := i); [discriminate|].
      apply own_timeout. repeat split; auto; apply Hrest.
    + apply tracking_fire.
      * now apply tracking_delete_timer.
      * intros _ p' o' ->. destruct HI as (_ & _ & _ & _ & _ & Hut).
        split; intros ->; apply Hne; eapply Hut; eauto.
  - subst st'. now apply (tracking_resume _ _ _ _ _ Pending i (on_jobs (fun _ => rest) st)).
  - destruct (pendingRequests st !! k') as [text|]; [|discriminate].
    injection E as <-.
    eapply tracking_control; [apply control_onTranslation | exact HI].
Qed.

(** One event, the wait settled. *)
Lemma step_tracking_settled r ev i st st' :
  r <> Pending -> tracking r i st -> step ev st = Some st' -> tracking r i st'.
Proof.
  intros Hr HI. unfold step.
  destruct ev as [doc kind site added|url|url| |k'| |k' r'],
           (jobs st) as [|[k0 result] rest] eqn:Ejobs;
    try discriminate; intros [= E]; simpl.
  - subst st'.
    now apply (tracking_notify_settled r i (on_document (fun _ => doc) st)).
  - now subst st'.
  - subst st'. destruct (popstateListener st); [|exact HI].
    now apply (tracking_onNavigation _ _ _ _ _ r i (on_location (fun _ => url) st)).
  - subst st'. destruct (domContentLoadedListener st); [|exact HI].
    now apply tracking_initializeExtension.
  - destruct (timers st !! k') as [[delay action]|] eqn:Hk; [|discriminate].
    injection E as <-.
    apply tracking_fire; [|intros ->; contradiction].
    destruct HI as [Hp Hs]. split; [exact Hp|].
    destruct r; [contradiction | exact Hs..].
  - subst st'. now apply (tracking_resume _ _ _ _ _ r i (on_jobs (fun _ => rest) st)).
  - destruct (pendingRequests st !! k') as [text|]; [|discriminate].
    injection E as <-.
    eapply tracking_control; [apply control_onTranslation | exact HI].
Qed.

Lemma run_tracking_settled r evs : forall i st st',
  r <> Pending -> tracking r i st -> run evs st = Some st' -> tracking r i st'.
Proof.
  induction evs as [|ev evs IH]; intros i st st' Hr HI; simpl.
  - now intros [= <-].
  - destruct (step ev st) as [st1|] eqn:E; [|discriminate].
    apply IH; [exact Hr|]. eapply step_tracking_settled; eauto.
Qed.

Lemma run_tracking evs : forall i st st',
  wellFormed st -> tracking Pending i st -> run evs st = Some st' ->
  exists j, tracking (waitOutcome sel i evs) j st'.
Proof.
  induction evs as [|ev evs IH]; intros i st st' Hwf HI.
  - simpl. intros [= <-]. eauto.
  - simpl run. destruct (step ev st) as [st1|] eqn:E; [|discriminate].
    intros Hrun. rewrite waitOutcome_cons.
    pose proof (step_tracking ev i st st1 Hwf HI E) as H1.
    pose proof (wellFormed_step ev st st1 Hwf E) as Hwf1.
    destruct (waitOutcome sel i [ev]) as [|e|msg] eqn:Eo.
    + eapply IH; eauto.
    + eexists.
      eapply (run_tracking_settled _ evs _ st1 st'); [discriminate | exact H1 | exact Hrun].
    + eexists.
      eapply (run_tracking_settled _ evs _ st1 st'); [discriminate | exact H1 | exact Hrun].
Qed.

End Outcome.

(** ** Settled promises *)

Section Settled.

(** A settled promise stays as it is. *)

Lemma settledAs_promises p w st st' :
  promises st' = promises st -> settledAs p w st -> settledAs p w st'.
Proof. unfold settledAs. now intros ->. Qed.

Lemma settledAs_control p w st st' :
  control st' = control st -> settledAs p w st -> settledAs p w st'.
Proof. unfold control. intros [= Hp _ _ _]. now apply settledAs_promises. Qed.

Lemma settledAs_settle p w st p' r' : settledAs p w st -> settledAs p w (settle p' r' st).
Proof.
  intros [Hp Hs]. unfold settle.
  destruct (promises st !! p') as [w'|] eqn:Hw; [|now split].
  destruct (status w') eqn:Hs'; try now split.
  split; [|exact Hs]. simpl.
  rewrite list_lookup_insert_ne; [exact Hp|].
  intros ->. rewrite Hp in Hw. injection Hw as <-. contradiction.
Qed.

Lemma settledAs_waitForElement p w st sel' t' k' :
  settledAs p w st -> settledAs p w (waitForElement sel' t' k' st).
Proof.
  intros [Hp Hs]. unfold waitForElement.
  set (st1 := on_promises _ st).
  assert (H1 : settledAs p w st1).
  { split; [|exact Hs]. simpl. rewrite lookup_app_l; [exact Hp|].
    eapply lookup_lt_Some; eauto. }
  destruct (querySelector sel' (document st1)); [now apply settledAs_settle|].
  exact H1.
Qed.

Lemma settledAs_waiterCallback p w st p' o' :
  settledAs p w st -> settledAs p w (waiterCallback p' o' st).
Proof.
  intros H. unfold waiterCallback. repeat case_match; try exact H.
  now apply settledAs_settle.
Qed.

Lemma settledAs_waiterTimeout p w st p' o' :
  settledAs p w st -> settledAs p w (waiterTimeout p' o' st).
Proof.
  intros H. unfold waiterTimeout. repeat case_match; try exact H.
  now apply settledAs_settle.
Qed.

Lemma settledAs_initializeExtension p w st :
  settledAs p w st -> settledAs p w (initializeExtension st).
Proof.
  intros H. apply settledAs_waitForElement.
  eapply settledAs_promises; [|exact H]. apply cleanup_frame.
Qed.

Lemma settledAs_resume p w st k' result :
  settledAs p w st -> settledAs p w (resume k' result st).
Proof.
  intros H. unfold resume. destruct k', result; try exact H.
  simpl. now apply settledAs_waitForElement.
Qed.

Lemma settledAs_onNavigation p w st : settledAs p w st -> settledAs p w (onNavigation st).
Proof. intros H. unfold onNavigation. now destruct (String.eqb _ _). Qed.

Lemma settledAs_deliver p w st kind site added o' :
  settledAs p w st -> settledAs p w (deliver kind site added o' st).
Proof.
  intros H. unfold deliver. repeat case_match; try exact H.
  destruct (callbackOf _); simpl.
  - now apply settledAs_waiterCallback.
  - eapply settledAs_control; [apply control_captionCallback | exact H].
  - eapply settledAs_control; [apply control_checkAndShowSubtitles | exact H].
  - now apply settledAs_onNavigation.
Qed.

Lemma settledAs_step p w ev st st' :
  settledAs p w st -> step ev st = Some st' -> settledAs p w st'.
Proof.
  intros H. unfold step.
  destruct ev as [doc kind site added|url|url| |k'| |k' r'],
           (jobs st) as [|[k0 result] rest] eqn:Ejobs;
    try discriminate; intros [= E]; simpl.
  - subst st'. unfold notify.
    apply (fold_left_preserves (settledAs p w)); [|exact H].
    intros s x Hs. now apply settledAs_deliver.
  - now subst st'.
  - subst st'. destruct (popstateListener st); [|exact H].
    now apply (settledAs_onNavigation p w (on_location (fun _ => url) st)).
  - subst st'. destruct (domContentLoadedListener st); [|exact H].
    now apply settledAs_initializeExtension.
  - destruct (timers st !! k') as [[delay action]|] eqn:Hk; [|discriminate].
    injection E as <-. destruct action; simpl.
    + now apply settledAs_waiterTimeout.
    + now apply (settledAs_initializeExtension p w (on_timers (delete k') st)).
    + now apply (settledAs_initializeExtension p w (log Retrying (on_timers (delete k') st))).
  - subst st'. now apply (settledAs_resume p w (on_jobs (fun _ => rest) st)).
  - destruct (pendingRequests st !! k') as [text|]; [|discriminate].
    injection E as <-.
    eapply settledAs_control; [apply control_onTranslation | exact H].
Qed.

Lemma settledAs_run p w evs st st' :
  settledAs p w st -> run evs st = Some st' -> settledAs p w st'.
Proof. apply run_preserves. intros ev s s'. apply settledAs_step. Qed.

End Settled.

(** ** The call and what comes of it *)

Section ElementWaiter.

Lemma waitForElement_present sel timeout k st0 e :
  querySelector sel (document st0) = Some e ->
  let st1 := waitForElement sel timeout k st0 in
  settledAs (List.length (promises st0))
    {| selectorOf := sel; status := Fulfilled e; awaitedBy := k |} st1
  /\ mutationObservers st1 = mutationObservers st0
  /\ timers st1 = timers st0
  /\ jobs st1 = jobs st0 ++ [(k, Fulfilled e)].
Proof.
  intros Hq. unfold waitForElement. simpl. rewrite Hq.
  unfold settle. simpl. rewrite list_lookup_middle by reflexivity. simpl.
  repeat split; try discriminate.
  simpl. apply list_lookup_insert_eq. rewrite length_app. simpl. lia.
Qed.

Lemma waitForElement_absent sel timeout k st0 :
  wellFormed st0 ->
  querySelector sel (document st0) = None ->
  tracks sel timeout k (List.length (promises st0)) (List.length (mutationObservers st0))
    Pending (List.length (timers st0)) (waitForElement sel timeout k st0).
Proof.
  intros (G1 & G2 & G3 & G4) Hq. unfold waitForElement. simpl. rewrite Hq. simpl.
  split; [|split; [|split; [|split; [|split]]]]; simpl.
  - now apply list_lookup_middle.
  - now apply list_lookup_middle.
  - now apply list_lookup_middle.
  - intros Hin. apply G3 in Hin. lia.
  - intros o' m Hm Hc. apply lookup_snoc_Some in Hm as [[Hlt Hm]|[-> _]]; [|reflexivity].
    specialize (G1 _ _ _ Hm Hc). lia.
  - intros k' t p' o' Hk Hor.
    apply lookup_snoc_Some in Hk as [[Hlt Hk]|[-> _]]; [|reflexivity].
    destruct (G2 _ _ _ _ Hk). lia.
Qed.



End ElementWaiter.

(* ===================================================================== *)
(** * Part XIII.  Casing and the caption text                            *)
(* ===================================================================== *)

Section Casing.

Lemma length_append s t :
  String.length (s +:+ t) = String.length s + String.length t.
Proof. induction s as [|c s IH]; simpl; [reflexivity|]. now rewrite IH. Qed.

Lemma length_toLowerCase s : String.length (toLowerCase s) = String.length s.
Proof. induction s as [|c s IH]; simpl; [reflexivity|]. now rewrite IH. Qed.

Lemma length_toUpperCase s : String.length (toUpperCase s) = String.length s.
Proof. induction s as [|c s IH]; simpl; [reflexivity|]. now rewrite IH. Qed.

Lemma length_replace_from s : String.length (replace_from s) = String.length s.
Proof.
  funelim (replace_from s).
  - reflexivity.
  - match goal with
    | IH : String.length (replace_from _) = _, E : match_period _ = Some _ |- _ =>
        rewrite length_append, length_toUpperCase, IH;
        rewrite (match_period_split _ _ _ E);
        now rewrite length_append
    end.
  - match goal with
    | IH : String.length (replace_from _) = _ |- _ => simpl; now rewrite IH
    end.
Qed.

Lemma length_replaceSentenceStarts s :
  String.length (replaceSentenceStarts s) = String.length s.
Proof.
  unfold replaceSentenceStarts.
  destruct (match_start s) as [[m k]|] eqn:E.
  - rewrite length_append, length_toUpperCase, length_replace_from.
    rewrite (match_start_split _ _ _ E). now rewrite length_append.
  - apply length_replace_from.
Qed.

Lemma length_sentenceCase s : String.length (sentenceCase s) = String.length s.
Proof.
  unfold sentenceCase. now rewrite length_replaceSentenceStarts, length_toLowerCase.
Qed.

Lemma toLowerCase_sentenceCase s : toLowerCase (sentenceCase s) = toLowerCase s.
Proof.
  unfold sentenceCase.
  now rewrite toLowerCase_replaceSentenceStarts, toLowerCase_idempotent.
Qed.

Lemma sentenceCase_fixed s : sentenceCase (sentenceCase s) = sentenceCase s.
Proof. unfold sentenceCase at 1. now rewrite toLowerCase_sentenceCase. Qed.

Lemma sentenceCase_empty s : sentenceCase s = "" <-> s = "".
Proof.
  split; [|now intros ->].
  intros H. apply (f_equal String.length) in H. rewrite length_sentenceCase in H.
  now destruct s.
Qed.

(** X1.  Sentence casing (lines 158-160) changes the case of letters and
    nothing else: the cased text has the length of the text it was made
    from and the same lower-case form, so no character is added, dropped
    or moved, and it is empty only if the text was.  (The texts are the
    strings of this development, of characters up to U+00FF.) *)
Theorem sentenceCase_changes_case_only (s : string) :
  String.length (sentenceCase s) = String.length s
  /\ toLowerCase (sentenceCase s) = toLowerCase s
  /\ (sentenceCase s = "" <-> s = "").
Proof.
  split; [apply length_sentenceCase|].
  split; [apply toLowerCase_sentenceCase | apply sentenceCase_empty].
Qed.

Lemma toLowerChar_period c : toLowerChar c = PERIOD -> c = PERIOD.
Proof.
  destruct c as [[] [] [] [] [] [] [] []]; vm_compute; congruence.
Qed.

Lemma occurs_toLowerCase s :
  occurs PERIOD s = false -> occurs PERIOD (toLowerCase s) = false.
Proof.
  induction s as [|c s IH]; simpl; [reflexivity|].
  intros H. apply orb_false_iff in H as [Hc Hs].
  rewrite (IH Hs), orb_false_r.
  apply Ascii.eqb_neq. intros E. apply toLowerChar_period in E.
  apply Ascii.eqb_neq in Hc. contradiction.
Qed.

Lemma replace_from_no_period s : occurs PERIOD s = false -> replace_from s = s.
Proof.
  funelim (replace_from s); intros Hocc.
  - reflexivity.
  - match goal with
    | E : match_period (String ?c ?r) = Some _ |- _ =>
        pose proof E as E'; simpl in E', Hocc;
        apply orb_false_iff in Hocc as [Hc _];
        rewrite Hc in E'; discriminate
    end.
  - simpl in Hocc. apply orb_false_iff in Hocc as [_ Hr].
    match goal with
    | IH : _ -> replace_from _ = _ |- _ => simpl; now rewrite (IH Hr)
    end.
Qed.

(** X2.  A text without a period is cased as one sentence: everything
    is put in lower case, and the first character, if it is a letter, a
    digit or an underscore, in upper case.  Capitals inside the text
    (names, "I") are lost, and a text that starts with another character
    keeps no capital at all. *)
Theorem sentenceCase_without_period (s : string) :
  occurs PERIOD s = false ->
  sentenceCase s = capitalizeFirst (toLowerCase s).
Proof.
  intros H. apply occurs_toLowerCase in H.
  unfold sentenceCase, replaceSentenceStarts, capitalizeFirst, match_start.
  destruct (toLowerCase s) as [|c r]; [reflexivity|].
  destruct (isWord c).
  - simpl in H. apply orb_false_iff in H as [_ Hr].
    simpl. now rewrite (replace_from_no_period r Hr).
  - now apply replace_from_no_period.
Qed.

Lemma sentenceCase_without_period_witness :
  occurs PERIOD "the weather in Berlin" = false
  /\ sentenceCase "the weather in Berlin"
     = capitalizeFirst (toLowerCase "the weather in Berlin")
  /\ capitalizeFirst (toLowerCase "the weather in Berlin") = "The weather in berlin".
Proof.
  split; [reflexivity|]. split; [|reflexivity].
  apply (sentenceCase_without_period "the weather in Berlin"). reflexivity.
Defined.

(** X3.  [fetchTranslation] resolves to the empty string in two cases
    and no other: something was thrown inside the [try] block, or the
    service answered with fragments that join to the empty text.  The
    caller cannot tell the two apart. *)
Theorem fetchTranslation_empty_result (r : response) :
  fetchTranslation r = ""
  <-> fetchThrows r = true
      \/ exists result, r = Json result /\ extractText result = Some "".
Proof.
  destruct r as [| |result]; simpl.
  - split; [now left | reflexivity].
  - split; [now left | reflexivity].
  - destruct (extractText result) as [t|] eqn:E.
    + rewrite sentenceCase_empty. split.
      * intros ->. right. now exists result.
      * intros [H|(res & [= <-] & H)]; [discriminate|]. congruence.
    + split; [now left | reflexivity].
Qed.

End Casing.

Section CaptionText.

Lemma isWhiteSpace_newline c :
  isWhiteSpace (if Ascii.eqb c LF then SP else c) = isWhiteSpace c.
Proof. destruct (Ascii.eqb c LF) eqn:E; [|reflexivity]. apply Ascii.eqb_eq in E. now subst. Qed.

Lemma replaceNewlines_trimStart s :
  trimStart (replaceNewlines s) = replaceNewlines (trimStart s).
Proof.
  induction s as [|c s IH]; simpl; [reflexivity|].
  rewrite isWhiteSpace_newline. now destruct (isWhiteSpace c).
Qed.

Lemma isEmpty_replaceNewlines s : isEmpty (replaceNewlines s) = isEmpty s.
Proof. now destruct s. Qed.

Lemma replaceNewlines_trimEnd s :
  trimEnd (replaceNewlines s) = replaceNewlines (trimEnd s).
Proof.
  induction s as [|c s IH]; simpl; [reflexivity|].
  rewrite isWhiteSpace_newline, IH, isEmpty_replaceNewlines.
  now destruct (isWhiteSpace c && isEmpty (trimEnd s)).
Qed.

Lemma replaceNewlines_trim s : trim (replaceNewlines s) = replaceNewlines (trim s).
Proof. unfold trim. now rewrite replaceNewlines_trimStart, replaceNewlines_trimEnd. Qed.

Lemma replaceNewlines_idempotent s :
  replaceNewlines (replaceNewlines s) = replaceNewlines s.
Proof.
  induction s as [|c s IH]; simpl; [reflexivity|]. rewrite IH.
  now destruct (Ascii.eqb c LF) eqn:E; [|rewrite E].
Qed.

Lemma occurs_replaceNewlines s : occurs LF (replaceNewlines s) = false.
Proof.
  induction s as [|c s IH]; simpl; [reflexivity|]. rewrite IH, orb_false_r.
  now destruct (Ascii.eqb c LF) eqn:E.
Qed.

Lemma trimEnd_idempotent s : trimEnd (trimEnd s) = trimEnd s.
Proof.
  induction s as [|c s IH]; simpl; [reflexivity|].
  destruct (isWhiteSpace c && isEmpty (trimEnd s)) eqn:E; [reflexivity|].
  simpl. now rewrite IH, E.
Qed.

Lemma trimStart_starts s :
  match trimStart s with String c _ => isWhiteSpace c = false | EmptyString => True end.
Proof.
  induction s as [|c s IH]; simpl; [exact I|].
  destruct (isWhiteSpace c) eqn:E; [exact IH | exact E].
Qed.

Lemma trimStart_trimEnd_trimStart s :
  trimStart (trimEnd (trimStart s)) = trimEnd (trimStart s).
Proof.
  pose proof (trimStart_starts s) as H.
  destruct (trimStart s) as [|c r]; [reflexivity|].
  simpl. rewrite H. simpl. now rewrite H.
Qed.

Lemma trim_idempotent s : trim (trim s) = trim s.
Proof.
  unfold trim. now rewrite trimStart_trimEnd_trimStart, trimEnd_idempotent.
Qed.

Lemma captionText_fixed s :
  replaceNewlines (trim (replaceNewlines (trim s))) = replaceNewlines (trim s).
Proof. now rewrite replaceNewlines_trim, trim_idempotent, replaceNewlines_idempotent. Qed.

(** X4.  The caption text of line 95 (and of line 129) is in normal
    form: it has no line break, trimming it again changes nothing, and a
    node that shows this very text has it as its caption text.  A
    paragraph re-created by the player with the text of a cache key is
    therefore found under that key. *)
Theorem captionText_canonical (n : node) :
  captionText (Text (captionText n)) = captionText n
  /\ trim (captionText n) = captionText n
  /\ occurs LF (captionText n) = false.
Proof.
  unfold captionText. simpl. split; [apply captionText_fixed|]. split.
  - now rewrite replaceNewlines_trim, trim_idempotent.
  - apply occurs_replaceNewlines.
Qed.

End CaptionText.

(* ===================================================================== *)
(** * Part XIV.  The cache and the caption nodes                         *)
(* ===================================================================== *)

Section TranslationsPass.

Variable P : state -> Prop.

Hypothesis P_frame : forall st st', translations st' = translations st -> P st -> P st'.
Hypothesis P_storeSubtitle : forall originalP st, P st -> P (storeSubtitle originalP st).
Hypothesis P_answer : forall k text r st,
  P st -> pendingRequests st !! k = Some text ->
  P (onTranslation text (fetchTranslation r) (on_pendingRequests (delete k) st)).

Lemma pass_onAddedNode id st : P st -> P (onAddedNode id st).
Proof.
  intros H. unfold onAddedNode. repeat case_match; try exact H.
  apply P_storeSubtitle. revert H. now apply P_frame.
Qed.

Lemma pass_deliver kind site added o st : P st -> P (deliver kind site added o st).
Proof.
  intros H. unfold deliver. repeat case_match; try exact H.
  destruct (callbackOf _); simpl.
  - revert H. apply P_frame, translations_waiterCallback.
  - unfold captionCallback. apply (fold_left_preserves P); [|exact H].
    intros s id. apply pass_onAddedNode.
  - revert H. apply P_frame, translations_checkAndShowSubtitles.
  - revert H. apply P_frame, translations_onNavigation.
Qed.

Lemma pass_step ev st st' : P st -> step ev st = Some st' -> P st'.
Proof.
  intros H. unfold step.
  destruct ev as [doc kind site added|url|url| |k'| |k' r'],
           (jobs st) as [|[k0 result] rest] eqn:Ejobs;
    try discriminate; intros [= E].
  - subst st'. unfold notify. apply (fold_left_preserves P).
    + intros s o. apply pass_deliver.
    + revert H. now apply P_frame.
  - subst st'. revert H. now apply P_frame.
  - subst st'. revert H. apply P_frame. destruct (popstateListener st); [|reflexivity].
    now rewrite translations_onNavigation.
  - subst st'. destruct (domContentLoadedListener st); [|exact H].
    revert H. apply P_frame, translations_initializeExtension.
  - destruct (timers st !! k') as [[delay action]|] eqn:Hk; [|discriminate].
    injection E as <-. revert H. apply P_frame. now rewrite translations_fire.
  - subst st'. revert H. apply P_frame. now rewrite translations_resume.
  - destruct (pendingRequests st !! k') as [text|] eqn:Hk; [|discriminate].
    injection E as <-. now apply P_answer.
Qed.

Lemma pass_run evs : forall st st', P st -> run evs st = Some st' -> P st'.
Proof.
  induction evs as [|ev evs IH]; intros st st' H; simpl.
  - now intros [= <-].
  - destruct (step ev st) as [st1|] eqn:E; [|discriminate].
    apply IH. eapply pass_step; eauto.
Qed.

End TranslationsPass.

Section CacheContents.

Lemma cacheClean_frame st st' :
  translations st' = translations st -> cacheClean st -> cacheClean st'.
Proof. unfold translations, cacheClean. intros [= -> _ _]. auto. Qed.

Lemma cacheClean_storeSubtitle originalP st :
  cacheClean st -> cacheClean (storeSubtitle originalP st).
Proof.
  intros [Hk Hv]. unfold storeSubtitle.
  destruct (isEmpty (captionText originalP)) eqn:Ee; [now split|].
  destruct (translationCache st !! captionText originalP) eqn:E; [now split|].
  split; simpl.
  - intros text. destruct (decide (text = captionText originalP)) as [->|Hne].
    + intros _. split.
      * intros Hempty. now rewrite Hempty in Ee.
      * unfold captionText. simpl. apply captionText_fixed.
    + rewrite lookup_insert_ne by auto. apply Hk.
  - intros text t. destruct (decide (text = captionText originalP)) as [->|Hne].
    + rewrite lookup_insert_eq. discriminate.
    + rewrite lookup_insert_ne by auto. apply Hv.
Qed.

Lemma cacheClean_answer k text r st :
  cacheInvariant st /\ cacheClean st ->
  pendingRequests st !! k = Some text ->
  cacheClean (onTranslation text (fetchTranslation r) (on_pendingRequests (delete k) st)).
Proof.
  intros [(_ & _ & _ & Hpend) [Hk Hv]] Hlk. unfold onTranslation.
  destruct (isEmpty (fetchTranslation r)) eqn:Ee; [now split|].
  apply (cacheClean_frame
           (on_translationCache (<[text := Some (fetchTranslation r)]>)
              (on_pendingRequests (delete k) st))).
  { now rewrite translations_checkAndShowSubtitles. }
  assert (Hin : is_Some (translationCache st !! text)).
  { rewrite (Hpend text); [eauto|]. eapply list_elem_of_lookup_2; eauto. }
  split; simpl.
  - intros x. destruct (decide (x = text)) as [->|Hne].
    + intros _. now apply Hk.
    + rewrite lookup_insert_ne by auto. apply Hk.
  - intros x t. destruct (decide (x = text)) as [->|Hne].
    + rewrite lookup_insert_eq. intros [= <-]. split.
      * intros Hempty. now rewrite Hempty in Ee.
      * destruct r as [| |result]; try reflexivity. simpl.
        destruct (extractText result); [apply sentenceCase_fixed | reflexivity].
    + rewrite lookup_insert_ne by auto. apply Hv.
Qed.

Lemma cacheClean_reachable st : reachable st -> cacheInvariant st /\ cacheClean st.
Proof.
  intros (loading & doc & url & evs & Hrun).
  refine (pass_run (fun st => cacheInvariant st /\ cacheClean st) _ _ _ evs _ _ _ Hrun).
  - intros s1 s2 Ht [HI HC]. split.
    + pose proof Ht as Ht'. unfold translations in Ht'. injection Ht' as Hc Hr Hp.
      unfold cacheInvariant. rewrite Hc, Hr, Hp. exact HI.
    + eapply cacheClean_frame; eauto.
  - intros originalP s [HI HC]. split.
    + now apply keeps_storeSubtitle.
    + now apply cacheClean_storeSubtitle.
  - intros k text r s [HI HC] Hk. split.
    + now apply keeps_response.
    + now apply cacheClean_answer.
  - split; [apply cacheInvariant_start|].
    apply (cacheClean_frame (page doc url)).
    { now rewrite translations_start. }
    split; intros text; simpl; rewrite lookup_empty.
    + intros [x Hx]. discriminate.
    + discriminate.
Qed.

(** X5.  In every state the script can reach, each key of the cache is
    a caption text in normal form that is not empty (line 96 lets no
    empty text in), and each translation stored is not empty (line 101)
    and is in sentence case: casing it again gives it back. *)
Theorem cache_holds_caption_texts_and_cased_translations (st : state) :
  reachable st ->
  (forall text, is_Some (translationCache st !! text) ->
                text <> "" /\ captionText (Text text) = text)
  /\ (forall text t, translationCache st !! text = Some (Some t) ->
                     t <> "" /\ sentenceCase t = t).
Proof. intros H. now apply cacheClean_reachable. Qed.

Lemma entryFinal_frame text v sent st st' :
  translations st' = translations st -> entryFinal text v sent st -> entryFinal text v sent st'.
Proof. unfold translations, entryFinal. intros [= -> -> ->]. auto. Qed.

Lemma entryFinal_storeSubtitle text v sent originalP st :
  entryFinal text v sent st -> entryFinal text v sent (storeSubtitle originalP st).
Proof.
  intros (Hc & Hp & more & Hr & Hm). unfold storeSubtitle.
  destruct (isEmpty (captionText originalP)); [now repeat split; eauto|].
  destruct (translationCache st !! captionText originalP) eqn:E; [now repeat split; eauto|].
  assert (Hne : captionText originalP <> text) by congruence.
  split; [|split]; simpl.
  - now rewrite lookup_insert_ne.
  - rewrite elem_of_app, list_elem_of_singleton. intros [H|H]; auto.
  - exists (more ++ [captionText originalP]). rewrite Hr, app_assoc. split; [reflexivity|].
    rewrite elem_of_app, list_elem_of_singleton. intros [H|H]; auto.
Qed.

Lemma reachable_answered : reachable Scenario.answered.
Proof.
  exists false, (Sample.player [PAUSED_MARKER] Sample.twoLines), Sample.url,
    (Sample.captionsReported ++ [Response 0 Scenario.answer]).
  vm_compute. reflexivity.
Qed.

Lemma cache_holds_caption_texts_and_cased_translations_witness :
  translationCache Scenario.answered !! "Guten Abend" = Some (Some "Good evening")
  /\ sentenceCase "Good evening" = "Good evening"
  /\ captionText (Text "Guten Abend") = "Guten Abend".
Proof.
  assert (H : translationCache Scenario.answered !! "Guten Abend"
              = Some (Some "Good evening")) by (vm_compute; reflexivity).
  split; [exact H|].
  destruct (cache_holds_caption_texts_and_cased_translations
              Scenario.answered reachable_answered) as [Hk Hv].
  split.
  - apply (Hv "Guten Abend" "Good evening" H).
  - apply (Hk "Guten Abend"). rewrite H. eexists. reflexivity.
Defined.

Lemma entryFinal_answer text v sent k text' r st :
  entryFinal text v sent st ->
  pendingRequests st !! k = Some text' ->
  entryFinal text v sent
    (onTranslation text' (fetchTranslation r) (on_pendingRequests (delete k) st)).
Proof.
  intros (Hc & Hp & Hr) Hk.
  assert (Hne : text' <> text).
  { intros ->. apply Hp. eapply list_elem_of_lookup_2; eauto. }
  assert (Hp' : text ∉ delete k (pendingRequests st)).
  { intros Hin. apply Hp. eapply elem_of_sublist; [exact Hin | apply sublist_delete]. }
  unfold onTranslation. destruct (isEmpty (fetchTranslation r)); [now repeat split|].
  apply (entryFinal_frame text v sent
           (on_translationCache (<[text' := Some (fetchTranslation r)]>)
              (on_pendingRequests (delete k) st))).
  { now rewrite translations_checkAndShowSubtitles. }
  split; [|split]; simpl; auto.
  now rewrite lookup_insert_ne.
Qed.

Lemma entryFinal_run text v sent evs st st' :
  entryFinal text v sent st -> run evs st = Some st' -> entryFinal text v sent st'.
Proof.
  intros H Hrun.
  refine (pass_run (entryFinal text v sent) _ _ _ evs _ _ H Hrun).
  - intros s1 s2. apply entryFinal_frame.
  - intros originalP s. apply entryFinal_storeSubtitle.
  - intros k text' r s. apply entryFinal_answer.
Qed.

(** X6.  The answer to a request settles the entry of its text for
    good.  After the answer the entry holds the translation, or still
    the placeholder when the result was empty (a failure or an empty
    translation); whatever happens afterwards, the entry stays as it is,
    no request for the text is under way and none is sent again.  So a
    failed translation is never retried, and a caption with that text
    never gets one. *)
Theorem answered_entry_is_final
    (st : state) (k : nat) (text : string) (r : response)
    (evs : list event) (st' : state) :
  reachable st ->
  pendingRequests st !! k = Some text ->
  run (Response k r :: evs) st = Some st' ->
  translationCache st' !! text
    = Some (if isEmpty (fetchTranslation r) then None else Some (fetchTranslation r))
  /\ (text ∉ pendingRequests st')
  /\ exists more, requests st' = requests st ++ more /\ (text ∉ more).
Proof.
  intros Hreach Hk Hrun.
  change (run (Response k r :: evs) st)
    with (match step (Response k r) st with
          | Some s => run evs s
          | None => None
          end) in Hrun.
  destruct (step (Response k r) st) as [st1|] eqn:Hstep; [|discriminate].
  refine (entryFinal_run text _ (requests st) evs st1 st' _ Hrun).
  clear Hrun. unfold step in Hstep.
  destruct (jobs st); [|discriminate]. rewrite Hk in Hstep.
  cbv beta iota in Hstep. injection Hstep as <-.
  destruct (cacheInvariant_reachable st Hreach) as (Hnd & Hdom & Hsub & Hpend).
  assert (Hin : text ∈ pendingRequests st) by (eapply list_elem_of_lookup_2; eauto).
  assert (Hout : text ∉ delete k (pendingRequests st)).
  { eapply not_elem_of_delete_NoDup; eauto. eapply sublist_NoDup; eauto. }
  unfold onTranslation. destruct (isEmpty (fetchTranslation r)).
  - split; [|split]; simpl; auto.
    exists []. rewrite app_nil_r. split; [reflexivity | apply not_elem_of_nil].
  - apply (entryFinal_frame text _ (requests st)
             (on_translationCache (<[text := Some (fetchTranslation r)]>)
                (on_pendingRequests (delete k) st))).
    { now rewrite translations_checkAndShowSubtitles. }
    split; [|split]; simpl; auto.
    + apply lookup_insert_eq.
    + exists []. rewrite app_nil_r. split; [reflexivity | apply not_elem_of_nil].
Qed.

Lemma answered_entry_is_final_witness :
  pendingRequests Sample.reported !! 0 = Some "Guten Abend"
  /\ translationCache Scenario.final !! "Guten Abend" = Some (Some "Good evening")
  /\ ("Guten Abend" ∉ pendingRequests Scenario.final).
Proof.
  assert (Hk : pendingRequests Sample.reported !! 0 = Some "Guten Abend")
    by (vm_compute; reflexivity).
  split; [exact Hk|].
  pose proof (answered_entry_is_final Sample.reported 0 "Guten Abend" Scenario.answer
                Scenario.sameTextAgain Scenario.final reachable_reported Hk) as H.
  specialize (H ltac:(vm_compute; reflexivity)).
  destruct H as (H1 & H2 & _).
  split; [exact H1 | exact H2].
Defined.

End CacheContents.

Section Marks.

Lemma marks_settle p r st : marks (settle p r st) = marks st.
Proof. unfold settle. frame. Qed.

Lemma marks_waitForElement sel t k st : marks (waitForElement sel t k st) = marks st.
Proof. unfold waitForElement. frame; now rewrite marks_settle. Qed.

Lemma marks_waiterCallback p o st : marks (waiterCallback p o st) = marks st.
Proof. unfold waiterCallback. frame; now rewrite marks_settle. Qed.

Lemma marks_waiterTimeout p o st : marks (waiterTimeout p o st) = marks st.
Proof. unfold waiterTimeout. frame; now rewrite marks_settle. Qed.

Lemma marks_cleanup st : marks (cleanup st) = marks st.
Proof.
  unfold cleanup.
  change (marks (fold_left (fun s o => disconnect o s) (observers st) st) = marks st).
  apply (fold_left_preserves (fun s => marks s = marks st)); auto.
Qed.

Lemma marks_initializeExtension st : marks (initializeExtension st) = marks st.
Proof. unfold initializeExtension. now rewrite marks_waitForElement, marks_cleanup. Qed.

Lemma marks_resume k r st : marks (resume k r st) = marks st.
Proof. unfold resume. frame; now rewrite marks_waitForElement. Qed.

Lemma marks_showOne id st : marks (showOne id st) = marks st.
Proof.
  unfold showOne, marks, submitted, write.
  repeat case_match; simplify_eq; simpl; rewrite ?omap_app; simpl;
    rewrite ?app_nil_r; reflexivity.
Qed.

Lemma marks_showStoredSubtitle st : marks (showStoredSubtitle st) = marks st.
Proof.
  unfold showStoredSubtitle.
  apply (fold_left_preserves (fun s => marks s = marks st)); auto.
  intros s p <-. apply marks_showOne.
Qed.

Lemma marks_checkAndShowSubtitles st : marks (checkAndShowSubtitles st) = marks st.
Proof. unfold checkAndShowSubtitles. frame. apply marks_showStoredSubtitle. Qed.

Lemma marks_onNavigation st : marks (onNavigation st) = marks st.
Proof. unfold onNavigation. frame. Qed.

Lemma marks_storeSubtitle n st : marks (storeSubtitle n st) = marks st.
Proof. unfold storeSubtitle. frame. Qed.

Lemma marks_onTranslation text t st : marks (onTranslation text t st) = marks st.
Proof. unfold onTranslation. frame. now rewrite marks_checkAndShowSubtitles. Qed.

Lemma marks_fire action st : marks (fire action st) = marks st.
Proof.
  destruct action; simpl.
  - apply marks_waiterTimeout.
  - apply marks_initializeExtension.
  - now rewrite marks_initializeExtension.
Qed.

Lemma marksInvariant_frame st st' : marks st' = marks st -> marksInvariant st -> marksInvariant st'.
Proof. unfold marks, marksInvariant. intros [= -> ->]. auto. Qed.

Lemma onAddedNode_marked id st :
  truthy (dataTranslated st !! id) = true -> onAddedNode id st = st.
Proof. intros H. unfold onAddedNode. repeat case_match; congruence. Qed.

Lemma marksInvariant_onAddedNode id st :
  marksInvariant st -> marksInvariant (onAddedNode id st).
Proof.
  intros [Hnd Hm]. unfold onAddedNode.
  repeat case_match; try (split; assumption).
  match goal with Ht : truthy _ = false |- _ => rename Ht into Hfalse end.
  apply (marksInvariant_frame
           (write (SetDataTranslated id "true") (on_dataTranslated (<[id := "true"]>) st))).
  { apply marks_storeSubtitle. }
  assert (Hsub : submitted (write (SetDataTranslated id "true")
                              (on_dataTranslated (<[id := "true"]>) st))
                 = submitted st ++ [id]).
  { unfold submitted, write. simpl. now rewrite omap_app. }
  unfold marksInvariant. rewrite Hsub. simpl. split.
  - apply NoDup_app. split; [exact Hnd|]. split; [|apply NoDup_singleton].
    intros x Hx Hx'. apply list_elem_of_singleton in Hx'. subst x.
    rewrite (Hm id Hx) in Hfalse. discriminate.
  - intros x. rewrite elem_of_app, list_elem_of_singleton.
    destruct (decide (x = id)) as [->|Hne].
    + intros _. apply lookup_insert_eq.
    + rewrite lookup_insert_ne by auto. intros [Hx|Hx]; [auto | contradiction].
Qed.

Lemma marksInvariant_deliver kind site added o st :
  marksInvariant st -> marksInvariant (deliver kind site added o st).
Proof.
  intros H. unfold deliver. repeat case_match; try exact H.
  destruct (callbackOf _); simpl.
  - revert H. apply marksInvariant_frame, marks_waiterCallback.
  - unfold captionCallback. apply (fold_left_preserves marksInvariant); [|exact H].
    intros s id. apply marksInvariant_onAddedNode.
  - revert H. apply marksInvariant_frame, marks_checkAndShowSubtitles.
  - revert H. apply marksInvariant_frame, marks_onNavigation.
Qed.

Lemma marksInvariant_step ev st st' :
  marksInvariant st -> step ev st = Some st' -> marksInvariant st'.
Proof.
  intros H. unfold step.
  destruct ev as [doc kind site added|url|url| |k'| |k' r'],
           (jobs st) as [|[k0 result] rest] eqn:Ejobs;
    try discriminate; intros [= E].
  - subst st'. unfold notify. apply (fold_left_preserves marksInvariant).
    + intros s o. apply marksInvariant_deliver.
    + revert H. now apply marksInvariant_frame.
  - subst st'. revert H. now apply marksInvariant_frame.
  - subst st'. revert H. apply marksInvariant_frame.
    destruct (popstateListener st); [|reflexivity]. now rewrite marks_onNavigation.
  - subst st'. destruct (domContentLoadedListener st); [|exact H].
    revert H. apply marksInvariant_frame, marks_initializeExtension.
  - destruct (timers st !! k') as [[delay action]|] eqn:Hk; [|discriminate].
    injection E as <-. revert H. apply marksInvariant_frame. now rewrite marks_fire.
  - subst st'. revert H. apply marksInvariant_frame. now rewrite marks_resume.
  - destruct (pendingRequests st !! k') as [text|] eqn:Hk; [|discriminate].
    injection E as <-. revert H. apply marksInvariant_frame.
    now rewrite marks_onTranslation.
Qed.

Lemma marksInvariant_start loading doc url : marksInvariant (start loading doc url).
Proof.
  apply (marksInvariant_frame (page doc url)).
  - unfold start, main, setupNavigationDetection. destruct loading; [reflexivity|].
    simpl. change (marks (initializeExtension (page doc url)) = marks (page doc url)).
    apply marks_initializeExtension.
  - split; [apply NoDup_nil_2|]. intros id Hin. now apply elem_of_nil in Hin.
Qed.

Lemma marksInvariant_reachable st : reachable st -> marksInvariant st.
Proof.
  revert st. apply (reachable_invariant marksInvariant).
  - apply marksInvariant_start.
  - intros ev s s'. apply marksInvariant_step.
Qed.

(** X7.  A caption node is passed to [storeSubtitle] at most once, by
    whichever caption observer is told of it first: the nodes submitted
    so far are all different and each carries the mark
    [data-translated="true"], and a batch that lists only such nodes
    changes nothing in the state.  (The mark is the script's own; the
    page is taken not to remove it.) *)
Theorem caption_node_submitted_once (st : state) :
  reachable st ->
  NoDup (submitted st)
  /\ (forall id, id ∈ submitted st -> dataTranslated st !! id = Some "true")
  /\ (forall added, (forall id, id ∈ added -> id ∈ submitted st) ->
                    captionCallback added st = st).
Proof.
  intros Hreach. destruct (marksInvariant_reachable st Hreach) as [Hnd Hm].
  split; [exact Hnd|]. split; [exact Hm|].
  intros added. unfold captionCallback.
  induction added as [|id added IH]; intros Hall; simpl; [reflexivity|].
  rewrite onAddedNode_marked.
  - apply IH. intros x Hx. apply Hall. now right.
  - rewrite (Hm id); [reflexivity|]. apply Hall. now left.
Qed.

Lemma caption_node_submitted_once_witness :
  submitted Sample.reported = [5; 6]
  /\ NoDup (submitted Sample.reported)
  /\ captionCallback [6; 5; 6] Sample.reported = Sample.reported.
Proof.
  assert (Hs : submitted Sample.reported = [5; 6]) by (vm_compute; reflexivity).
  split; [exact Hs|].
  destruct (caption_node_submitted_once Sample.reported reachable_reported)
    as (Hnd & _ & Hbatch).
  split; [exact Hnd|].
  apply Hbatch. intros id. rewrite Hs, !elem_of_cons, elem_of_nil. tauto.
Defined.

End Marks.

Section CaptionFilter.

Lemma contains_In c l : contains c l = true <-> In c l.
Proof.
  unfold contains. rewrite existsb_exists. split.
  - intros (x & Hx & E). apply String.eqb_eq in E. now subst.
  - intros H. exists c. split; [exact H | apply String.eqb_refl].
Qed.

Lemma closestIn_Simple c chain g :
  closestIn (Simple c) chain = Some g -> In g chain /\ matchesCompound c g = true.
Proof.
  induction chain as [|e chain IH]; simpl; [discriminate|].
  destruct (matchesCompound c e) eqn:E.
  - intros [= <-]. auto.
  - intros H. destruct (IH H). auto.
Qed.



End CaptionFilter.

(* ===================================================================== *)
(** * Part XV.  Rendering and the state of the player                    *)
(* ===================================================================== *)

Section RenderingOnly.

Lemma patched_same st : patched (document st) [] st = st.
Proof. destruct st. unfold patched, on_domWrites, on_document. simpl. now rewrite app_nil_r. Qed.

Lemma patched_patched d1 m1 d2 m2 st :
  patched d2 m2 (patched d1 m1 st) = patched d2 (m1 ++ m2) st.
Proof. destruct st. unfold patched, on_domWrites, on_document. simpl. now rewrite app_assoc. Qed.

Lemma write_patched w st : write w st = patched (document st) [w] st.
Proof. now destruct st. Qed.

Lemma on_document_patched f st : on_document f st = patched (f (document st)) [] st.
Proof. destruct st. unfold patched, on_domWrites, on_document. simpl. now rewrite app_nil_r. Qed.

Lemma document_patched doc more st : document (patched doc more st) = doc.
Proof. reflexivity. Qed.

Lemma showOne_patched id st :
  exists doc more, showOne id st = patched doc more st /\ forallb (fun w => negb (isMark w)) more = true.
Proof.
  unfold showOne.
  repeat case_match; simplify_eq;
    try (exists (document st), []; split; [now rewrite patched_same | reflexivity]);
    rewrite ?write_patched, ?on_document_patched, ?patched_patched, ?document_patched;
    eexists _, _; (split; [reflexivity|]); reflexivity.
Qed.

Lemma showStoredSubtitle_patched st :
  exists doc more, showStoredSubtitle st = patched doc more st
                   /\ forallb (fun w => negb (isMark w)) more = true.
Proof.
  unfold showStoredSubtitle.
  generalize (querySelectorAll SEL_CAPTION (document st)) as ps. intros ps.
  assert (G : forall s, (exists doc more, s = patched doc more st
                          /\ forallb (fun w => negb (isMark w)) more = true) ->
                        exists doc more,
                          fold_left (fun s originalP => showOne (eid originalP) s) ps s
                          = patched doc more st
                          /\ forallb (fun w => negb (isMark w)) more = true).
  { induction ps as [|p ps IH]; intros s Hs; simpl; [exact Hs|].
    apply IH. destruct Hs as (d1 & m1 & -> & H1).
    destruct (showOne_patched (eid p) (patched d1 m1 st)) as (d2 & m2 & -> & H2).
    exists d2, (m1 ++ m2). split; [apply patched_patched|].
    rewrite forallb_app, H1, H2. reflexivity. }
  apply G. exists (document st), []. split; [now rewrite patched_same | reflexivity].
Qed.

(** X9.  [checkAndShowSubtitles], and with it [showStoredSubtitle],
    writes to the document and to nothing else: the state after it is
    the state before it with a new document and more writes, none of
    which is a mark of a caption node.  The cache, the requests, the
    observers, the timers and the promises are as they were; and with a
    player that is not paused the document and the writes are too. *)
Theorem rendering_only_writes_the_document (st : state) :
  exists doc more,
    checkAndShowSubtitles st = patched doc more st
    /\ forallb (fun w => negb (isMark w)) more = true
    /\ (paused (document st) = false -> doc = document st /\ more = []).
Proof.
  unfold checkAndShowSubtitles, paused.
  destruct (querySelector SEL_PLAYPAUSE (document st)) as [b|].
  - destruct (contains PAUSED_MARKER (classList b)).
    + destruct (showStoredSubtitle_patched st) as (doc & more & H1 & H2).
      exists doc, more. split; [exact H1|]. split; [exact H2 | discriminate].
    + exists (document st), []. split; [now rewrite patched_same|]. auto.
  - exists (document st), []. split; [now rewrite patched_same|]. auto.
Qed.

End RenderingOnly.

Section Playing.

Lemma rendering_settle p r st : rendering (settle p r st) = rendering st.
Proof. unfold settle. frame. Qed.

Lemma rendering_waitForElement sel t k st : rendering (waitForElement sel t k st) = rendering st.
Proof. unfold waitForElement. frame; now rewrite rendering_settle. Qed.

Lemma rendering_waiterCallback p o st : rendering (waiterCallback p o st) = rendering st.
Proof. unfold waiterCallback. frame; now rewrite rendering_settle. Qed.

Lemma rendering_waiterTimeout p o st : rendering (waiterTimeout p o st) = rendering st.
Proof. unfold waiterTimeout. frame; now rewrite rendering_settle. Qed.

Lemma rendering_cleanup st : rendering (cleanup st) = rendering st.
Proof.
  unfold cleanup.
  change (rendering (fold_left (fun s o => disconnect o s) (observers st) st) = rendering st).
  apply (fold_left_preserves (fun s => rendering s = rendering st)); auto.
Qed.

Lemma rendering_initializeExtension st : rendering (initializeExtension st) = rendering st.
Proof. unfold initializeExtension. now rewrite rendering_waitForElement, rendering_cleanup. Qed.

Lemma rendering_resume k r st : rendering (resume k r st) = rendering st.
Proof. unfold resume. frame; now rewrite rendering_waitForElement. Qed.

Lemma rendering_storeSubtitle n st : rendering (storeSubtitle n st) = rendering st.
Proof. unfold storeSubtitle. frame. Qed.

Lemma rendering_onAddedNode id st : rendering (onAddedNode id st) = rendering st.
Proof.
  unfold onAddedNode. repeat case_match; try reflexivity.
  rewrite rendering_storeSubtitle. unfold rendering, rendered, write. simpl.
  rewrite List.filter_app. simpl. now rewrite app_nil_r.
Qed.

Lemma rendering_captionCallback added st : rendering (captionCallback added st) = rendering st.
Proof.
  unfold captionCallback.
  apply (fold_left_preserves (fun s => rendering s = rendering st)); [|reflexivity].
  intros s id <-. apply rendering_onAddedNode.
Qed.

Lemma rendering_onNavigation st : rendering (onNavigation st) = rendering st.
Proof. unfold onNavigation. frame. Qed.

Lemma rendering_fire action st : rendering (fire action st) = rendering st.
Proof.
  destruct action; simpl.
  - apply rendering_waiterTimeout.
  - apply rendering_initializeExtension.
  - now rewrite rendering_initializeExtension.
Qed.

Lemma checkAndShowSubtitles_playing st :
  paused (document st) = false -> checkAndShowSubtitles st = st.
Proof.
  unfold paused, checkAndShowSubtitles.
  destruct (querySelector SEL_PLAYPAUSE (document st)); [|reflexivity].
  now intros ->.
Qed.

Lemma rendering_deliver kind site added o st :
  paused (document st) = false ->
  rendering (deliver kind site added o st) = rendering st.
Proof.
  intros Hp. unfold deliver. repeat case_match; try reflexivity.
  destruct (callbackOf _); simpl.
  - apply rendering_waiterCallback.
  - apply rendering_captionCallback.
  - now rewrite checkAndShowSubtitles_playing.
  - apply rendering_onNavigation.
Qed.

Lemma rendering_fold_deliver kind site added os : forall st,
  paused (document st) = false ->
  rendering (fold_left (fun s o => deliver kind site added o s) os st) = rendering st.
Proof.
  induction os as [|o os IH]; intros st Hp; simpl; [reflexivity|].
  pose proof (rendering_deliver kind site added o st Hp) as H.
  rewrite IH; [exact H|].
  unfold rendering in H. injection H as Hd _. now rewrite Hd.
Qed.

Lemma rendered_on_document f st : rendered (on_document f st) = rendered st.
Proof. reflexivity. Qed.

Lemma step_playing ev st st' :
  step ev st = Some st' ->
  paused (documentAfter ev st) = false ->
  document st' = documentAfter ev st /\ rendered st' = rendered st.
Proof.
  unfold step.
  destruct ev as [doc kind site added|url|url| |k'| |k' r'],
           (jobs st) as [|[k0 result] rest] eqn:Ejobs;
    try discriminate; intros [= E] Hp; simpl in Hp |- *.
  - subst st'. unfold notify.
    pose proof (rendering_fold_deliver kind site added
                  (seq 0 (List.length (mutationObservers (on_document (fun _ => doc) st))))
                  (on_document (fun _ => doc) st) Hp) as H.
    unfold rendering in H. injection H as H1 H2. auto.
  - subst st'. auto.
  - subst st'. destruct (popstateListener st); [|auto].
    pose proof (rendering_onNavigation (on_location (fun _ => url) st)) as H.
    unfold rendering in H. injection H as H1 H2. auto.
  - subst st'. destruct (domContentLoadedListener st); [|auto].
    pose proof (rendering_initializeExtension st) as H.
    unfold rendering in H. injection H as H1 H2. auto.
  - destruct (timers st !! k') as [[delay action]|] eqn:Hk; [|discriminate].
    injection E as <-.
    pose proof (rendering_fire action (on_timers (delete k') st)) as H.
    unfold rendering in H. injection H as H1 H2. auto.
  - subst st'.
    pose proof (rendering_resume k0 result (on_jobs (fun _ => rest) st)) as H.
    unfold rendering in H. injection H as H1 H2. auto.
  - destruct (pendingRequests st !! k') as [text|] eqn:Hk; [|discriminate].
    injection E as <-. unfold onTranslation.
    destruct (isEmpty (fetchTranslation r')); [auto|].
    rewrite checkAndShowSubtitles_playing by exact Hp. auto.
Qed.

(** X10.  As long as the player does not show the paused state, the
    script renders nothing, whatever happens: captions are reported,
    translations arrive, the class of the button changes, the session is
    restarted.  No translated element is created and none is written
    to; the only writes are the marks of the caption nodes. *)
Theorem nothing_is_rendered_while_playing (evs : list event) (st st' : state) :
  paused (document st) = false ->
  playing evs = true ->
  run evs st = Some st' ->
  rendered st' = rendered st /\ paused (document st') = false.
Proof.
  revert st. induction evs as [|ev evs IH]; intros st Hp Hall; simpl.
  - intros [= <-]. auto.
  - destruct (step ev st) as [st1|] eqn:Hstep; [|discriminate]. intros Hrun.
    unfold playing in Hall. simpl in Hall. apply andb_true_iff in Hall as [Hev Hall].
    assert (Hp1 : paused (documentAfter ev st) = false).
    { destruct ev; simpl; try exact Hp. now apply negb_true_iff. }
    destruct (step_playing ev st st1 Hstep Hp1) as [Hd Hr].
    destruct (IH st1) as [H1 H2]; [now rewrite Hd | exact Hall | exact Hrun |].
    split; [congruence | exact H2].
Qed.

Lemma nothing_is_rendered_while_playing_witness :
  translationCache Scenario.played !! "Guten Abend" = Some (Some "Good evening")
  /\ rendered Scenario.played = rendered Scenario.loaded
  /\ paused (document Scenario.played) = false.
Proof.
  split; [vm_compute; reflexivity|].
  apply (nothing_is_rendered_while_playing Scenario.playingSession
           Scenario.loaded Scenario.played).
  - vm_compute. reflexivity.
  - vm_compute. reflexivity.
  - vm_compute. reflexivity.
Defined.

End Playing.

(* ===================================================================== *)
(** * Part XVI.  The translated element                                  *)
(* ===================================================================== *)

Section Trees.

Lemma node_ind' (P : node -> Prop) :
  (forall d, P (Text d)) ->
  (forall e ch, Forall P ch -> P (Elem e ch)) ->
  forall n, P n.
Proof.
  intros HT HE.
  refine (fix IH (n : node) : P n :=
            match n with
            | Text d => HT d
            | Elem e ch =>
                HE e ch ((fix go (l : list node) : Forall P l :=
                            match l with
                            | [] => @List.Forall_nil node P
                            | c :: l' => @List.Forall_cons node P c l' (IH c) (go l')
                            end) ch)
            end).
Qed.

Lemma ids_subtrees n : forall a,
  omap (fun p => nodeId (fst p)) (subtrees a n) = ids n.
Proof.
  induction n as [d|e ch IH] using node_ind'; intros a; simpl; [reflexivity|].
  f_equal. generalize (e :: a) as b. intros b.
  induction IH as [|c cs Hc _ IHcs]; simpl; [reflexivity|].
  rewrite omap_app, Hc. f_equal. exact IHcs.
Qed.

Lemma hasId_nodeId id n : hasId id n = true <-> nodeId n = Some id.
Proof.
  destruct n as [d|e ch]; simpl; [split; discriminate|].
  unfold nodeId. simpl. rewrite Nat.eqb_eq. split; [now intros -> | now intros [= ->]].
Qed.

Lemma hasId_ids id n a p :
  In p (subtrees a n) -> hasId id (fst p) = true -> id ∈ ids n.
Proof.
  intros Hin Hid. rewrite <- (ids_subtrees n a).
  apply list_elem_of_omap. exists p. split.
  - now apply list_elem_of_In.
  - now apply hasId_nodeId.
Qed.

Lemma fold_max_bound (l : list nat) x : x ∈ l -> x <= fold_right Nat.max 0 l.
Proof.
  induction l as [|y l IH]; intros Hin; [now apply elem_of_nil in Hin|].
  simpl. apply elem_of_cons in Hin as [->|Hin]; [lia|]. specialize (IH Hin). lia.
Qed.

Lemma freshId_fresh doc : freshId doc ∉ ids doc.
Proof.
  unfold freshId. rewrite ids_subtrees. intros Hin.
  apply fold_max_bound in Hin. lia.
Qed.

Lemma subtrees_elements n : forall a p,
  In p (subtrees a n) -> exists e ch, fst p = Elem e ch.
Proof.
  induction n as [d|e ch IH] using node_ind'; intros a p; simpl; [tauto|].
  intros [<-|Hin]; [simpl; eauto|].
  apply in_flat_map in Hin as (c & Hc & Hp).
  rewrite Forall_forall in IH. eapply IH; [|exact Hp]. now apply list_elem_of_In.
Qed.

(** A node of the tree has its identities in a segment of the tree's. *)
Lemma subtrees_ids n : forall a x c,
  In (x, c) (subtrees a n) -> exists l1 l2, ids n = l1 ++ ids x ++ l2.
Proof.
  induction n as [d|e ch IH] using node_ind'; intros a x c; simpl; [tauto|].
  intros [[= <- <-]|Hin].
  - exists [], []. simpl. now rewrite app_nil_r.
  - apply in_flat_map in Hin as (k & Hk & Hp).
    rewrite Forall_forall in IH.
    destruct (IH k (proj2 (list_elem_of_In _ _) Hk) _ _ _ Hp) as (l1 & l2 & E).
    apply in_split in Hk as (pre & post & ->).
    rewrite flat_map_app. simpl. rewrite E.
    exists (eid e :: flat_map ids pre ++ l1), (l2 ++ flat_map ids post).
    simpl. now rewrite <- !app_assoc.
Qed.

Lemma subtrees_NoDup n a x c :
  NoDup (ids n) -> In (x, c) (subtrees a n) -> NoDup (ids x).
Proof.
  intros Hnd Hin. destruct (subtrees_ids n a x c Hin) as (l1 & l2 & E).
  rewrite E in Hnd. apply NoDup_app in Hnd as (_ & _ & Hnd).
  now apply NoDup_app in Hnd as (Hnd & _ & _).
Qed.

(** A node of the tree is the root or a child of a node of the tree. *)
Lemma subtrees_parent n : forall a x c,
  In (x, c) (subtrees a n) ->
  (x = n /\ c = a)
  \/ exists e ch c', In (Elem e ch, c') (subtrees a n) /\ c = e :: c' /\ In x ch.
Proof.
  induction n as [d|e ch IH] using node_ind'; intros a x c; simpl; [tauto|].
  intros [[= <- <-]|Hin]; [now left|]. right.
  apply in_flat_map in Hin as (k & Hk & Hp).
  rewrite Forall_forall in IH.
  destruct (IH k (proj2 (list_elem_of_In _ _) Hk) _ _ _ Hp)
    as [[-> ->]|(e' & ch' & c' & Hin' & -> & Hx)].
  - exists e, ch, a. split; [now left|]. auto.
  - exists e', ch', c'. split; [|auto]. right.
    apply in_flat_map. exists k. auto.
Qed.

(** With the identities all different, the node of an identity is the
    one [locate] finds. *)
Lemma NoDup_head_filter {A} (f : A -> option nat) (q : A -> bool) (l : list A) p j :
  NoDup (omap f l) ->
  (forall x, q x = true <-> f x = Some j) ->
  In p l -> f p = Some j ->
  hd_error (List.filter q l) = Some p.
Proof.
  intros Hnd Hq. induction l as [|x l IH]; intros Hin Hp; [destruct Hin|].
  simpl in *. destruct (f x) as [i|] eqn:Ex.
  - apply NoDup_cons in Hnd as [Hx Hnd].
    destruct Hin as [->|Hin].
    + rewrite (proj2 (Hq p)) by exact Hp. reflexivity.
    + destruct (q x) eqn:Eq.
      * apply Hq in Eq. rewrite Ex in Eq. injection Eq as ->.
        exfalso. apply Hx. apply list_elem_of_omap. exists p.
        split; [now apply list_elem_of_In | exact Hp].
      * now apply IH.
  - destruct Hin as [->|Hin]; [congruence|].
    destruct (q x) eqn:Eq; [apply Hq in Eq; congruence|]. now apply IH.
Qed.

Lemma locate_unique doc x c j :
  NoDup (ids doc) -> In (x, c) (subtrees [] doc) -> nodeId x = Some j ->
  locate j doc = Some (x, c).
Proof.
  intros Hnd Hin Hj. unfold locate.
  apply (NoDup_head_filter (fun p => nodeId (fst p)) _ _ (x, c) j); auto.
  - now rewrite ids_subtrees.
  - intros p. apply hasId_nodeId.
Qed.

Lemma hd_error_filter_In {A} (q : A -> bool) (l : list A) p :
  hd_error (List.filter q l) = Some p -> In p l /\ q p = true.
Proof.
  intros H. assert (Hin : In p (List.filter q l)).
  { destruct (List.filter q l); [discriminate|]. injection H as ->. now left. }
  now apply filter_In in Hin.
Qed.

Lemma locate_In id doc x c :
  locate id doc = Some (x, c) -> In (x, c) (subtrees [] doc) /\ hasId id x = true.
Proof. intros H. now apply hd_error_filter_In in H. Qed.

End Trees.

(** ** [insertBefore] *)

Section Insertion.

Variables (new : node) (id : nat).

(** The new node has no element below it. *)
Hypothesis new_leaf : forall a, subtrees a new = [(new, a)].

Lemma hasId_insertBefore j n : hasId j (insertBefore new id n) = hasId j n.
Proof. now destruct n. Qed.

Lemma insertInto_none l :
  (forall c, In c l -> hasId id c = false) -> insertInto new id l = l.
Proof.
  induction l as [|c l IH]; intros H; simpl; [reflexivity|].
  rewrite (H c) by now left. rewrite IH; [reflexivity|].
  intros k Hk. apply H. now right.
Qed.

Lemma not_in_ids_hasId n : id ∉ ids n -> hasId id n = false.
Proof.
  destruct n as [d|e ch]; simpl; [reflexivity|].
  intros H. apply Nat.eqb_neq. intros E. apply H. rewrite E. now left.
Qed.

Lemma not_in_flat_map_ids c l : id ∉ flat_map ids l -> In c l -> id ∉ ids c.
Proof.
  intros H Hc Hin. apply H. apply list_elem_of_In, in_flat_map.
  exists c. split; [exact Hc | now apply list_elem_of_In].
Qed.

(** Where the identity does not occur nothing is inserted. *)
Lemma insertBefore_none n : id ∉ ids n -> insertBefore new id n = n.
Proof.
  induction n as [d|e ch IH] using node_ind'; simpl; [reflexivity|].
  intros H. apply not_elem_of_cons in H as [_ H]. f_equal.
  rewrite Forall_forall in IH.
  assert (E : map (insertBefore new id) ch = ch).
  { rewrite <- (map_id ch) at 2. apply map_ext_in. intros c Hc.
    apply IH; [now apply list_elem_of_In|]. now apply (not_in_flat_map_ids c ch). }
  rewrite E. apply insertInto_none. intros c Hc.
  apply not_in_ids_hasId. now apply (not_in_flat_map_ids c ch).
Qed.

Lemma insertBefore_root e ch :
  id ∉ flat_map ids ch -> insertBefore new id (Elem e ch) = Elem e ch.
Proof.
  intros H. simpl. f_equal.
  assert (E : map (insertBefore new id) ch = ch).
  { rewrite <- (map_id ch) at 2. apply map_ext_in. intros c Hc.
    apply insertBefore_none. now apply (not_in_flat_map_ids c ch). }
  rewrite E. apply insertInto_none. intros c Hc.
  apply not_in_ids_hasId. now apply (not_in_flat_map_ids c ch).
Qed.

Lemma insertEntry_none l :
  (forall p, In p l -> hasId id (fst p) = false) -> insertEntry new id l = l.
Proof.
  induction l as [|p l IH]; intros H; simpl; [reflexivity|].
  rewrite (H p) by now left. rewrite IH; [reflexivity|].
  intros q Hq. apply H. now right.
Qed.

Lemma insertEntry_cons_false p l :
  hasId id (fst p) = false -> insertEntry new id (p :: l) = p :: insertEntry new id l.
Proof. intros H. simpl. now rewrite H. Qed.

Lemma insertEntry_app_l l1 l2 :
  (forall p, In p l2 -> hasId id (fst p) = false) ->
  insertEntry new id (l1 ++ l2) = insertEntry new id l1 ++ l2.
Proof.
  intros H. induction l1 as [|p l1 IH]; simpl.
  - now apply insertEntry_none.
  - destruct (hasId id (fst p)); [reflexivity|]. now rewrite IH.
Qed.

Lemma insertEntry_app_r l1 l2 :
  (forall p, In p l1 -> hasId id (fst p) = false) ->
  insertEntry new id (l1 ++ l2) = l1 ++ insertEntry new id l2.
Proof.
  induction l1 as [|p l1 IH]; intros H; simpl; [reflexivity|].
  rewrite (H p) by now left. rewrite IH; [reflexivity|].
  intros q Hq. apply H. now right.
Qed.

Lemma inserted_none l :
  (forall p, In p l -> id ∉ ids (fst p)) -> map (inserted new id) l = l.
Proof.
  intros H. rewrite <- (map_id l) at 2. apply map_ext_in.
  intros [x c] Hp. unfold inserted. simpl. f_equal.
  apply insertBefore_none. now apply (H (x, c)).
Qed.

(** The entries below a node whose identities do not hold [id]. *)
Lemma entries_free n a :
  id ∉ ids n -> forall p, In p (subtrees a n) -> id ∉ ids (fst p).
Proof.
  intros H [x c] Hp Hin. simpl in Hin.
  destruct (subtrees_ids n a x c Hp) as (l1 & l2 & E).
  apply H. rewrite E. rewrite !elem_of_app. auto.
Qed.

Lemma forest_free l a :
  id ∉ flat_map ids l ->
  forall p, In p (flat_map (subtrees a) l) -> id ∉ ids (fst p).
Proof.
  intros H p Hp. apply in_flat_map in Hp as (c & Hc & Hp).
  apply (entries_free c a); [|exact Hp]. now apply (not_in_flat_map_ids c l).
Qed.

Lemma free_hasId l :
  (forall p, In p l -> id ∉ ids (fst p)) ->
  forall p, In p (map (inserted new id) l) -> hasId id (fst p) = false.
Proof.
  intros H p Hp. apply in_map_iff in Hp as (q & <- & Hq).
  unfold inserted. simpl. rewrite hasId_insertBefore.
  apply not_in_ids_hasId. now apply H.
Qed.

(** The entries of a forest after the insertion. *)
Lemma subtrees_insertInto ch :
  Forall (fun c => forall a, NoDup (ids c) ->
            subtrees a (insertBefore new id c)
            = match subtrees a c with
              | [] => []
              | r :: rest => inserted new id r
                             :: insertEntry new id (map (inserted new id) rest)
              end) ch ->
  forall a, NoDup (flat_map ids ch) ->
    flat_map (subtrees a) (insertInto new id (map (insertBefore new id) ch))
    = insertEntry new id (map (inserted new id) (flat_map (subtrees a) ch)).
Proof.
  induction 1 as [|c cs Hc _ IH]; intros a Hnd; simpl; [reflexivity|].
  apply NoDup_app in Hnd as (Hndc & Hdisj & Hndcs).
  rewrite hasId_insertBefore.
  destruct (hasId id c) eqn:Hid.
  - (* the node is this child *)
    destruct c as [d|e kids]; [discriminate|].
    simpl in Hid. apply Nat.eqb_eq in Hid.
    simpl in Hndc. apply NoDup_cons in Hndc as [Hkids _].
    assert (Hcs : id ∉ flat_map ids cs).
    { apply (Hdisj id). simpl. rewrite Hid. now left. }
    rewrite Hid in Hkids.
    rewrite insertBefore_root by exact Hkids.
    assert (E : map (insertBefore new id) cs = cs).
    { rewrite <- (map_id cs) at 2. apply map_ext_in. intros k Hk.
      apply insertBefore_none. now apply (not_in_flat_map_ids k cs). }
    rewrite E. simpl. rewrite new_leaf. simpl.
    rewrite map_app.
    rewrite (inserted_none (flat_map (subtrees (e :: a)) kids))
      by (apply forest_free; exact Hkids).
    rewrite (inserted_none (flat_map (subtrees a) cs)) by now apply forest_free.
    unfold inserted at 1. simpl fst. simpl snd.
    rewrite insertBefore_root by exact Hkids.
    simpl. rewrite Hid, Nat.eqb_refl. reflexivity.
  - (* the node is not this child *)
    simpl. rewrite (Hc a Hndc), (IH a Hndcs). rewrite map_app.
    destruct (subtrees a c) as [|r rest] eqn:Er; [reflexivity|].
    assert (Hr : r = (c, a)).
    { destruct c as [d|e kids]; [discriminate|]. simpl in Er. now injection Er as <- _. }
    assert (Hh : hasId id (fst (inserted new id r)) = false).
    { rewrite Hr. unfold inserted. simpl. now rewrite hasId_insertBefore. }
    rewrite map_cons, <- !app_comm_cons, (insertEntry_cons_false _ _ Hh). f_equal.
    destruct (decide (id ∈ ids c)) as [Hin|Hout].
    + (* below this child *)
      specialize (Hdisj id Hin).
      rewrite (insertEntry_none (map (inserted new id) (flat_map (subtrees a) cs)))
        by (apply free_hasId; now apply forest_free).
      symmetry. apply insertEntry_app_l.
      apply free_hasId. now apply forest_free.
    + (* not below this child *)
      assert (Hfree : forall p, In p rest -> id ∉ ids (fst p)).
      { intros p Hp. apply (entries_free c a Hout). rewrite Er. now right. }
      rewrite (insertEntry_none (map (inserted new id) rest))
        by now apply free_hasId.
      symmetry. apply insertEntry_app_r. now apply free_hasId.
Qed.

(** The entries of a tree after the insertion: each node as it is after
    it, and the new node before the node of identity [id]. *)
Lemma subtrees_insertBefore n : forall a,
  NoDup (ids n) ->
  subtrees a (insertBefore new id n)
  = match subtrees a n with
    | [] => []
    | r :: rest => inserted new id r :: insertEntry new id (map (inserted new id) rest)
    end.
Proof.
  induction n as [d|e ch IH] using node_ind'; intros a Hnd; [reflexivity|].
  simpl in Hnd. apply NoDup_cons in Hnd as [_ Hnd].
  change (subtrees a (insertBefore new id (Elem e ch)))
    with ((insertBefore new id (Elem e ch), a)
          :: flat_map (subtrees (e :: a))
               (insertInto new id (map (insertBefore new id) ch))).
  rewrite (subtrees_insertInto ch IH (e :: a) Hnd). reflexivity.
Qed.

Lemma nodeId_insertBefore n : nodeId (insertBefore new id n) = nodeId n.
Proof. now destruct n. Qed.

Lemma omap_cons_Some {A B} (g : A -> option B) x y l :
  g x = Some y -> omap g (x :: l) = y :: omap g l.
Proof. intros H. simpl. now rewrite H. Qed.

Lemma omap_cons_None {A B} (g : A -> option B) x l :
  g x = None -> omap g (x :: l) = omap g l.
Proof. intros H. simpl. now rewrite H. Qed.

Lemma omap_inserted l :
  omap (fun p => nodeId (fst p)) (map (inserted new id) l)
  = omap (fun p => nodeId (fst p)) l.
Proof.
  induction l as [|p l IH]; [reflexivity|].
  rewrite map_cons.
  destruct (nodeId (fst p)) as [i|] eqn:Ei.
  - rewrite (omap_cons_Some _ p i) by exact Ei.
    rewrite (omap_cons_Some _ (inserted new id p) i)
      by (unfold inserted; simpl; now rewrite nodeId_insertBefore).
    now rewrite IH.
  - rewrite (omap_cons_None _ p) by exact Ei.
    rewrite (omap_cons_None _ (inserted new id p))
      by (unfold inserted; simpl; now rewrite nodeId_insertBefore).
    exact IH.
Qed.

Lemma NoDup_insertEntry t l :
  nodeId new = Some t ->
  NoDup (omap (fun p => nodeId (fst p)) l) ->
  t ∉ omap (fun p => nodeId (fst p)) l ->
  NoDup (omap (fun p => nodeId (fst p)) (insertEntry new id l))
  /\ forall j, j ∈ omap (fun p => nodeId (fst p)) (insertEntry new id l) ->
               j = t \/ j ∈ omap (fun p => nodeId (fst p)) l.
Proof.
  intros Hnew. induction l as [|p l IH]; intros Hnd Hfresh.
  - split; [constructor | intros j Hj; now apply elem_of_nil in Hj].
  - cbn [insertEntry]. destruct (hasId id (fst p)) eqn:Hid.
    + rewrite (omap_cons_Some _ (new, snd p) t) by exact Hnew. split.
      * apply NoDup_cons. auto.
      * intros j Hj. apply elem_of_cons in Hj as [->|Hj]; auto.
    + destruct (nodeId (fst p)) as [i|] eqn:Ei.
      * rewrite (omap_cons_Some _ p i) in Hnd, Hfresh by exact Ei.
        rewrite !(omap_cons_Some _ p i) by exact Ei.
        apply NoDup_cons in Hnd as [Hi Hnd].
        apply not_elem_of_cons in Hfresh as [Hne Hfresh].
        destruct (IH Hnd Hfresh) as [IH1 IH2]. split.
        -- apply NoDup_cons. split; [|exact IH1].
           intros Hin. apply IH2 in Hin as [->|Hin]; auto.
        -- intros j Hj. apply elem_of_cons in Hj as [->|Hj].
           ++ right. now left.
           ++ apply IH2 in Hj as [->|Hj]; [now left|]. right. now right.
      * rewrite (omap_cons_None _ p) in Hnd, Hfresh by exact Ei.
        rewrite !(omap_cons_None _ p) by exact Ei.
        exact (IH Hnd Hfresh).
Qed.

(** The identities stay different when the new node has a fresh one. *)
Lemma NoDup_insertBefore t n :
  nodeId new = Some t -> NoDup (ids n) -> t ∉ ids n ->
  NoDup (ids (insertBefore new id n)).
Proof.
  intros Hnew Hnd Hfresh.
  rewrite <- (ids_subtrees (insertBefore new id n) []).
  rewrite (subtrees_insertBefore n [] Hnd).
  rewrite <- (ids_subtrees n []) in Hnd, Hfresh.
  destruct (subtrees [] n) as [|r rest]; [constructor|].
  destruct (nodeId (fst r)) as [i|] eqn:Ei.
  - rewrite (omap_cons_Some _ r i) in Hnd, Hfresh by exact Ei.
    rewrite (omap_cons_Some _ (inserted new id r) i)
      by (unfold inserted; simpl; now rewrite nodeId_insertBefore).
    apply NoDup_cons in Hnd as [Hi Hnd].
    apply not_elem_of_cons in Hfresh as [Hne Hfresh].
    destruct (NoDup_insertEntry t (map (inserted new id) rest) Hnew) as [H1 H2].
    + now rewrite omap_inserted.
    + now rewrite omap_inserted.
    + apply NoDup_cons. split; [|exact H1].
      intros Hin. apply H2 in Hin as [->|Hin]; [now apply Hne|].
      rewrite omap_inserted in Hin. contradiction.
  - rewrite (omap_cons_None _ r) in Hnd, Hfresh by exact Ei.
    rewrite (omap_cons_None _ (inserted new id r))
      by (unfold inserted; simpl; now rewrite nodeId_insertBefore).
    destruct (NoDup_insertEntry t (map (inserted new id) rest) Hnew) as [H1 _];
      [now rewrite omap_inserted | now rewrite omap_inserted | exact H1].
Qed.

End Insertion.

Section Queries.

Variables (new : node) (id : nat).

Lemma head_filter_inserted (q : node * list element -> bool) l :
  (forall p, q (inserted new id p) = q p) ->
  hd_error (List.filter q (map (inserted new id) l))
  = inserted new id <$> hd_error (List.filter q l).
Proof.
  intros Hq. induction l as [|p l IH]; simpl; [reflexivity|].
  rewrite Hq. destruct (q p); [reflexivity | exact IH].
Qed.

Lemma filter_insertEntry_skip (q : node * list element -> bool) l :
  (forall c, q (new, c) = false) ->
  List.filter q (insertEntry new id l) = List.filter q l.
Proof.
  intros Hq. induction l as [|p l IH]; simpl; [reflexivity|].
  destruct (hasId id (fst p)); simpl.
  - now rewrite Hq.
  - now rewrite IH.
Qed.

Lemma filter_insertEntry_only (q : node * list element -> bool) l :
  (forall c, q (new, c) = true) ->
  (forall p, In p l -> q p = false) ->
  (exists p, In p l /\ hasId id (fst p) = true) ->
  exists c, List.filter q (insertEntry new id l) = [(new, c)].
Proof.
  intros Hnew Hold. induction l as [|p l IH]; intros (x & Hx & Hid); [destruct Hx|].
  simpl. destruct (hasId id (fst p)) eqn:Ep; simpl.
  - rewrite Hnew, (Hold p) by now left.
    exists (snd p). f_equal.
    assert (E : List.filter q l = []); [|exact E].
    clear -Hold. induction l as [|y l IH]; simpl; [reflexivity|].
    rewrite (Hold y) by (right; now left). apply IH.
    intros z [->|Hz]; apply Hold; [now left | right; now right].
  - rewrite (Hold p) by now left. apply IH.
    + intros y Hy. apply Hold. now right.
    + destruct Hx as [->|Hx]; [congruence|]. eauto.
Qed.

End Queries.

(** ** [patch] on a fresh identity *)

Section Patching.

Variables (t : nat) (f : element -> list node -> node).

Hypothesis f_keeps : forall e ch j, hasId j (f e ch) = Nat.eqb (eid e) j.

Lemma hasId_patch j n : hasId j (patch t f n) = hasId j n.
Proof.
  destruct n as [d|e ch]; simpl; [reflexivity|].
  destruct (Nat.eqb (eid e) t); [apply f_keeps | reflexivity].
Qed.

Lemma map_insertInto new id l :
  map (patch t f) (insertInto new id l)
  = insertInto (patch t f new) id (map (patch t f) l).
Proof.
  induction l as [|c l IH]; simpl; [reflexivity|].
  rewrite hasId_patch. destruct (hasId id c); simpl; [reflexivity|]. now rewrite IH.
Qed.

(** The patch of an identity the tree does not hold reaches the inserted
    node only. *)
Lemma patch_insertBefore new id n :
  t ∉ ids n ->
  patch t f (insertBefore new id n) = insertBefore (patch t f new) id n.
Proof.
  induction n as [d|e ch IH] using node_ind'; simpl; [reflexivity|].
  intros H. apply not_elem_of_cons in H as [Hne H].
  destruct (Nat.eqb_spec (eid e) t) as [E|_]; [now symmetry in E|].
  f_equal. rewrite map_insertInto. f_equal.
  rewrite map_map. apply map_ext_in. intros c Hc.
  rewrite Forall_forall in IH. apply IH; [now apply list_elem_of_In|].
  now apply (not_in_flat_map_ids t c ch).
Qed.

End Patching.

(** ** The translated element *)

Section TranslatedElement.

(** A node of a node of the tree is a node of the tree. *)
Lemma subtrees_trans n : forall a x c q,
  In (x, c) (subtrees a n) -> In q (subtrees c x) -> In q (subtrees a n).
Proof.
  induction n as [d|e ch IH] using node_ind'; intros a x c q; simpl; [tauto|].
  intros [[= <- <-]|Hin] Hq; [exact Hq|]. right.
  apply in_flat_map in Hin as (k & Hk & Hp).
  apply in_flat_map. exists k. split; [exact Hk|].
  rewrite Forall_forall in IH.
  apply (IH k (proj2 (list_elem_of_In _ _) Hk) _ _ _ _ Hp Hq).
Qed.

Lemma locate_Some j doc p :
  In p (subtrees [] doc) -> hasId j (fst p) = true -> is_Some (locate j doc).
Proof.
  intros Hin Hj. unfold locate.
  assert (H : In p (List.filter (fun p => hasId j (fst p)) (subtrees [] doc)))
    by (apply filter_In; auto).
  destruct (List.filter _ _); [destruct H | eauto].
Qed.

Lemma hd_error_omap_None {A B} (g : A -> option B) (l : list A) :
  (forall p, In p l -> is_Some (g p)) -> hd_error (omap g l) = None -> l = [].
Proof.
  destruct l as [|p l]; [reflexivity|]. intros H.
  destruct (H p) as [y Hy]; [now left|]. simpl. rewrite Hy. discriminate.
Qed.

Lemma filter_nil_false {A} (q : A -> bool) (l : list A) :
  List.filter q l = [] -> forall p, In p l -> q p = false.
Proof.
  intros E p Hp. destruct (q p) eqn:Eq; [|reflexivity].
  assert (H : In p (List.filter q l)) by (apply filter_In; auto).
  rewrite E in H. destruct H.
Qed.

Lemma matchesAt_inserted new id s p : matchesAt s (inserted new id p) = matchesAt s p.
Proof. destruct p as [[d|e ch] c]; reflexivity. Qed.

Variables (doc : node) (id : nat) (originalP : node) (parentNode : element)
          (ancestors : list element).

Hypothesis doc_NoDup : NoDup (ids doc).
Hypothesis located : locate id doc = Some (originalP, parentNode :: ancestors).

(** The parent of the paragraph, found by its identity. *)
Lemma parent_located :
  exists kids,
    locate (eid parentNode) doc = Some (Elem parentNode kids, ancestors)
    /\ In (Elem parentNode kids, ancestors) (subtrees [] doc)
    /\ In originalP kids.
Proof.
  destruct (locate_In _ _ _ _ located) as [Hin _].
  destruct (subtrees_parent doc [] _ _ Hin) as [[_ [=]]|(e & kids & c' & HP & [= <- <-] & Hx)].
  exists kids. split; [|auto].
  now apply locate_unique.
Qed.

Lemma originalP_element : exists e kids, originalP = Elem e kids /\ eid e = id
                                         /\ (id ∉ flat_map ids kids).
Proof.
  destruct (locate_In _ _ _ _ located) as [Hin Hid].
  pose proof (subtrees_NoDup doc [] _ _ doc_NoDup Hin) as Hnd.
  destruct originalP as [d|e kids]; [discriminate|].
  simpl in Hid. apply Nat.eqb_eq in Hid.
  exists e, kids. split; [reflexivity|]. split; [exact Hid|].
  simpl in Hnd. apply NoDup_cons in Hnd as [Hnot _]. now rewrite <- Hid.
Qed.

(** With no translated element under the parent, the query of line 133
    finds none. *)
Lemma no_translated_sibling kids :
  locate (eid parentNode) doc = Some (Elem parentNode kids, ancestors) ->
  translatedSibling id doc = None ->
  querySelectorUnder SEL_TRANSLATED (Elem parentNode kids) ancestors = None.
Proof.
  intros HP. unfold translatedSibling. rewrite located, HP.
  destruct (querySelectorUnder SEL_TRANSLATED (Elem parentNode kids) ancestors)
    as [e|] eqn:Eq; [|reflexivity].
  intros Hnone. exfalso.
  assert (Hin : exists p, In p (subtrees [] doc) /\ hasId (eid e) (fst p) = true).
  { simpl in Eq.
    destruct (omap _ _) as [|e' l] eqn:Eo; [discriminate|]. injection Eq as ->.
    assert (He : e ∈ omap (fun p : node * list element => elementOf (fst p))
                   (List.filter (matchesAt SEL_TRANSLATED)
                      (flat_map (subtrees (parentNode :: ancestors)) kids)))
      by (rewrite Eo; now left).
    apply list_elem_of_omap in He as (p & Hp & Hel).
    apply list_elem_of_In, filter_In in Hp as [Hp _].
    exists p. split.
    - destruct (locate_In _ _ _ _ HP) as [HPin _].
      apply (subtrees_trans doc [] (Elem parentNode kids) ancestors p HPin).
      simpl. now right.
    - destruct p as [[d|e' ch] c]; [discriminate|]. simpl in *.
      injection Hel as ->. apply Nat.eqb_refl. }
  destruct Hin as (p & Hp & Hid).
  destruct (locate_Some _ _ _ Hp Hid) as [r Hr]. rewrite Hr in Hnone. discriminate.
Qed.

Variables (new : node) (enew : element) (below : list node).

Hypothesis new_is : new = Elem enew below.
Hypothesis new_leaf : forall a, subtrees a new = [(new, a)].
Hypothesis new_fresh : eid enew ∉ ids doc.
Hypothesis new_class : contains "translated-subtitle" (classList enew) = true.

Lemma hasId_new j : hasId j new = Nat.eqb (eid enew) j.
Proof. now rewrite new_is. Qed.

Lemma in_ids j p : In p (subtrees [] doc) -> hasId j (fst p) = true -> j ∈ ids doc.
Proof. apply hasId_ids. Qed.

(** An element of the document is found after the insertion where it
    was before. *)
Lemma locate_insertBefore j :
  j ∈ ids doc ->
  locate j (insertBefore new id doc) = inserted new id <$> locate j doc.
Proof.
  intros Hj. unfold locate.
  rewrite (subtrees_insertBefore new id new_leaf doc [] doc_NoDup).
  assert (Hne : Nat.eqb (eid enew) j = false).
  { apply Nat.eqb_neq. intros E. apply new_fresh. now rewrite E. }
  destruct (subtrees [] doc) as [|r rest]; [reflexivity|].
  simpl. unfold inserted at 1. simpl. rewrite hasId_insertBefore.
  destruct (hasId j (fst r)); [reflexivity|].
  rewrite filter_insertEntry_skip by (intros c; simpl; now rewrite hasId_new).
  apply head_filter_inserted. intros p. unfold inserted. simpl.
  apply hasId_insertBefore.
Qed.

Lemma located_after :
  locate id (insertBefore new id doc) = Some (originalP, parentNode :: ancestors).
Proof.
  destruct (locate_In _ _ _ _ located) as [Hin Hid].
  rewrite locate_insertBefore by (eapply in_ids; eauto).
  rewrite located. simpl. unfold inserted. simpl. f_equal. f_equal.
  destruct originalP_element as (e & kids & -> & _ & Hfree).
  now apply insertBefore_root.
Qed.

Lemma parent_after kids :
  locate (eid parentNode) doc = Some (Elem parentNode kids, ancestors) ->
  locate (eid parentNode) (insertBefore new id doc)
  = Some (Elem parentNode (insertInto new id (map (insertBefore new id) kids)), ancestors).
Proof.
  intros HP. destruct (locate_In _ _ _ _ HP) as [Hin Hid].
  rewrite locate_insertBefore by (eapply in_ids; eauto).
  rewrite HP. reflexivity.
Qed.

Lemma query_after kids :
  In (Elem parentNode kids, ancestors) (subtrees [] doc) ->
  In originalP kids ->
  querySelectorUnder SEL_TRANSLATED (Elem parentNode kids) ancestors = None ->
  querySelectorUnder SEL_TRANSLATED
    (Elem parentNode (insertInto new id (map (insertBefore new id) kids))) ancestors
  = Some enew.
Proof.
  intros HP Hx Hq.
  pose proof (subtrees_NoDup doc [] _ _ doc_NoDup HP) as Hnd.
  simpl in Hnd. apply NoDup_cons in Hnd as [_ Hnd].
  unfold querySelectorUnder.
  rewrite (subtrees_insertInto new id new_leaf kids); [|apply Forall_forall|exact Hnd].
  2:{ intros c _ a Hc. now apply subtrees_insertBefore. }
  simpl in Hq.
  apply hd_error_omap_None in Hq.
  2:{ intros p Hp. apply filter_In in Hp as [Hp _].
      apply in_flat_map in Hp as (c & _ & Hp).
      destruct (subtrees_elements _ _ _ Hp) as (e & ch & E). rewrite E. simpl. eauto. }
  pose proof (filter_nil_false _ _ Hq) as Hold.
  destruct (filter_insertEntry_only new id (matchesAt SEL_TRANSLATED)
              (map (inserted new id)
                 (flat_map (subtrees (parentNode :: ancestors)) kids))) as [c Hc].
  - intros c. unfold matchesAt. simpl. rewrite new_is. simpl. exact new_class.
  - intros p Hp. apply in_map_iff in Hp as (q & <- & Hq').
    rewrite matchesAt_inserted. now apply Hold.
  - destruct originalP_element as (e & ch & E & Hid & _).
    exists (inserted new id (originalP, parentNode :: ancestors)). split.
    + apply in_map. apply in_flat_map. exists originalP. split; [exact Hx|].
      rewrite E. simpl. now left.
    + unfold inserted. simpl. rewrite hasId_insertBefore, E. simpl.
      now apply Nat.eqb_eq.
  - rewrite Hc. simpl. now rewrite new_is.
Qed.

Lemma new_located :
  fst <$> locate (eid enew) (insertBefore new id doc) = Some new.
Proof.
  unfold locate.
  rewrite (subtrees_insertBefore new id new_leaf doc [] doc_NoDup).
  destruct (locate_In _ _ _ _ located) as [Hin Hid].
  assert (Hold : forall p, In p (subtrees [] doc) -> hasId (eid enew) (fst p) = false).
  { intros p Hp. destruct (hasId (eid enew) (fst p)) eqn:E; [|reflexivity].
    exfalso. apply new_fresh. eapply in_ids; eauto. }
  destruct (subtrees [] doc) as [|r rest] eqn:Er; [destruct Hin|].
  simpl. unfold inserted at 1. simpl. rewrite hasId_insertBefore.
  rewrite (Hold r) by now left.
  destruct (filter_insertEntry_only new id (fun p => hasId (eid enew) (fst p))
              (map (inserted new id) rest)) as [c Hc].
  - intros c. simpl. rewrite hasId_new. apply Nat.eqb_refl.
  - intros p Hp. apply in_map_iff in Hp as (q & <- & Hq).
    unfold inserted. simpl. rewrite hasId_insertBefore. apply Hold. now right.
  - exists (inserted new id (originalP, parentNode :: ancestors)). split.
    + apply in_map. destruct Hin as [E|Hin]; [|exact Hin].
      exfalso. destruct doc as [d|e ch]; [discriminate|].
      simpl in Er. injection Er as <- _. discriminate.
    + unfold inserted. simpl. now rewrite hasId_insertBefore.
  - rewrite Hc. reflexivity.
Qed.

Lemma translatedSibling_after :
  translatedSibling id doc = None ->
  translatedSibling id (insertBefore new id doc) = Some new.
Proof.
  intros Hnone. destruct parent_located as (kids & HP & HPin & Hx).
  unfold translatedSibling.
  rewrite located_after, (parent_after kids HP).
  rewrite (query_after kids HPin Hx (no_translated_sibling kids HP Hnone)).
  apply new_located.
Qed.

End TranslatedElement.

Section Shown.

Lemma translationCache_patched doc more st :
  translationCache (patched doc more st) = translationCache st.
Proof. reflexivity. Qed.

Lemma domWrites_patched doc more st :
  domWrites (patched doc more st) = domWrites st ++ more.
Proof. reflexivity. Qed.

(** Lines 134-141, no translated element under the parent. *)
Lemma showOne_creates st id originalP parentNode ancestors translatedText parent chain :
  locate id (document st) = Some (originalP, parentNode :: ancestors) ->
  translationCache st !! captionText originalP = Some (Some translatedText) ->
  isEmpty translatedText = false ->
  locate (eid parentNode) (document st) = Some (parent, chain) ->
  querySelectorUnder SEL_TRANSLATED parent ancestors = None ->
  let t := freshId (document st) in
  showOne id st
  = patched (setStyleDisplay t "block"
               (setInnerText t translatedText
                  (insertBefore (createElement t "p" "translated-subtitle") id
                     (document st))))
      [CreateElement t "p"; SetClassName t "translated-subtitle"; InsertBefore t id;
       SetInnerText t translatedText; SetStyleDisplay t "block"] st.
Proof.
  intros H1 H2 H3 H4 H5 t. unfold showOne. rewrite H1, H2, H3, H4, H5.
  rewrite !write_patched, !on_document_patched, !patched_patched, !document_patched.
  reflexivity.
Qed.

(** Lines 140-141, the translated element found on line 133. *)
Lemma showOne_reuses st id originalP parentNode ancestors translatedText parent chain e :
  locate id (document st) = Some (originalP, parentNode :: ancestors) ->
  translationCache st !! captionText originalP = Some (Some translatedText) ->
  isEmpty translatedText = false ->
  locate (eid parentNode) (document st) = Some (parent, chain) ->
  querySelectorUnder SEL_TRANSLATED parent ancestors = Some e ->
  showOne id st
  = patched (setStyleDisplay (eid e) "block"
               (setInnerText (eid e) translatedText (document st)))
      [SetInnerText (eid e) translatedText; SetStyleDisplay (eid e) "block"] st.
Proof.
  intros H1 H2 H3 H4 H5. unfold showOne. rewrite H1, H2, H3, H4, H5.
  rewrite !write_patched, !on_document_patched, !patched_patched, !document_patched.
  reflexivity.
Qed.

(** The first pass over a translated caption paragraph, and the second. *)
Lemma showOne_creates_element
    (st : state) (id : nat) (originalP : node) (parentNode : element)
    (ancestors : list element) (translatedText : string) :
  NoDup (ids (document st)) ->
  locate id (document st) = Some (originalP, parentNode :: ancestors) ->
  translationCache st !! captionText originalP = Some (Some translatedText) ->
  translatedText <> "" ->
  translatedSibling id (document st) = None ->
  let t := freshId (document st) in
  let translatedP :=
    Elem {| eid := t; tagName := "p"; classList := ["translated-subtitle"];
            lang := None; styleDisplay := Some "block" |} [Text translatedText] in
  let st1 := showOne id st in
  document st1 = insertBefore translatedP id (document st)
  /\ NoDup (ids (document st1))
  /\ translatedSibling id (document st1) = Some translatedP
  /\ locate id (document st1) = Some (originalP, parentNode :: ancestors)
  /\ domWrites st1
     = domWrites st
       ++ [CreateElement t "p"; SetClassName t "translated-subtitle"; InsertBefore t id;
           SetInnerText t translatedText; SetStyleDisplay t "block"]
  /\ showOne id st1
     = patched (document st1)
         [SetInnerText t translatedText; SetStyleDisplay t "block"] st1.
Proof.
  intros Hnd Hloc Hcache Hne Hnone. cbv zeta.
  assert (Hempty : isEmpty translatedText = false) by now destruct translatedText.
  destruct (parent_located _ _ _ _ _ Hnd Hloc) as (kids & HP & HPin & Hx).
  pose proof (no_translated_sibling _ _ _ _ _ Hloc kids HP Hnone) as Hq.
  pose proof (freshId_fresh (document st)) as Hfresh.
  pose proof (showOne_creates st id originalP parentNode ancestors translatedText
                _ _ Hloc Hcache Hempty HP Hq) as Hst1.
  cbv zeta in Hst1.
  generalize dependent (freshId (document st)). intros t Hfresh Hst1.
  set (translatedP :=
         Elem {| eid := t; tagName := "p"; classList := ["translated-subtitle"];
                 lang := None; styleDisplay := Some "block" |} [Text translatedText]).
  assert (Hpatch : forall new0,
             new0 = createElement t "p" "translated-subtitle" \/ new0 = translatedP ->
             setStyleDisplay t "block"
               (setInnerText t translatedText (insertBefore new0 id (document st)))
             = insertBefore translatedP id (document st)).
  { intros new0 Hnew0. unfold setStyleDisplay, setInnerText.
    rewrite (patch_insertBefore t (fun e _ => Elem e [Text translatedText]))
      by (first [exact Hfresh | intros; reflexivity]).
    rewrite (patch_insertBefore t (fun e children => Elem (withDisplay "block" e) children))
      by (first [exact Hfresh | intros; reflexivity]).
    f_equal. destruct Hnew0 as [->| ->]; simpl; rewrite Nat.eqb_refl; simpl;
      now rewrite Nat.eqb_refl. }
  rewrite Hpatch in Hst1 by now left.
  rewrite Hst1. rewrite !document_patched, domWrites_patched.
  assert (Hleaf : forall a, subtrees a translatedP = [(translatedP, a)]) by reflexivity.
  pose proof (located_after (document st) id originalP parentNode ancestors Hnd Hloc
                translatedP _ _ eq_refl Hleaf Hfresh) as Hloc1.
  split; [reflexivity|]. split; [|split; [|split; [exact Hloc1|split; [reflexivity|]]]].
  - now apply (NoDup_insertBefore translatedP id Hleaf t).
  - apply (translatedSibling_after (document st) id originalP parentNode ancestors
             Hnd Hloc translatedP _ _ eq_refl Hleaf Hfresh eq_refl Hnone).
  - rewrite (showOne_reuses _ id originalP parentNode ancestors translatedText
               (Elem parentNode
                  (insertInto translatedP id (map (insertBefore translatedP id) kids)))
               ancestors
               {| eid := t; tagName := "p"; classList := ["translated-subtitle"];
                  lang := None; styleDisplay := Some "block" |}).
    + simpl eid. rewrite document_patched. now rewrite Hpatch by now right.
    + rewrite document_patched. exact Hloc1.
    + rewrite translationCache_patched. exact Hcache.
    + exact Hempty.
    + rewrite document_patched.
      apply (parent_after (document st) id parentNode ancestors Hnd
               translatedP _ _ eq_refl Hleaf Hfresh kids HP).
    + apply (query_after (document st) id originalP parentNode ancestors Hnd Hloc
               translatedP _ _ eq_refl Hleaf eq_refl kids HPin Hx Hq).
Qed.

(** X11.  A caption paragraph that has a translation and no translated
    element under its parent gets one: [showOne] (lines 126-142) creates
    a [p] of class [translated-subtitle] with a fresh identity, puts it
    right before the paragraph, sets its text to the translation and
    shows it; the paragraph itself stays where and what it was, and the
    identities of the document stay pairwise different.  The element is
    created once: the query of line 133 now finds it, so a second pass
    over the paragraph creates nothing, writes the same text to the same
    element and leaves the document as it is. *)
Theorem translated_element_is_created_once
    (st : state) (id : nat) (originalP : node) (parentNode : element)
    (ancestors : list element) (translatedText : string) :
  NoDup (ids (document st)) ->
  locate id (document st) = Some (originalP, parentNode :: ancestors) ->
  translationCache st !! captionText originalP = Some (Some translatedText) ->
  translatedText <> "" ->
  translatedSibling id (document st) = None ->
  let t := freshId (document st) in
  let translatedP :=
    Elem {| eid := t; tagName := "p"; classList := ["translated-subtitle"];
            lang := None; styleDisplay := Some "block" |} [Text translatedText] in
  let st1 := showOne id st in
  document st1 = insertBefore translatedP id (document st)
  /\ NoDup (ids (document st1))
  /\ translatedSibling id (document st1) = Some translatedP
  /\ locate id (document st1) = Some (originalP, parentNode :: ancestors)
  /\ domWrites st1
     = domWrites st
       ++ [CreateElement t "p"; SetClassName t "translated-subtitle"; InsertBefore t id;
           SetInnerText t translatedText; SetStyleDisplay t "block"]
  /\ showOne id st1
     = patched (document st1)
         [SetInnerText t translatedText; SetStyleDisplay t "block"] st1.
Proof. apply showOne_creates_element. Qed.

Lemma translated_element_is_created_once_witness :
  translatedSibling 5
    (document (showOne 5 (Sample.withCache Sample.oneReady
                            (Sample.player [PAUSED_MARKER] Sample.twoLines))))
  = Some (Elem {| eid := 7; tagName := "p"; classList := ["translated-subtitle"];
                  lang := None; styleDisplay := Some "block" |} [Text "Good evening"])
  /\ domWrites (showOne 5 (Sample.withCache Sample.oneReady
                             (Sample.player [PAUSED_MARKER] Sample.twoLines)))
     = [CreateElement 7 "p"; SetClassName 7 "translated-subtitle"; InsertBefore 7 5;
        SetInnerText 7 "Good evening"; SetStyleDisplay 7 "block"].
Proof.
  pose proof (translated_element_is_created_once
                (Sample.withCache Sample.oneReady
                   (Sample.player [PAUSED_MARKER] Sample.twoLines))
                5 (Sample.paragraph 5 "Guten Abend")
                (Sample.el 3 "div" ["ardplayer-untertitel"] (Some "de-DE"))
                [Sample.el 1 "body" [] None; Sample.el 0 "html" [] None]
                "Good evening") as H.
  specialize (H ltac:(apply (bool_decide_unpack _); vm_compute; exact I)
                ltac:(vm_compute; reflexivity)
                ltac:(vm_compute; reflexivity)
                ltac:(discriminate)
                ltac:(vm_compute; reflexivity)).
  cbv zeta in H. destruct H as (_ & _ & H3 & _ & H5 & _).
  split; [exact H3 | exact H5].
Defined.

End Shown.

Section EndToEnd.

Lemma showStoredSubtitle_single st e :
  querySelectorAll SEL_CAPTION (document st) = [e] ->
  showStoredSubtitle st = showOne (eid e) st.
Proof. intros H. unfold showStoredSubtitle. now rewrite H. Qed.

Lemma checkAndShowSubtitles_paused_shows st :
  paused (document st) = true -> checkAndShowSubtitles st = showStoredSubtitle st.
Proof.
  unfold paused, checkAndShowSubtitles.
  destruct (querySelector SEL_PLAYPAUSE (document st)); [|discriminate].
  now intros ->.
Qed.



End EndToEnd.

(* ===================================================================== *)
(** * Part XVII.  Sessions: navigation, teardown, start                  *)
(* ===================================================================== *)

Section Navigation.

Lemma onNavigation_once st : onNavigation (onNavigation st) = onNavigation st.
Proof.
  unfold onNavigation.
  destruct (String.eqb (location st) (currentUrl st)) eqn:E.
  - now rewrite E.
  - simpl. now rewrite String.eqb_refl.
Qed.

(** ** The listeners stay *)

Lemma listeners_settle p r st : listeners (settle p r st) = listeners st.
Proof. unfold settle. frame. Qed.

Lemma listeners_waitForElement sel t k st :
  listeners (waitForElement sel t k st) = listeners st.
Proof. unfold waitForElement. frame; now rewrite listeners_settle. Qed.

Lemma listeners_waiterCallback p o st : listeners (waiterCallback p o st) = listeners st.
Proof. unfold waiterCallback. frame; now rewrite listeners_settle. Qed.

Lemma listeners_waiterTimeout p o st : listeners (waiterTimeout p o st) = listeners st.
Proof. unfold waiterTimeout. frame; now rewrite listeners_settle. Qed.

Lemma listeners_cleanup st : listeners (cleanup st) = listeners st.
Proof.
  unfold cleanup.
  change (listeners (fold_left (fun s o => disconnect o s) (observers st) st)
          = listeners st).
  apply (fold_left_preserves (fun s => listeners s = listeners st)); auto.
Qed.

Lemma listeners_initializeExtension st : listeners (initializeExtension st) = listeners st.
Proof.
  unfold initializeExtension. now rewrite listeners_waitForElement, listeners_cleanup.
Qed.

Lemma listeners_resume k r st : listeners (resume k r st) = listeners st.
Proof. unfold resume. frame; now rewrite listeners_waitForElement. Qed.

Lemma listeners_showOne id st : listeners (showOne id st) = listeners st.
Proof. unfold showOne. frame. Qed.

Lemma listeners_checkAndShowSubtitles st :
  listeners (checkAndShowSubtitles st) = listeners st.
Proof.
  unfold checkAndShowSubtitles. frame. unfold showStoredSubtitle.
  apply (fold_left_preserves (fun s => listeners s = listeners st)); [|reflexivity].
  intros s q <-. apply listeners_showOne.
Qed.

Lemma listeners_storeSubtitle n st : listeners (storeSubtitle n st) = listeners st.
Proof. unfold storeSubtitle. frame. Qed.

Lemma listeners_captionCallback added st : listeners (captionCallback added st) = listeners st.
Proof.
  unfold captionCallback.
  apply (fold_left_preserves (fun s => listeners s = listeners st)); [|reflexivity].
  intros s id <-. unfold onAddedNode. frame. now rewrite listeners_storeSubtitle.
Qed.

Lemma listeners_onNavigation st : listeners (onNavigation st) = listeners st.
Proof. unfold onNavigation. frame. Qed.

Lemma listeners_deliver kind site added o st :
  listeners (deliver kind site added o st) = listeners st.
Proof.
  unfold deliver. repeat case_match; try reflexivity.
  destruct (callbackOf _); simpl.
  - apply listeners_waiterCallback.
  - apply listeners_captionCallback.
  - apply listeners_checkAndShowSubtitles.
  - apply listeners_onNavigation.
Qed.

Lemma listeners_step ev st st' : step ev st = Some st' -> listeners st' = listeners st.
Proof.
  unfold step.
  destruct ev as [doc kind site added|url|url| |k'| |k' r'],
           (jobs st) as [|[k0 result] rest] eqn:Ejobs;
    try discriminate; intros [= E]; simpl.
  - subst st'. unfold notify.
    apply (fold_left_preserves (fun s => listeners s = listeners st)); [|reflexivity].
    intros s x <-. apply listeners_deliver.
  - now subst st'.
  - subst st'. destruct (popstateListener st) eqn:Ep; [|reflexivity].
    now rewrite listeners_onNavigation.
  - subst st'. destruct (domContentLoadedListener st); [|reflexivity].
    apply listeners_initializeExtension.
  - destruct (timers st !! k') as [[delay action]|] eqn:Hk; [|discriminate].
    injection E as <-. destruct action; simpl.
    + now rewrite listeners_waiterTimeout.
    + now rewrite listeners_initializeExtension.
    + now rewrite listeners_initializeExtension.
  - subst st'. now rewrite listeners_resume.
  - destruct (pendingRequests st !! k') as [text|]; [|discriminate].
    injection E as <-. unfold onTranslation. case_match; [reflexivity|].
    now rewrite listeners_checkAndShowSubtitles.
Qed.

Lemma popstateListener_reachable st : reachable st -> popstateListener st = true.
Proof.
  revert st. apply (reachable_invariant (fun st => popstateListener st = true)).
  - intros loading doc url. unfold start, main, setupNavigationDetection. reflexivity.
  - intros ev s s' H Hstep. apply listeners_step in Hstep.
    unfold listeners in Hstep. congruence.
Qed.

(** X13.  The back/forward signal works in every session: in any state
    the script can reach, a [popstate] event with a new address records
    the address and sets the restart timer of 500 ms, and when that
    timer fires [initializeExtension] runs.  The listener is never
    removed. *)
Theorem popstate_restarts_every_session (st : state) (url : string) :
  reachable st -> jobs st = [] -> url <> currentUrl st ->
  let i := List.length (timers st) in
  exists st',
    step (Popstate url) st = Some st'
    /\ currentUrl st' = url
    /\ location st' = url
    /\ timers st' = timers st ++ [(500%N, Reinitialize)]
    /\ step (TimerFires i) st' = Some (initializeExtension (on_timers (delete i) st')).
Proof.
  intros Hreach Hj Hne i. unfold step. rewrite Hj. simpl.
  rewrite (popstateListener_reachable st Hreach).
  eexists. split; [reflexivity|]. unfold onNavigation. simpl.
  destruct (String.eqb url (currentUrl st)) eqn:E.
  - apply String.eqb_eq in E. contradiction.
  - simpl. rewrite Hj. unfold i. rewrite list_lookup_middle by reflexivity. auto.
Qed.

Lemma popstate_restarts_every_session_witness :
  exists st',
    step (Popstate Sample.url2) Sample.reported = Some st'
    /\ currentUrl st' = Sample.url2
    /\ timers st' = timers Sample.reported ++ [(500%N, Reinitialize)].
Proof.
  pose proof (popstate_restarts_every_session Sample.reported Sample.url2
                reachable_reported) as H.
  specialize (H ltac:(vm_compute; reflexivity)).
  specialize (H ltac:(vm_compute; congruence)).
  cbv zeta in H. destruct H as (st' & H1 & H2 & _ & H4 & _).
  exists st'. split; [exact H1|]. split; [exact H2 | exact H4].
Defined.

(** X14.  A navigation is handled once: the handler records the address
    it has seen, so the same signal again, with the address unchanged,
    changes nothing and sets no second timer. *)
Theorem repeated_popstate_changes_nothing (st : state) (url : string) (st' : state) :
  step (Popstate url) st = Some st' ->
  step (Popstate url) st' = Some st'.
Proof.
  unfold step. destruct (jobs st) eqn:Hj; [|discriminate]. intros [= <-].
  assert (Hloc : forall s, location s = url -> on_location (fun _ => url) s = s).
  { intros s <-. now destruct s. }
  change (popstateListener (on_location (fun _ => url) st)) with (popstateListener st).
  destruct (popstateListener st) eqn:Hp.
  - assert (Hj' : jobs (onNavigation (on_location (fun _ => url) st)) = []).
    { unfold onNavigation. destruct (String.eqb _ _); exact Hj. }
    assert (Hp' : popstateListener (onNavigation (on_location (fun _ => url) st)) = true).
    { unfold onNavigation. destruct (String.eqb _ _); exact Hp. }
    assert (Hl' : location (onNavigation (on_location (fun _ => url) st)) = url).
    { unfold onNavigation. destruct (String.eqb _ _); reflexivity. }
    rewrite Hj'. cbv zeta. rewrite (Hloc _ Hl'). rewrite Hp'. now rewrite onNavigation_once.
  - change (jobs (on_location (fun _ => url) st)) with (jobs st). rewrite Hj.
    cbv zeta. rewrite (Hloc (on_location (fun _ => url) st) eq_refl).
    change (popstateListener (on_location (fun _ => url) st)) with (popstateListener st).
    now rewrite Hp.
Qed.

Lemma repeated_popstate_changes_nothing_witness :
  timers Scenario.wentBack = [(500%N, Reinitialize)]
  /\ step (Popstate Sample.url2) Scenario.wentBack = Some Scenario.wentBack.
Proof.
  split; [vm_compute; reflexivity|].
  apply (repeated_popstate_changes_nothing Sample.reported Sample.url2 Scenario.wentBack).
  vm_compute. reflexivity.
Defined.

End Navigation.

Section Teardown.

Lemma sessionReleased_listed st : sessionReleased st -> sessionListed st.
Proof. intros H o m Hm Hc Hn. now specialize (H o m Hm Hc). Qed.

Lemma sessionReleased_urlDead st : sessionReleased st -> urlDead st.
Proof. intros H o m Hm Hc. apply (H o m Hm). now rewrite Hc. Qed.

Lemma urlDead_observers st st' :
  mutationObservers st' = mutationObservers st -> urlDead st -> urlDead st'.
Proof. unfold urlDead. now intros ->. Qed.

Lemma urlDead_control st st' : control st' = control st -> urlDead st -> urlDead st'.
Proof. unfold control. intros [= _ Hm _ _]. now apply urlDead_observers. Qed.

Lemma sessionListed_control st st' :
  control st' = control st -> sessionListed st -> sessionListed st'.
Proof. unfold control, sessionListed. intros [= _ Hm _ Ho]. now rewrite Hm, Ho. Qed.

Lemma urlDead_observe st cb what :
  urlDead st -> cb <> UrlCallback -> urlDead (snd (observe cb what st)).
Proof.
  intros H Hcb o m Hm Hc. simpl in Hm. snoc_lookup Hm; [eauto|].
  subst m. simpl in Hc. contradiction.
Qed.

(** An observer of a wait is made. *)
Lemma sessionListed_observe_waiter st p what :
  sessionListed st -> sessionListed (snd (observe (WaiterCallback p) what st)).
Proof.
  intros H o m Hm Hc. simpl in *. snoc_lookup Hm; [eauto|].
  subst m. discriminate.
Qed.

(** An observer of the session is made and put on the list. *)
Lemma sessionListed_observe_push st cb what :
  sessionListed st ->
  sessionListed (push (List.length (mutationObservers st)) (snd (observe cb what st))).
Proof.
  intros H o m Hm Hc Hn. simpl in *. apply elem_of_app. snoc_lookup Hm.
  - left. eauto.
  - right. apply list_elem_of_singleton. assumption.
Qed.

Lemma urlDead_disconnect st o' : urlDead st -> urlDead (disconnect o' st).
Proof.
  intros H o m Hm Hc. simpl in Hm.
  apply lookup_alter_disconnect in Hm as (m0 & Hm0 & E & [Hn| ->]); [exact Hn|].
  eauto.
Qed.

Lemma sessionListed_disconnect st o' : sessionListed st -> sessionListed (disconnect o' st).
Proof.
  intros H o m Hm Hc Hn. simpl in *.
  apply lookup_alter_disconnect in Hm as (m0 & Hm0 & E & [Hn'| ->]); [contradiction|].
  eauto.
Qed.

Lemma urlDead_settle st p r : urlDead st -> urlDead (settle p r st).
Proof. apply urlDead_observers. unfold settle. frame. Qed.

Lemma sessionListed_settle st p r : sessionListed st -> sessionListed (settle p r st).
Proof. intros H. unfold settle. repeat case_match; exact H. Qed.

Lemma urlDead_waitForElement st sel t k : urlDead st -> urlDead (waitForElement sel t k st).
Proof.
  intros H. unfold waitForElement. simpl.
  destruct (querySelector sel (document st)).
  - apply urlDead_settle. exact H.
  - pose proof (urlDead_observe
                  (on_promises (fun l => l ++ [{| selectorOf := sel; status := Pending;
                                                  awaitedBy := k |}]) st)
                  (WaiterCallback (List.length (promises st))) (ChildListSubtree None)) as H1.
    simpl in H1. apply H1; [exact H | discriminate].
Qed.

Lemma sessionListed_waitForElement st sel t k :
  sessionListed st -> sessionListed (waitForElement sel t k st).
Proof.
  intros H. unfold waitForElement. simpl.
  destruct (querySelector sel (document st)).
  - apply sessionListed_settle. exact H.
  - pose proof (sessionListed_observe_waiter
                  (on_promises (fun l => l ++ [{| selectorOf := sel; status := Pending;
                                                  awaitedBy := k |}]) st)
                  (List.length (promises st)) (ChildListSubtree None)) as H1.
    simpl in H1. now apply H1.
Qed.

Lemma urlDead_waiterCallback st p o : urlDead st -> urlDead (waiterCallback p o st).
Proof.
  intros H. unfold waiterCallback. repeat case_match; try exact H.
  apply urlDead_settle. now apply urlDead_disconnect.
Qed.

Lemma sessionListed_waiterCallback st p o :
  sessionListed st -> sessionListed (waiterCallback p o st).
Proof.
  intros H. unfold waiterCallback. repeat case_match; try exact H.
  apply sessionListed_settle. now apply sessionListed_disconnect.
Qed.

Lemma urlDead_waiterTimeout st p o : urlDead st -> urlDead (waiterTimeout p o st).
Proof.
  intros H. unfold waiterTimeout. repeat case_match; try exact H.
  apply urlDead_settle. now apply urlDead_disconnect.
Qed.

Lemma sessionListed_waiterTimeout st p o :
  sessionListed st -> sessionListed (waiterTimeout p o st).
Proof.
  intros H. unfold waiterTimeout. repeat case_match; try exact H.
  apply sessionListed_settle. now apply sessionListed_disconnect.
Qed.

(** [cleanup] releases every observer of the session. *)
Lemma sessionReleased_cleanup st : sessionListed st -> sessionReleased (cleanup st).
Proof.
  intros H o m Hm Hc.
  unfold cleanup in Hm. simpl in Hm.
  destruct (fold_disconnect_lookup _ _ _ _ Hm) as (Hin & m0 & Hm0 & Hcb & Hnone).
  destruct (observing m0) eqn:E; [|auto].
  apply Hin. apply (H o m0 Hm0); [congruence|]. rewrite E. discriminate.
Qed.

Lemma urlDead_initializeExtension st : sessionListed st -> urlDead (initializeExtension st).
Proof.
  intros H. apply urlDead_waitForElement.
  now apply sessionReleased_urlDead, sessionReleased_cleanup.
Qed.

Lemma sessionListed_initializeExtension st :
  sessionListed st -> sessionListed (initializeExtension st).
Proof.
  intros H. apply sessionListed_waitForElement.
  now apply sessionReleased_listed, sessionReleased_cleanup.
Qed.

Lemma urlDead_resume st k r : urlDead st -> urlDead (resume k r st).
Proof.
  intros H. unfold resume. destruct k, r; try exact H.
  - pose proof (urlDead_observe st CaptionCallback (ChildListSubtree (Some (eid e))) H) as H1.
    simpl in *. apply urlDead_waitForElement. apply H1. discriminate.
  - pose proof (urlDead_observe st PlayPauseCallback (ClassAttribute (eid e)) H) as H1.
    simpl in *. apply H1. discriminate.
Qed.

Lemma sessionListed_resume st k r : sessionListed st -> sessionListed (resume k r st).
Proof.
  intros H. unfold resume. destruct k, r; try exact H.
  - apply sessionListed_waitForElement.
    apply (sessionListed_observe_push st CaptionCallback _ H).
  - apply (sessionListed_observe_push st PlayPauseCallback _ H).
Qed.

Lemma urlDead_deliver st kind site added o :
  urlDead st -> urlDead (deliver kind site added o st).
Proof.
  intros H. unfold deliver. repeat case_match; try exact H.
  destruct (callbackOf _); simpl.
  - now apply urlDead_waiterCallback.
  - eapply urlDead_control; [apply control_captionCallback | exact H].
  - eapply urlDead_control; [apply control_checkAndShowSubtitles | exact H].
  - unfold onNavigation. now destruct (String.eqb _ _).
Qed.

Lemma sessionListed_deliver st kind site added o :
  sessionListed st -> sessionListed (deliver kind site added o st).
Proof.
  intros H. unfold deliver. repeat case_match; try exact H.
  destruct (callbackOf _); simpl.
  - now apply sessionListed_waiterCallback.
  - eapply sessionListed_control; [apply control_captionCallback | exact H].
  - eapply sessionListed_control; [apply control_checkAndShowSubtitles | exact H].
  - unfold onNavigation. now destruct (String.eqb _ _).
Qed.

Lemma urlDead_step ev st st' :
  sessionListed st -> urlDead st -> step ev st = Some st' -> urlDead st'.
Proof.
  intros HL H. unfold step.
  destruct ev as [doc kind site added|url|url| |k'| |k' r'],
           (jobs st) as [|[k0 result] rest] eqn:Ejobs;
    try discriminate; intros [= E]; simpl.
  - subst st'. unfold notify.
    apply (fold_left_preserves urlDead); [|exact H].
    intros s x Hs. now apply urlDead_deliver.
  - now subst st'.
  - subst st'. destruct (popstateListener st); [|exact H].
    unfold onNavigation. simpl. now destruct (String.eqb _ _).
  - subst st'. destruct (domContentLoadedListener st); [|exact H].
    now apply urlDead_initializeExtension.
  - destruct (timers st !! k') as [[delay action]|] eqn:Hk; [|discriminate].
    injection E as <-. destruct action; simpl.
    + now apply urlDead_waiterTimeout.
    + now apply urlDead_initializeExtension.
    + now apply urlDead_initializeExtension.
  - subst st'. now apply (urlDead_resume (on_jobs (fun _ => rest) st)).
  - destruct (pendingRequests st !! k') as [text|]; [|discriminate].
    injection E as <-.
    eapply urlDead_control; [apply control_onTranslation | exact H].
Qed.

Lemma sessionListed_step ev st st' :
  sessionListed st -> step ev st = Some st' -> sessionListed st'.
Proof.
  intros H. unfold step.
  destruct ev as [doc kind site added|url|url| |k'| |k' r'],
           (jobs st) as [|[k0 result] rest] eqn:Ejobs;
    try discriminate; intros [= E]; simpl.
  - subst st'. unfold notify.
    apply (fold_left_preserves sessionListed); [|exact H].
    intros s x Hs. now apply sessionListed_deliver.
  - now subst st'.
  - subst st'. destruct (popstateListener st); [|exact H].
    unfold onNavigation. simpl. now destruct (String.eqb _ _).
  - subst st'. destruct (domContentLoadedListener st); [|exact H].
    now apply sessionListed_initializeExtension.
  - destruct (timers st !! k') as [[delay action]|] eqn:Hk; [|discriminate].
    injection E as <-. destruct action; simpl.
    + now apply sessionListed_waiterTimeout.
    + now apply (sessionListed_initializeExtension (on_timers (delete k') st)).
    + now apply (sessionListed_initializeExtension (log Retrying (on_timers (delete k') st))).
  - subst st'. now apply (sessionListed_resume (on_jobs (fun _ => rest) st)).
  - destruct (pendingRequests st !! k') as [text|]; [|discriminate].
    injection E as <-.
    eapply sessionListed_control; [apply control_onTranslation | exact H].
Qed.

Lemma sessionListed_start loading doc url : sessionListed (start loading doc url).
Proof.
  unfold start, main.
  assert (H : sessionListed (if loading
                             then on_domContentLoadedListener (fun _ => true) (page doc url)
                             else initializeExtension (page doc url))).
  { assert (Hp : sessionListed (page doc url)) by (intros o m Hm; discriminate).
    destruct loading; [exact Hp|].
    now apply sessionListed_initializeExtension. }
  revert H. generalize (if loading
                        then on_domContentLoadedListener (fun _ => true) (page doc url)
                        else initializeExtension (page doc url)).
  intros st H. unfold setupNavigationDetection.
  apply (sessionListed_observe_push (on_popstateListener (fun _ => true) st)
           UrlCallback (ChildListSubtree None)).
  exact H.
Qed.

Lemma sessionListed_reachable st : reachable st -> sessionListed st.
Proof.
  revert st. apply (reachable_invariant sessionListed).
  - apply sessionListed_start.
  - intros ev s s'. apply sessionListed_step.
Qed.

Lemma urlDead_run evs : forall st st',
  sessionListed st -> urlDead st -> run evs st = Some st' -> urlDead st'.
Proof.
  induction evs as [|ev evs IH]; intros st st' HL H; simpl.
  - now intros [= <-].
  - destruct (step ev st) as [st1|] eqn:E; [|discriminate].
    apply IH.
    + eapply sessionListed_step; eauto.
    + eapply urlDead_step; eauto.
Qed.

(** With no observer of the address connected, a mutation changes
    neither the recorded address nor the timers. *)
Lemma navigationState_settle p r st : navigationState (settle p r st) = navigationState st.
Proof. unfold settle. frame. Qed.

Lemma navigationState_waiterCallback p o st :
  navigationState (waiterCallback p o st) = navigationState st.
Proof. unfold waiterCallback. frame; now rewrite navigationState_settle. Qed.

Lemma navigationState_storeSubtitle n st :
  navigationState (storeSubtitle n st) = navigationState st.
Proof. unfold storeSubtitle. frame. Qed.

Lemma navigationState_captionCallback added st :
  navigationState (captionCallback added st) = navigationState st.
Proof.
  unfold captionCallback.
  apply (fold_left_preserves (fun s => navigationState s = navigationState st)); [|reflexivity].
  intros s id <-. unfold onAddedNode. frame. now rewrite navigationState_storeSubtitle.
Qed.

Lemma navigationState_showOne id st : navigationState (showOne id st) = navigationState st.
Proof. unfold showOne. frame. Qed.

Lemma navigationState_checkAndShowSubtitles st :
  navigationState (checkAndShowSubtitles st) = navigationState st.
Proof.
  unfold checkAndShowSubtitles. frame. unfold showStoredSubtitle.
  apply (fold_left_preserves (fun s => navigationState s = navigationState st)); [|reflexivity].
  intros s q <-. apply navigationState_showOne.
Qed.

Lemma navigationState_deliver st kind site added o :
  urlDead st -> navigationState (deliver kind site added o st) = navigationState st.
Proof.
  intros H. unfold deliver.
  destruct (mutationObservers st !! o) as [m|] eqn:Hm; [|reflexivity].
  destruct (observing m) as [what|] eqn:Hobs; [|reflexivity].
  destruct (concerns what kind site (document st)); [|reflexivity].
  destruct (callbackOf m) eqn:Hcb; simpl.
  - apply navigationState_waiterCallback.
  - apply navigationState_captionCallback.
  - apply navigationState_checkAndShowSubtitles.
  - specialize (H _ _ Hm Hcb). congruence.
Qed.

Lemma navigationState_fold_deliver kind site added os : forall st,
  urlDead st ->
  navigationState (fold_left (fun s o => deliver kind site added o s) os st)
  = navigationState st.
Proof.
  induction os as [|o os IH]; intros st H; simpl; [reflexivity|].
  rewrite IH by now apply urlDead_deliver.
  now apply navigationState_deliver.
Qed.

Lemma urlDead_mutation st1 doc kind site added st2 :
  urlDead st1 ->
  step (Mutation doc kind site added) st1 = Some st2 ->
  currentUrl st2 = currentUrl st1 /\ timers st2 = timers st1.
Proof.
  intros Hdead Hstep.
  unfold step in Hstep. destruct (jobs st1); [|discriminate].
  injection Hstep as <-. unfold notify.
  pose proof (navigationState_fold_deliver kind site added
                (seq 0 (List.length (mutationObservers (on_document (fun _ => doc) st1))))
                (on_document (fun _ => doc) st1) Hdead) as H.
  unfold navigationState in H. simpl in H. injection H as H1 H2. auto.
Qed.

(** X15.  The mutation signal of [setupNavigationDetection] ends with
    the first run of [initializeExtension] after it was set up, in every
    session and for good: [cleanup] disconnects the observer of the
    address with the others, and nothing connects one again.  From then
    on no mutation of the document, whatever the address is by then,
    changes the recorded address or sets a timer. *)
Theorem mutation_signal_ends_with_first_restart
    (st : state) (evs : list event) (st1 : state)
    (doc : node) (kind : mutationKind) (site : nat) (added : list nat) (st2 : state) :
  reachable st ->
  run evs (initializeExtension st) = Some st1 ->
  step (Mutation doc kind site added) st1 = Some st2 ->
  currentUrl st2 = currentUrl st1 /\ timers st2 = timers st1.
Proof.
  intros Hreach Hrun Hstep.
  pose proof (sessionListed_reachable st Hreach) as HL.
  apply (urlDead_mutation st1 doc kind site added st2); [|exact Hstep].
  eapply urlDead_run; [| |exact Hrun].
  - now apply sessionListed_initializeExtension.
  - now apply urlDead_initializeExtension.
Qed.

Lemma reachable_loaded : reachable Scenario.loaded.
Proof.
  exists false, (Sample.player [] Sample.twoLines), Sample.url, []. reflexivity.
Qed.

Lemma mutation_signal_ends_with_first_restart_witness :
  location Scenario.restarted = Sample.url2
  /\ currentUrl (Sample.after [Scenario.mutation] Scenario.restarted)
     = currentUrl Scenario.restarted
  /\ timers (Sample.after [Scenario.mutation] Scenario.restarted)
     = timers Scenario.restarted.
Proof.
  split; [vm_compute; reflexivity|].
  apply (mutation_signal_ends_with_first_restart Scenario.loaded Scenario.moved
           Scenario.restarted (Sample.player [] Sample.twoLines) ChildList 1 []
           (Sample.after [Scenario.mutation] Scenario.restarted) reachable_loaded).
  - vm_compute. reflexivity.
  - vm_compute. reflexivity.
Defined.

Lemma run_cons ev evs st :
  run (ev :: evs) st = match step ev st with Some s => run evs s | None => None end.
Proof. reflexivity. Qed.

Lemma step_DOMContentLoaded_loading doc0 url :
  step DOMContentLoaded (start true doc0 url)
  = Some (initializeExtension (start true doc0 url)).
Proof.
  unfold step.
  replace (jobs (start true doc0 url)) with (@nil (continuation * promiseState))
    by reflexivity.
  replace (domContentLoadedListener (start true doc0 url)) with true by reflexivity.
  reflexivity.
Qed.

(** X16.  When the script is evaluated while the document is loading
    (lines 192-193), the observer of the address is made before the
    first initialization and that initialization, on DOMContentLoaded,
    disconnects it: a change of the address is never noticed through a
    mutation, not even the first one. *)
Theorem started_while_loading_never_notices_mutations
    (doc0 : node) (url : string) (evs : list event) (st1 : state)
    (doc : node) (kind : mutationKind) (site : nat) (added : list nat) (st2 : state) :
  run (DOMContentLoaded :: evs) (start true doc0 url) = Some st1 ->
  step (Mutation doc kind site added) st1 = Some st2 ->
  currentUrl st2 = currentUrl st1 /\ timers st2 = timers st1.
Proof.
  intros Hrun Hstep.
  rewrite run_cons, step_DOMContentLoaded_loading in Hrun.
  pose proof (sessionListed_start true doc0 url) as HL.
  apply (urlDead_mutation st1 doc kind site added st2); [|exact Hstep].
  eapply urlDead_run; [| |exact Hrun].
  - now apply sessionListed_initializeExtension.
  - now apply urlDead_initializeExtension.
Qed.

Lemma started_while_loading_never_notices_mutations_witness :
  location Scenario.loadedLate = Sample.url2
  /\ currentUrl (Sample.after [Scenario.mutation] Scenario.loadedLate)
     = currentUrl Scenario.loadedLate
  /\ timers (Sample.after [Scenario.mutation] Scenario.loadedLate)
     = timers Scenario.loadedLate.
Proof.
  split; [vm_compute; reflexivity|].
  apply (started_while_loading_never_notices_mutations
           (Sample.player [] Sample.twoLines) Sample.url Scenario.movedAfterLoading
           Scenario.loadedLate (Sample.player [] Sample.twoLines) ChildList 1 []
           (Sample.after [Scenario.mutation] Scenario.loadedLate)).
  - vm_compute. reflexivity.
  - vm_compute. reflexivity.
Defined.

Lemma sessionOnly_control st st' :
  control st' = control st -> sessionOnly st -> sessionOnly st'.
Proof. unfold control, sessionOnly. intros [= _ Hm _ Ho]. now rewrite Hm, Ho. Qed.

Lemma sessionOnly_observe st cb what :
  sessionOnly st -> sessionOnly (snd (observe cb what st)).
Proof.
  intros H o Hin. destruct (H o Hin) as (m & Hm & Hc). exists m. simpl.
  split; [|exact Hc]. apply lookup_app_l_Some. exact Hm.
Qed.

Lemma sessionOnly_observe_push st cb what :
  isWaiter cb = false -> sessionOnly st ->
  sessionOnly (push (List.length (mutationObservers st)) (snd (observe cb what st))).
Proof.
  intros Hcb H o Hin. simpl in *. apply elem_of_app in Hin as [Hin|Hin].
  - destruct (H o Hin) as (m & Hm & Hc). exists m.
    split; [|exact Hc]. apply lookup_app_l_Some. exact Hm.
  - apply list_elem_of_singleton in Hin. subst o.
    eexists. split; [now apply list_lookup_middle | exact Hcb].
Qed.

Lemma sessionOnly_disconnect st o' : sessionOnly st -> sessionOnly (disconnect o' st).
Proof.
  intros H o Hin. destruct (H o Hin) as (m & Hm & Hc). simpl.
  destruct (decide (o' = o)) as [->|Hne].
  - exists (released m). rewrite list_lookup_alter_eq, Hm. split; [reflexivity | exact Hc].
  - exists m. rewrite list_lookup_alter_ne by auto. auto.
Qed.

Lemma sessionOnly_settle st p r : sessionOnly st -> sessionOnly (settle p r st).
Proof. intros H. unfold settle. repeat case_match; exact H. Qed.

Lemma sessionOnly_waitForElement st sel t k :
  sessionOnly st -> sessionOnly (waitForElement sel t k st).
Proof.
  intros H. unfold waitForElement. simpl.
  destruct (querySelector sel (document st)).
  - apply sessionOnly_settle. exact H.
  - pose proof (sessionOnly_observe
                  (on_promises (fun l => l ++ [{| selectorOf := sel; status := Pending;
                                                  awaitedBy := k |}]) st)
                  (WaiterCallback (List.length (promises st))) (ChildListSubtree None)) as H1.
    simpl in H1. now apply H1.
Qed.

Lemma sessionOnly_waiterCallback st p o :
  sessionOnly st -> sessionOnly (waiterCallback p o st).
Proof.
  intros H. unfold waiterCallback. repeat case_match; try exact H.
  apply sessionOnly_settle. now apply sessionOnly_disconnect.
Qed.

Lemma sessionOnly_waiterTimeout st p o :
  sessionOnly st -> sessionOnly (waiterTimeout p o st).
Proof.
  intros H. unfold waiterTimeout. repeat case_match; try exact H.
  apply sessionOnly_settle. now apply sessionOnly_disconnect.
Qed.

Lemma sessionOnly_cleanup st : sessionOnly (cleanup st).
Proof. intros o Hin. simpl in Hin. now apply elem_of_nil in Hin. Qed.

Lemma sessionOnly_initializeExtension st : sessionOnly (initializeExtension st).
Proof. apply sessionOnly_waitForElement, sessionOnly_cleanup. Qed.

Lemma sessionOnly_resume st k r : sessionOnly st -> sessionOnly (resume k r st).
Proof.
  intros H. unfold resume. destruct k, r; try exact H.
  - apply sessionOnly_waitForElement.
    now apply (sessionOnly_observe_push st CaptionCallback).
  - now apply (sessionOnly_observe_push st PlayPauseCallback).
Qed.

Lemma sessionOnly_deliver st kind site added o :
  sessionOnly st -> sessionOnly (deliver kind site added o st).
Proof.
  intros H. unfold deliver. repeat case_match; try exact H.
  destruct (callbackOf _); simpl.
  - now apply sessionOnly_waiterCallback.
  - eapply sessionOnly_control; [apply control_captionCallback | exact H].
  - eapply sessionOnly_control; [apply control_checkAndShowSubtitles | exact H].
  - unfold onNavigation. now destruct (String.eqb _ _).
Qed.

Lemma sessionOnly_step ev st st' :
  sessionOnly st -> step ev st = Some st' -> sessionOnly st'.
Proof.
  intros H. unfold step.
  destruct ev as [doc kind site added|url|url| |k'| |k' r'],
           (jobs st) as [|[k0 result] rest] eqn:Ejobs;
    try discriminate; intros [= E]; simpl.
  - subst st'. unfold notify.
    apply (fold_left_preserves sessionOnly); [|exact H].
    intros s x Hs. now apply sessionOnly_deliver.
  - now subst st'.
  - subst st'. destruct (popstateListener st); [|exact H].
    unfold onNavigation. simpl. now destruct (String.eqb _ _).
  - subst st'. destruct (domContentLoadedListener st); [|exact H].
    apply sessionOnly_initializeExtension.
  - destruct (timers st !! k') as [[delay action]|] eqn:Hk; [|discriminate].
    injection E as <-. destruct action; simpl.
    + now apply sessionOnly_waiterTimeout.
    + apply sessionOnly_initializeExtension.
    + apply sessionOnly_initializeExtension.
  - subst st'. now apply (sessionOnly_resume (on_jobs (fun _ => rest) st)).
  - destruct (pendingRequests st !! k') as [text|]; [|discriminate].
    injection E as <-.
    eapply sessionOnly_control; [apply control_onTranslation | exact H].
Qed.

Lemma sessionOnly_start loading doc url : sessionOnly (start loading doc url).
Proof.
  unfold start, main.
  assert (H : sessionOnly (if loading
                           then on_domContentLoadedListener (fun _ => true) (page doc url)
                           else initializeExtension (page doc url))).
  { destruct loading; [|apply sessionOnly_initializeExtension].
    intros o Hin. now apply elem_of_nil in Hin. }
  revert H. generalize (if loading
                        then on_domContentLoadedListener (fun _ => true) (page doc url)
                        else initializeExtension (page doc url)).
  intros st H. unfold setupNavigationDetection.
  now apply (sessionOnly_observe_push (on_popstateListener (fun _ => true) st)
               UrlCallback (ChildListSubtree None)).
Qed.

Lemma sessionOnly_reachable st : reachable st -> sessionOnly st.
Proof.
  revert st. apply (reachable_invariant sessionOnly).
  - apply sessionOnly_start.
  - intros ev s s'. apply sessionOnly_step.
Qed.

Lemma released_idempotent m : released (released m) = released m.
Proof. reflexivity. Qed.

Lemma fold_disconnect_exact os : forall st o,
  mutationObservers (fold_left (fun s o => disconnect o s) os st) !! o
  = if decide (o ∈ os) then released <$> mutationObservers st !! o
    else mutationObservers st !! o.
Proof.
  induction os as [|o' os IH]; intros st o; simpl.
  - destruct (decide (o ∈ [])) as [Hin|_]; [|reflexivity]. now apply elem_of_nil in Hin.
  - rewrite IH. simpl. fold released.
    destruct (decide (o' = o)) as [->|Hne].
    + rewrite list_lookup_alter_eq.
      destruct (decide (o ∈ o :: os)) as [_|Hn]; [|exfalso; apply Hn; now left].
      destruct (decide (o ∈ os)); [|reflexivity].
      now destruct (mutationObservers st !! o).
    + rewrite list_lookup_alter_ne by auto.
      destruct (decide (o ∈ os)) as [Hin|Hn], (decide (o ∈ o' :: os)) as [Hin'|Hn'];
        try reflexivity.
      * exfalso. apply Hn'. now right.
      * exfalso. apply elem_of_cons in Hin' as [->|Hin']; auto.
Qed.

(** X17.  [cleanup] releases the observers of the session and nothing
    else.  In any state the script can reach, after it every caption,
    play/pause and address observer is disconnected, so a mutation
    reported to one of them runs no callback; the list of the observers
    is empty.  The waits in progress are not cancelled: their observers
    are as they were, and so are the promises and the timers, the
    restart and retry timers among them. *)
Theorem cleanup_releases_the_session_only (st : state) :
  reachable st ->
  observers (cleanup st) = []
  /\ timers (cleanup st) = timers st
  /\ promises (cleanup st) = promises st
  /\ (forall o m, mutationObservers st !! o = Some m ->
        mutationObservers (cleanup st) !! o
        = Some (if isWaiter (callbackOf m) then m else released m))
  /\ (forall o m kind site added,
        mutationObservers st !! o = Some m -> isWaiter (callbackOf m) = false ->
        deliver kind site added o (cleanup st) = cleanup st).
Proof.
  intros Hreach.
  destruct (cleanup_frame st) as (_ & Ht & Hp & _ & _ & Ho & Hl).
  split; [exact Ho|]. split; [exact Ht|]. split; [exact Hp|].
  assert (Hall : forall o m, mutationObservers st !! o = Some m ->
             mutationObservers (cleanup st) !! o
             = Some (if isWaiter (callbackOf m) then m else released m));
    [|split; [exact Hall|];
      intros o m kind site added Hm Hw; unfold deliver;
      rewrite (Hall o m Hm), Hw; reflexivity].
  intros o m Hm. unfold cleanup. simpl. rewrite fold_disconnect_exact, Hm. simpl.
  destruct (isWaiter (callbackOf m)) eqn:Hw.
  - destruct (decide (o ∈ observers st)) as [Hin|_]; [|reflexivity].
    destruct (sessionOnly_reachable st Hreach o Hin) as (m' & Hm' & Hc).
    congruence.
  - destruct (decide (o ∈ observers st)) as [_|Hn]; [reflexivity|].
    f_equal. destruct m as [cb [what|]]; [|reflexivity].
    exfalso. apply Hn.
    apply (sessionListed_reachable st Hreach o _ Hm); [exact Hw | discriminate].
Qed.

Lemma cleanup_releases_the_session_only_witness :
  observers Sample.reported = [0; 1; 2]
  /\ observers (cleanup Sample.reported) = []
  /\ mutationObservers (cleanup Sample.reported) !! 1
     = Some {| callbackOf := CaptionCallback; observing := None |}.
Proof.
  split; [vm_compute; reflexivity|].
  destruct (cleanup_releases_the_session_only Sample.reported reachable_reported)
    as (H1 & _ & _ & H4 & _).
  split; [exact H1|].
  apply (H4 1 {| callbackOf := CaptionCallback;
                 observing := Some (ChildListSubtree (Some 3)) |}).
  vm_compute. reflexivity.
Defined.

End Teardown.

Section Startup.

(** X18.  With the caption container and the play/pause button in the
    document, [initializeExtension] completes as soon as the two
    continuations have run: the caption observer and the play/pause
    observer are made, connected and listed, in this order, no timer is
    set, and "initialized" is logged.  It reads nothing else: the
    captions that are in the container already are not submitted, and
    nothing is rendered, until the next mutation is reported. *)
Theorem initialization_completes_on_a_ready_player
    (st : state) (subtitleContainer playPauseButton : element) :
  jobs st = [] ->
  querySelector SEL_CONTAINER (document st) = Some subtitleContainer ->
  querySelector SEL_PLAYPAUSE (document st) = Some playPauseButton ->
  let o := List.length (mutationObservers st) in
  exists st',
    run [RunJob; RunJob] (initializeExtension st) = Some st'
    /\ observers st' = [o; S o]
    /\ mutationObservers st'
       = mutationObservers (cleanup st)
         ++ [{| callbackOf := CaptionCallback;
                observing := Some (ChildListSubtree (Some (eid subtitleContainer))) |};
             {| callbackOf := PlayPauseCallback;
                observing := Some (ClassAttribute (eid playPauseButton)) |}]
    /\ timers st' = timers st
    /\ jobs st' = []
    /\ console st' = console st ++ [Initialized]
    /\ document st' = document st
    /\ domWrites st' = domWrites st
    /\ translations st' = translations st.
Proof.
  intros Hj Hq Hq2 o.
  pose proof (translations_cleanup st) as Htr.
  assert (Hw : domWrites (cleanup st) = domWrites st).
  { unfold cleanup.
    change (domWrites (fold_left (fun s o => disconnect o s) (observers st) st)
            = domWrites st).
    apply (fold_left_preserves (fun s => domWrites s = domWrites st)); auto. }
  destruct (cleanup_frame st) as (Hd & Ht & Hp & Hjc & Hc & Ho & Hl).
  unfold initializeExtension.
  generalize dependent (cleanup st). intros cst Htr Hw Hd Ht Hp Hjc Hc Ho Hl.
  unfold waitForElement.
  simpl. rewrite Hd, Hq. simpl.
  unfold settle. simpl. rewrite list_lookup_middle by reflexivity. simpl.
  rewrite Hjc, Hj. simpl.
  unfold waitForElement. simpl. rewrite Hd, Hq2. simpl.
  unfold settle. simpl.
  rewrite list_lookup_middle by reflexivity. simpl.
  unfold resume. simpl.
  eexists. split; [reflexivity|]. simpl.
  rewrite Ht, Hc, Ho, Hd, Hw. unfold o. rewrite <- Hl, length_app. simpl.
  rewrite <- app_assoc. simpl.
  replace (List.length (mutationObservers cst) + 1) with (S (List.length (mutationObservers cst)))
    by lia.
  repeat split; auto.
Qed.

Lemma initialization_completes_on_a_ready_player_witness :
  exists st',
    run [RunJob; RunJob]
      (initializeExtension (page (Sample.player [] Sample.twoLines) Sample.url))
    = Some st'
    /\ observers st' = [0; 1]
    /\ timers st' = []
    /\ console st' = [Initialized].
Proof.
  pose proof (initialization_completes_on_a_ready_player
                (page (Sample.player [] Sample.twoLines) Sample.url)
                (Sample.el 3 "div" ["ardplayer-untertitel"] (Some "de-DE"))
                (Sample.el 2 "button" ["ardplayer-button-playpause"] None)) as H.
  specialize (H ltac:(reflexivity) ltac:(vm_compute; reflexivity)
                ltac:(vm_compute; reflexivity)).
  cbv zeta in H. destruct H as (st' & H1 & H2 & _ & H4 & _ & H6 & _).
  exists st'. split; [exact H1|]. split; [exact H2|]. split; [exact H4 | exact H6].
Defined.

End Startup.

Section FirstNavigation.

Lemma location_settle p r st : location (settle p r st) = location st.
Proof. unfold settle. frame. Qed.

Lemma location_waiterCallback p o st : location (waiterCallback p o st) = location st.
Proof. unfold waiterCallback. frame. now rewrite location_settle. Qed.

Lemma location_storeSubtitle n st : location (storeSubtitle n st) = location st.
Proof. unfold storeSubtitle. frame. Qed.

Lemma location_captionCallback added st : location (captionCallback added st) = location st.
Proof.
  unfold captionCallback.
  apply (fold_left_preserves (fun s => location s = location st)); [|reflexivity].
  intros s id <-. unfold onAddedNode. frame. now rewrite location_storeSubtitle.
Qed.

Lemma location_checkAndShowSubtitles st : location (checkAndShowSubtitles st) = location st.
Proof.
  unfold checkAndShowSubtitles. repeat case_match; try reflexivity.
  destruct (showStoredSubtitle_patched st) as (doc & more & -> & _). reflexivity.
Qed.

Lemma urlAlive_disconnect u o st : u <> o -> urlAlive u st -> urlAlive u (disconnect o st).
Proof. intros Hne H. unfold urlAlive. simpl. now rewrite list_lookup_alter_ne by auto. Qed.

Lemma urlAlive_observers u st st' :
  mutationObservers st' = mutationObservers st -> urlAlive u st -> urlAlive u st'.
Proof. unfold urlAlive. now intros ->. Qed.

Lemma mutationObservers_settle p r st :
  mutationObservers (settle p r st) = mutationObservers st.
Proof. unfold settle. frame. Qed.

Lemma urlAlive_deliver u kind site added o st :
  u <> o -> urlAlive u st -> urlAlive u (deliver kind site added o st).
Proof.
  intros Hne H. unfold deliver. repeat case_match; try exact H.
  destruct (callbackOf _); simpl.
  - unfold waiterCallback. repeat case_match; try exact H.
    eapply urlAlive_observers; [apply mutationObservers_settle|].
    now apply urlAlive_disconnect.
  - pose proof (control_captionCallback added st) as E. unfold control in E.
    injection E as _ E _ _. now apply (urlAlive_observers u st).
  - pose proof (control_checkAndShowSubtitles st) as E. unfold control in E.
    injection E as _ E _ _. now apply (urlAlive_observers u st).
  - unfold onNavigation. now destruct (String.eqb _ _).
Qed.

Lemma navigationState_fields st st' :
  navigationState st' = navigationState st ->
  currentUrl st' = currentUrl st /\ timers st' = timers st.
Proof. unfold navigationState. intros [= -> ->]. auto. Qed.

(** One observer is told, no handler having run: one may run now. *)
Lemma deliver_unnoticed loc cur ts kind site added o st :
  location st = loc -> unnoticed cur ts st ->
  location (deliver kind site added o st) = loc
  /\ (unnoticed cur ts (deliver kind site added o st)
      \/ noticed loc ts (deliver kind site added o st)).
Proof.
  intros Hloc [Hc Ht]. unfold deliver.
  destruct (mutationObservers st !! o) as [m|] eqn:Hm; [|split; [auto | left; now split]].
  destruct (observing m) as [what|]; [|split; [auto | left; now split]].
  destruct (concerns what kind site (document st)); [|split; [auto | left; now split]].
  unfold unnoticed, noticed.
  destruct (callbackOf m); simpl.
  - rewrite location_waiterCallback.
    destruct (navigationState_fields _ _ (navigationState_waiterCallback p o st)) as [-> ->].
    auto.
  - rewrite location_captionCallback.
    destruct (navigationState_fields _ _ (navigationState_captionCallback added st))
      as [-> ->].
    auto.
  - rewrite location_checkAndShowSubtitles.
    destruct (navigationState_fields _ _ (navigationState_checkAndShowSubtitles st))
      as [-> ->].
    auto.
  - unfold onNavigation. destruct (String.eqb (location st) (currentUrl st)); simpl.
    + auto.
    + split; [exact Hloc|]. right. split; simpl; congruence.
Qed.

(** One observer is told after a handler has run: nothing more is
    noticed. *)
Lemma deliver_noticed loc ts kind site added o st :
  location st = loc -> noticed loc ts st ->
  location (deliver kind site added o st) = loc
  /\ noticed loc ts (deliver kind site added o st).
Proof.
  intros Hloc [Hc Ht]. unfold deliver.
  destruct (mutationObservers st !! o) as [m|] eqn:Hm; [|split; [auto | now split]].
  destruct (observing m) as [what|]; [|split; [auto | now split]].
  destruct (concerns what kind site (document st)); [|split; [auto | now split]].
  unfold noticed.
  destruct (callbackOf m); simpl.
  - rewrite location_waiterCallback.
    destruct (navigationState_fields _ _ (navigationState_waiterCallback p o st)) as [-> ->].
    auto.
  - rewrite location_captionCallback.
    destruct (navigationState_fields _ _ (navigationState_captionCallback added st))
      as [-> ->].
    auto.
  - rewrite location_checkAndShowSubtitles.
    destruct (navigationState_fields _ _ (navigationState_checkAndShowSubtitles st))
      as [-> ->].
    auto.
  - unfold onNavigation. rewrite Hloc, Hc, String.eqb_refl. auto.
Qed.

(** The connected observer of the address is told of a change of the
    tree. *)
Lemma deliver_url loc cur ts site added u st :
  urlAlive u st ->
  location st = loc -> loc <> cur ->
  unnoticed cur ts st ->
  location (deliver ChildList site added u st) = loc
  /\ noticed loc ts (deliver ChildList site added u st).
Proof.
  intros Hu Hloc Hne [Hc Ht]. unfold deliver. rewrite Hu. simpl.
  unfold onNavigation. rewrite Hloc, Hc.
  destruct (String.eqb loc cur) eqn:E; [apply String.eqb_eq in E; contradiction|].
  simpl. split; [exact Hloc|]. split; simpl; congruence.
Qed.

Lemma fold_deliver_noticed loc ts kind site added os : forall st,
  location st = loc -> noticed loc ts st ->
  noticed loc ts (fold_left (fun s o => deliver kind site added o s) os st).
Proof.
  induction os as [|o os IH]; intros st Hloc H; simpl; [exact H|].
  destruct (deliver_noticed loc ts kind site added o st Hloc H) as [H1 H2].
  now apply IH.
Qed.

Lemma fold_deliver_url loc cur ts site added u os : forall st,
  u ∈ os ->
  urlAlive u st ->
  location st = loc -> loc <> cur ->
  unnoticed cur ts st ->
  noticed loc ts (fold_left (fun s o => deliver ChildList site added o s) os st).
Proof.
  induction os as [|o os IH]; intros st Hin Hu Hloc Hne H; [now apply elem_of_nil in Hin|].
  simpl. destruct (decide (u = o)) as [<-|Hneq].
  - destruct (deliver_url loc cur ts site added u st Hu Hloc Hne H) as [H1 H2].
    now apply fold_deliver_noticed.
  - apply elem_of_cons in Hin as [->|Hin]; [contradiction|].
    destruct (deliver_unnoticed loc cur ts ChildList site added o st Hloc H)
      as [H1 [H2|H2]].
    + apply IH; auto. now apply urlAlive_deliver.
    + now apply fold_deliver_noticed.
Qed.

(** X19.  The observer of the address is connected when the script has
    started on a loaded page.  While it is connected the mutation signal
    works: a change of the tree reported after the address has changed
    records the new address and sets the restart timer of 500 ms, once,
    whatever other observers are told of the same change. *)
Theorem mutation_signal_works_while_connected :
  (forall (doc0 : node) (url0 : string),
      urlAlive (List.length (mutationObservers (initializeExtension (page doc0 url0))))
        (start false doc0 url0))
  /\ (forall (st : state) (u : nat) (doc : node) (site : nat) (added : list nat),
        urlAlive u st ->
        jobs st = [] ->
        location st <> currentUrl st ->
        exists st',
          step (Mutation doc ChildList site added) st = Some st'
          /\ currentUrl st' = location st
          /\ timers st' = timers st ++ [(500%N, Reinitialize)]).
Proof.
  split.
  - intros doc0 url0. unfold start, main.
    apply (setupNavigationDetection_pushes (initializeExtension (page doc0 url0))).
  - intros st u doc site added Hu Hj Hne.
    unfold step. rewrite Hj. eexists. split; [reflexivity|].
    unfold notify.
    apply (fold_deliver_url (location st) (currentUrl st) (timers st) site added u).
    + apply elem_of_seq. split; [lia|]. simpl.
      apply lookup_lt_Some in Hu. simpl. lia.
    + exact Hu.
    + reflexivity.
    + exact Hne.
    + split; reflexivity.
Qed.

Lemma mutation_signal_works_while_connected_witness :
  exists st',
    step Scenario.mutation
      (Sample.after [RunJob; RunJob; LocationChange Sample.url2] Scenario.loaded)
    = Some st'
    /\ currentUrl st' = Sample.url2
    /\ timers st' = [(500%N, Reinitialize)].
Proof.
  destruct mutation_signal_works_while_connected as [_ H].
  destruct (H (Sample.after [RunJob; RunJob; LocationChange Sample.url2] Scenario.loaded)
              0 (Sample.player [] Sample.twoLines) 1 [])
    as (st' & H1 & H2 & H3).
  - vm_compute. reflexivity.
  - vm_compute. reflexivity.
  - vm_compute. congruence.
  - exists st'. split; [exact H1|]. split; [exact H2 | exact H3].
Defined.

End FirstNavigation.
